(** * OpenSCD core: edit history, document registry and plugin registry

    A shallow embedding of the [open-scd] custom element (class [OpenSCD],
    the TypeScript listing of [open-scd.ts]) together with the event and
    edit declarations of [foundation/edit-event-v1.ts],
    [foundation/edit-event.ts] and the API description, and of the code
    wizard ([components/code-wizard.ts]).

    Numbers are integers ([Z]); arrays are lists; the [docs] object and the
    module-level [pluginTags] map are finite maps; DOM nodes are references
    into a node heap.  A method that mutates the element is a function from
    the state before to a completion: the state after, and whether the call
    returned or threw.  Strings are read as ASCII; where a text is taken
    apart character by character it is the list of its characters. *)

From Stdlib Require Import ZArith Lia Ascii String.
From stdpp Require Import base option list gmap strings.

Set Warnings "-register-all".

(** ** Completions: a state monad with exceptions *)

(** How a call ends: it returns [a], or it throws; either way [s] is the
    state it leaves behind (JavaScript does not roll back on a throw). *)
Inductive completion (A S : Type) : Type :=
| Normal (a : A) (s : S)
| Throw (s : S).
Arguments Normal {A S} a s.
Arguments Throw {A S} s.

Definition M (S A : Type) : Type := S → completion A S.

Definition state_of {A S} (c : completion A S) : S :=
  match c with Normal _ s => s | Throw s => s end.

Definition returned {A S} (c : completion A S) : bool :=
  match c with Normal _ _ => true | Throw _ => false end.

#[global] Instance M_ret {S} : MRet (M S) := λ A a s, Normal a s.

#[global] Instance M_bind {S} : MBind (M S) := λ A B k m s,
  match m s with
  | Normal a s' => k a s'
  | Throw s' => Throw s'
  end.

Definition gets {S A} (f : S → A) : M S A := λ s, Normal (f s) s.
Definition modify {S} (f : S → S) : M S unit := λ s, Normal tt (f s).
Definition throw {S A} : M S A := λ s, Throw s.

(** [xs.forEach(f)] *)
Fixpoint forEach {S A} (f : A → M S unit) (xs : list A) : M S unit :=
  match xs with
  | [] => mret tt
  | x :: xs' => f x ;; forEach f xs'
  end.

(** [m] leaves the state related by [R] to the one it started in, whether
    it returns or throws. *)
Definition preserves {S A} (R : S → S → Prop) (m : M S A) : Prop :=
  ∀ s, R s (state_of (m s)).

(** The relation of a state in which [I] holds to the states in which it
    still holds. *)
Definition keeps {S} (I : S → Prop) (s s' : S) : Prop := I s → I s'.

(** ** Arrays and strings as JavaScript reads them *)

(** [l[i]]: [undefined] (here [None]) outside [0 .. l.length - 1]. *)
Definition index {A} (l : list A) (i : Z) : option A :=
  if (0 <=? i)%Z then l !! Z.to_nat i else None.

(** What [l.splice(start)] leaves in [l]: a negative [start] counts from the
    end, and the start is clamped to [0 .. l.length]; every element from
    there on is removed. *)
Definition splice {A} (start : Z) (l : list A) : list A :=
  let len := Z.of_nat (length l) in
  let actualStart :=
    if (start <? 0)%Z then Z.max (len + start) 0 else Z.min start len in
  take (Z.to_nat actualStart) l.

(** [c.toLowerCase()] on the ASCII range: only [A-Z] change. *)
Definition lower_ascii (c : ascii) : ascii :=
  let n := nat_of_ascii c in
  if (65 <=? n)%nat && (n <=? 90)%nat then ascii_of_nat (n + 32) else c.

Fixpoint toLowerCase (s : string) : string :=
  match s with
  | EmptyString => EmptyString
  | String c s' => String (lower_ascii c) (toLowerCase s')
  end.

(** [s.endsWith(suffix)] *)
Fixpoint endsWith (s suffix : string) : bool :=
  String.eqb s suffix
  || match s with
     | EmptyString => false
     | String _ s' => endsWith s' suffix
     end.

(** [name] ends in a dot and [ext], letter case aside. *)
Definition hasExtension (name ext : string) : Prop :=
  endsWith (toLowerCase name) ("." +:+ toLowerCase ext) = true.

(** [!!s] for a string: only the empty string is falsy. *)
Definition truthy (s : string) : bool := negb (String.eqb s "").

(** ** The edit model *)

(** A DOM node is a reference; the node heap itself is the [Dom] the edit
    engine works on. *)
Abbreviation Node := nat (only parsing).

(** [EditV2 = Insert | SetAttributes | SetTextContent | Remove | Edit[]];
    an attribute value [None] is [null] (remove the attribute). *)
Inductive Edit : Type :=
| Insert (parent node : Node) (reference : option Node)
| Remove (node : Node)
| SetAttributes (element : Node)
    (attributes : list (string * option string))
    (attributesNS : list (string * list (string * option string)))
| SetTextContent (element : Node) (textContent : string)
| Compound (edits : list Edit).

Module LogEntry.
(** [type LogEntry = { undo: Edit; redo: Edit }] *)
Record t : Type := mk { undo : Edit; redo : Edit }.
End LogEntry.

(** The [oscd-edit] event handled by the element: its [detail] is the edit. *)
Record EditEvent : Type := { detail : Edit }.

(** [newEditEventV1(edit)] *)
Definition newEditEventV1 (edit : Edit) : EditEvent := {| detail := edit |}.


Module EditDetailV2.
(** [type EditDetailV2 = { edit; title?; squash? }], the [detail] of an
    [oscd-edit-v2] event. *)
Record t : Type :=
  mk { edit : Edit; title : option string; squash : option bool }.
End EditDetailV2.

(** What [newEditEvent] returns, [EditEvent | EditEventV2], by the type of
    the event: [oscd-edit] or [oscd-edit-v2]. *)
Inductive AnyEditEvent : Type :=
| Oscd_edit (event : EditEvent)
| Oscd_edit_v2 (detail : EditDetailV2.t).


Section NewEditEvent.

(** [isEditV2] and [convertEdit] of [@openenergytools/xml-lib]. *)
Variable isEditV2 : Edit → bool.
Variable convertEdit : Edit → Edit.


End NewEditEvent.

(** ** Plugins *)

Record Plugin : Type :=
  { name : string;
    translations : option (list (string * string));
    src : string;
    icon : string;
    requireDoc : option bool;
    active : option bool }.

Record PluginSet : Type := { menu : list Plugin; editor : list Plugin }.

(** [keyof PluginSet] *)
Inductive PluginKind : Type := Menu | Editor.

#[global] Instance PluginKind_eq_dec : EqDecision PluginKind.
Proof. solve_decision. Defined.

(** [pluginSet[kind]] *)
Definition kind_of (ps : PluginSet) (kind : PluginKind) : list Plugin :=
  match kind with Menu => menu ps | Editor => editor ps end.

(** [pluginSet[kind].push(plugin)] *)
Definition kind_push (kind : PluginKind) (plugin : Plugin) (ps : PluginSet)
  : PluginSet :=
  match kind with
  | Menu => {| menu := menu ps ++ [plugin]; editor := editor ps |}
  | Editor => {| menu := menu ps; editor := editor ps ++ [plugin] |}
  end.

(** A [Partial<PluginSet>] as [Object.entries] lists it: the kinds that are
    present, in insertion order, each with its array. *)
Definition PartialPluginSet : Type := list (PluginKind * list Plugin).

(** The value of key [kind] in the object, if the key is present. *)
Fixpoint entry (kind : PluginKind) (ps : PartialPluginSet)
  : option (list Plugin) :=
  match ps with
  | [] => None
  | (k, v) :: ps' => if decide (k = kind) then Some v else entry kind ps'
  end.

(** The descriptors of the object with their kinds, in the order in which
    the two nested [forEach] of the [plugins] setter visit them. *)
Definition descriptors (ps : PartialPluginSet) : list (PluginKind * Plugin) :=
  ps ≫= λ kv, (λ plugin, (fst kv, plugin)) <$> snd kv.

(** [{ menu: [], editor: [], ...plugins }] *)
Definition spread (ps : PartialPluginSet) : PluginSet :=
  {| menu := default [] (entry Menu ps);
     editor := default [] (entry Editor ps) |}.

(** ** The element *)

(** What [customElements.define] can tell of the value a module exports as
    its default: whether it is the same object as another one, and whether
    it can be defined under a name as far as the name and the value alone
    go (the value is a constructor whose prototype is an object, the name
    is a valid custom element name). *)
Class Exported (PluginModule : Type) : Type :=
  { exported_eq_dec :: EqDecision PluginModule;
    definable : string → PluginModule → bool }.

Section Element.

(** The node heap, the documents held in [docs], and the value a plugin
    module exports as its default ([mod.default]). *)
Context {Dom XMLDocument PluginModule : Type}.
Context `{!Exported PluginModule}.

(** [handleEdit] of [foundation.js]: applies an edit to the node heap and
    returns its inverse, or throws. *)
Variable handleEdit : Edit → M Dom Edit.

(** [cyrb64] of [foundation.js]: the hash of a string, as text. *)
Variable cyrb64 : string → string.

(** [new URL(src, window.location.href).toString()]; the constructor
    throws for a locator that does not parse, here [None]. *)
Variable resolveURL : string → option string.

(** A call [import(url).then(mod => ...)] of the [plugins] setter: the
    locator, what the callback has captured, and whether the promise has
    been settled. *)
Record Import : Type :=
  { url : string;
    then_tagName : string;
    then_pluginType : PluginKind;
    then_plugin : Plugin;
    settled : bool }.

(** The fields of [OpenSCD] the core logic reads and writes, followed by
    the page state the element shares with the rest of the page. *)
Record OpenSCD : Type :=
  { history : list LogEntry.t;
    editCount : Z;
    docs : gmap string XMLDocument;
    docName : string;
    editable : list string;
    priv_loadedPlugins : PluginSet;          (* #loadedPlugins *)
    priv_loadedPluginTagNames : list string; (* #loadedPluginTagNames *)
    priv_plugins : PluginSet;                (* #plugins *)
    dom : Dom;                               (* the nodes of the documents *)
    pluginTags : gmap string string;         (* const pluginTags = new Map() *)
    customElements : list (string * PluginModule); (* definitions, in order *)
    imports : list Import                    (* every import() call so far *) }.

Definition set_history (v : list LogEntry.t) (w : OpenSCD) : OpenSCD :=
  let '(Build_OpenSCD _ b c d e f g h i j k l) := w in
  Build_OpenSCD v b c d e f g h i j k l.
Definition set_editCount (v : Z) (w : OpenSCD) : OpenSCD :=
  let '(Build_OpenSCD a _ c d e f g h i j k l) := w in
  Build_OpenSCD a v c d e f g h i j k l.
Definition set_docs (v : gmap string XMLDocument) (w : OpenSCD) : OpenSCD :=
  let '(Build_OpenSCD a b _ d e f g h i j k l) := w in
  Build_OpenSCD a b v d e f g h i j k l.
Definition set_docName (v : string) (w : OpenSCD) : OpenSCD :=
  let '(Build_OpenSCD a b c _ e f g h i j k l) := w in
  Build_OpenSCD a b c v e f g h i j k l.
Definition set_loadedPlugins (v : PluginSet) (w : OpenSCD) : OpenSCD :=
  let '(Build_OpenSCD a b c d e _ g h i j k l) := w in
  Build_OpenSCD a b c d e v g h i j k l.
Definition set_loadedPluginTagNames (v : list string) (w : OpenSCD) : OpenSCD :=
  let '(Build_OpenSCD a b c d e f _ h i j k l) := w in
  Build_OpenSCD a b c d e f v h i j k l.
Definition set_priv_plugins (v : PluginSet) (w : OpenSCD) : OpenSCD :=
  let '(Build_OpenSCD a b c d e f g _ i j k l) := w in
  Build_OpenSCD a b c d e f g v i j k l.
Definition set_dom (v : Dom) (w : OpenSCD) : OpenSCD :=
  let '(Build_OpenSCD a b c d e f g h _ j k l) := w in
  Build_OpenSCD a b c d e f g h v j k l.
Definition set_pluginTags (v : gmap string string) (w : OpenSCD) : OpenSCD :=
  let '(Build_OpenSCD a b c d e f g h i _ k l) := w in
  Build_OpenSCD a b c d e f g h i v k l.
Definition set_customElements (v : list (string * PluginModule)) (w : OpenSCD)
  : OpenSCD :=
  let '(Build_OpenSCD a b c d e f g h i j _ l) := w in
  Build_OpenSCD a b c d e f g h i j v l.
Definition set_imports (v : list Import) (w : OpenSCD) : OpenSCD :=
  let '(Build_OpenSCD a b c d e f g h i j k _) := w in
  Build_OpenSCD a b c d e f g h i j k v.

(** The element as its field initialisers leave it, in a page whose node
    heap is [d] and whose custom-element registry holds [registry]. *)
Definition initial (d : Dom) (registry : list (string * PluginModule))
  : OpenSCD :=
  {| history := [];
     editCount := 0;
     docs := ∅;
     docName := "";
     editable := ["cid"; "icd"; "iid"; "scd"; "sed"; "ssd"];
     priv_loadedPlugins := {| menu := []; editor := [] |};
     priv_loadedPluginTagNames := [];
     priv_plugins := {| menu := []; editor := [] |};
     dom := d;
     pluginTags := ∅;
     customElements := registry;
     imports := [] |}.

(** A computation on the node heap, run on the element's page. *)
Definition onDom {A} (m : M Dom A) : M OpenSCD A := λ w,
  match m (dom w) with
  | Normal a d => Normal a (set_dom d w)
  | Throw d => Throw (set_dom d w)
  end.

(** [this.requestUpdate(...)]: asks Lit to render again; no field of the
    model changes. *)
Definition requestUpdate : M OpenSCD unit := mret tt.

(** *** Documents *)

(** [get doc()] *)
Definition doc (w : OpenSCD) : option XMLDocument := docs w !! docName w.

(** [isEditable(docName)]: [find] returns the first extension that matches
    and [!!] tells whether that string is truthy. *)
Definition isEditable (w : OpenSCD) (docName : string) : bool :=
  match
    find (λ ext, endsWith (toLowerCase docName) ("." +:+ ext)) (editable w)
  with
  | Some ext => truthy ext
  | None => false
  end.

(** [handleOpenDoc({ detail: { docName, doc } })] *)
Definition handleOpenDoc (docName : string) (doc : XMLDocument)
  : M OpenSCD unit :=
  modify (λ w, set_docs (<[docName := doc]> (docs w)) w) ;;
  editableName ← gets (λ w, isEditable w docName) ;
  (if editableName : bool then modify (set_docName docName) else mret tt) ;;
  requestUpdate.

(** *** History *)

(** [get last()] *)
Definition last (w : OpenSCD) : Z := (editCount w - 1)%Z.

(** [get canUndo()] *)
Definition canUndo (w : OpenSCD) : bool := (0 <=? last w)%Z.

(** [get canRedo()] *)
Definition canRedo (w : OpenSCD) : bool :=
  (editCount w <? Z.of_nat (length (history w)))%Z.

(** [handleEditEvent(event)]: the redo branch is cut first, then the edit is
    applied and the pair recorded. *)
Definition handleEditEvent (event : EditEvent) : M OpenSCD unit :=
  let edit := detail event in
  modify (λ w, set_history (splice (editCount w) (history w)) w) ;;
  inverse ← onDom (handleEdit edit) ;
  modify (λ w,
    set_history (history w ++ [LogEntry.mk inverse edit]) w) ;;
  modify (λ w, set_editCount (editCount w + 1)%Z w).

(** [dispatchEvent(event)] on the element, for an edit event.  The
    constructor registers [handleEditEvent] for [oscd-edit] and no listener
    for [oscd-edit-v2]; an exception in a listener is reported and does not
    reach the caller of [dispatchEvent]. *)
Definition dispatchEvent (event : AnyEditEvent) : M OpenSCD unit :=
  match event with
  | Oscd_edit event => λ w, Normal tt (state_of (handleEditEvent event w))
  | Oscd_edit_v2 _ => mret tt
  end.

(** [this.history[i].undo]: reading a field of [undefined] throws. *)
Definition entryAt (i : Z) : M OpenSCD LogEntry.t := λ w,
  match index (history w) i with
  | Some e => Normal e w
  | None => Throw w
  end.

(** One pass through the body of [undo], up to the recursive call. *)
Definition undoStep : M OpenSCD unit :=
  e ← (i ← gets last ; entryAt i) ;
  onDom (handleEdit (LogEntry.undo e)) ;;
  modify (λ w, set_editCount (editCount w - 1)%Z w).

(** One pass through the body of [redo], up to the recursive call. *)
Definition redoStep : M OpenSCD unit :=
  e ← (i ← gets editCount ; entryAt i) ;
  onDom (handleEdit (LogEntry.redo e)) ;;
  modify (λ w, set_editCount (editCount w + 1)%Z w).

(** [undo(n)] unrolled [fuel] calls deep. *)
Fixpoint undoLoop (fuel : nat) (n : Z) : M OpenSCD unit :=
  ok ← gets canUndo ;
  if negb ok || (n <? 1)%Z then mret tt
  else
    undoStep ;;
    if (1 <? n)%Z
    then match fuel with
         | O => mret tt
         | S fuel' => undoLoop fuel' (n - 1)%Z
         end
    else mret tt.

(** [undo(n = 1)]: the recursion is at most [n] calls deep. *)
Definition undo (n : Z) : M OpenSCD unit := undoLoop (Z.to_nat n) n.

(** [redo(n)] unrolled [fuel] calls deep. *)
Fixpoint redoLoop (fuel : nat) (n : Z) : M OpenSCD unit :=
  ok ← gets canRedo ;
  if negb ok || (n <? 1)%Z then mret tt
  else
    redoStep ;;
    if (1 <? n)%Z
    then match fuel with
         | O => mret tt
         | S fuel' => redoLoop fuel' (n - 1)%Z
         end
    else mret tt.

(** [redo(n = 1)] *)
Definition redo (n : Z) : M OpenSCD unit := redoLoop (Z.to_nat n) n.

(** *** Plugin registry *)

(** [pluginTag(uri)]: the tag cached for [uri], computed and cached on the
    first call. *)
Definition pluginTag (uri : string) : M OpenSCD string := λ w,
  match pluginTags w !! uri with
  | Some tag => Normal tag w
  | None =>
      let tag := "oscd-p" +:+ cyrb64 uri in
      Normal tag (set_pluginTags (<[uri := tag]> (pluginTags w)) w)
  end.

(** [customElements.get(tagName)] *)
Definition customElements_get (tagName : string)
  (registry : list (string * PluginModule)) : option PluginModule :=
  snd <$> find (λ kv, String.eqb (fst kv) tagName) registry.

(** [customElements.define(tagName, constructor)]: the registry refuses
    what is not [definable], a name that is already defined, and a
    constructor that is already defined under some name. *)
Definition customElements_define (tagName : string) (c : PluginModule)
  : M OpenSCD unit :=
  registry ← gets customElements ;
  if negb (definable tagName c) then throw
  else if customElements_get tagName registry is Some _ then throw
  else if bool_decide (c ∈ registry.*2) then throw
  else modify (λ w, set_customElements (customElements w ++ [(tagName, c)]) w).

(** [get loadedPlugins()] *)
Definition loadedPlugins (w : OpenSCD) : PluginSet := priv_loadedPlugins w.

(** [get plugins()] *)
Definition plugins (w : OpenSCD) : PluginSet := priv_plugins w.

(** [addLoadedPlugin(tagName, kind, plugin)] *)
Definition addLoadedPlugin (tagName : string) (kind : PluginKind)
  (plugin : Plugin) : M OpenSCD unit :=
  modify (λ w, set_loadedPlugins (kind_push kind plugin (priv_loadedPlugins w)) w) ;;
  modify (λ w,
    set_loadedPluginTagNames (priv_loadedPluginTagNames w ++ [tagName]) w).

(** The callback of [import(url).then(mod => ...)] in the [plugins] setter,
    with the variables it has captured. *)
Definition importThen (i : Import) (mod_default : PluginModule)
  : M OpenSCD unit :=
  addLoadedPlugin (then_tagName i) (then_pluginType i) (then_plugin i) ;;
  defined ← gets (λ w, customElements_get (then_tagName i) (customElements w)) ;
  (if defined is Some _ then mret tt
   else customElements_define (then_tagName i) mod_default) ;;
  requestUpdate.

(** The body of the inner [forEach] of the [plugins] setter, for one
    descriptor of one kind. *)
Definition loadPlugin (pluginType : PluginKind) (plugin : Plugin)
  : M OpenSCD unit :=
  tagName ← pluginTag (src plugin) ;
  loaded ← gets (λ w, bool_decide (tagName ∈ priv_loadedPluginTagNames w)) ;
  if loaded : bool then mret tt
  else
    defined ← gets (λ w, customElements_get tagName (customElements w)) ;
    if defined is Some _
    then addLoadedPlugin tagName pluginType plugin ;; requestUpdate
    else
      match resolveURL (src plugin) with
      | None => throw
      | Some url =>
          modify (λ w,
            set_imports
              (imports w ++
                 [{| url := url;
                     then_tagName := tagName;
                     then_pluginType := pluginType;
                     then_plugin := plugin;
                     settled := false |}]) w)
      end.

(** [set plugins(plugins)] up to the end of the synchronous part: every
    [import()] it starts is left pending in [imports].  A throw inside the
    loops ends the setter before [#plugins] is assigned. *)
Definition set_plugins (plugins : PartialPluginSet) : M OpenSCD unit :=
  forEach (λ kv, forEach (loadPlugin (fst kv)) (snd kv)) plugins ;;
  modify (set_priv_plugins (spread plugins)).

(** The import [i], settled. *)
Definition settledImport (i : Import) : Import :=
  {| url := url i;
     then_tagName := then_tagName i;
     then_pluginType := then_pluginType i;
     then_plugin := then_plugin i;
     settled := true |}.

(** The promise of the [k]-th [import()] call is settled: fulfilled with
    the class the module exports, or rejected ([None]; the setter attaches
    no rejection handler).  A promise settles once. *)
Definition settle (k : nat) (result : option PluginModule) : M OpenSCD unit :=
  i ← gets (λ w, imports w !! k) ;
  match i with
  | Some i =>
      if settled i then mret tt
      else
        modify (λ w, set_imports (<[k := settledImport i]> (imports w)) w) ;;
        match result with
        | Some mod_default => importThen i mod_default
        | None => mret tt
        end
  | None => mret tt
  end.

(** *** What can happen to the element *)

(** The events the constructor listens to, the public calls, and the
    settling of pending imports by the event loop. *)
Inductive Action : Type :=
| Dispatch_edit (event : EditEvent)
| Dispatch_open (docName : string) (doc : XMLDocument)
| Call_undo (n : Z)
| Call_redo (n : Z)
| Assign_plugins (plugins : PartialPluginSet)
| Settle (k : nat) (result : option PluginModule).

Definition perform (a : Action) : M OpenSCD unit :=
  match a with
  | Dispatch_edit event => handleEditEvent event
  | Dispatch_open docName doc => handleOpenDoc docName doc
  | Call_undo n => undo n
  | Call_redo n => redo n
  | Assign_plugins ps => set_plugins ps
  | Settle k result => settle k result
  end.

(** Each action runs to completion; an uncaught exception ends the action,
    not the element. *)
Definition step (w : OpenSCD) (a : Action) : OpenSCD := state_of (perform a w).

Definition run (actions : list Action) (w : OpenSCD) : OpenSCD :=
  foldl step w actions.

(** No callback of an import throws in the course of [actions], started in
    [w]: every class a fulfilled import delivers is one that
    [customElements.define] accepts when the callback reaches it. *)
Fixpoint callbacksReturn (actions : list Action) (w : OpenSCD) : bool :=
  match actions with
  | [] => true
  | a :: actions' =>
      (if a is Settle _ _ then returned (perform a w) else true)
      && callbacksReturn actions' (step w a)
  end.

(** The tag [pluginTag] gives [uri] in state [w]. *)
Definition tagOf (w : OpenSCD) (uri : string) : string :=
  default ("oscd-p" +:+ cyrb64 uri) (pluginTags w !! uri).

(** [w] once [pluginTag uri] has been called. *)
Definition cached (uri : string) (w : OpenSCD) : OpenSCD :=
  set_pluginTags (<[uri := tagOf w uri]> (pluginTags w)) w.

(** The pending import of [url] that [loadPlugin] starts for [plugin] in
    state [w]. *)
Definition importOf (w : OpenSCD) (pluginType : PluginKind) (plugin : Plugin)
  (url : string) : Import :=
  {| url := url;
     then_tagName := tagOf w (src plugin);
     then_pluginType := pluginType;
     then_plugin := plugin;
     settled := false |}.

(** *** States and how they compare *)

(** The cursor is within the log. *)
Definition cursorInRange (w : OpenSCD) : Prop :=
  (0 ≤ editCount w ≤ Z.of_nat (length (history w)))%Z.

(** The log and the cursor of [w'] are those of [w]. *)
Definition sameLog (w w' : OpenSCD) : Prop :=
  history w' = history w ∧ editCount w' = editCount w.

(** The fields of the registry in [w'] are those of [w]. *)
Definition sameRegistry (w w' : OpenSCD) : Prop :=
  priv_loadedPlugins w' = priv_loadedPlugins w ∧
  priv_loadedPluginTagNames w' = priv_loadedPluginTagNames w ∧
  priv_plugins w' = priv_plugins w ∧
  pluginTags w' = pluginTags w ∧
  customElements w' = customElements w ∧
  imports w' = imports w.

(** Every loaded descriptor of [w], and every loaded tag, is still in its
    place in [w']. *)
Definition loadedGrows (w w' : OpenSCD) : Prop :=
  (∀ kind, kind_of (loadedPlugins w) kind `prefix_of`
           kind_of (loadedPlugins w') kind) ∧
  priv_loadedPluginTagNames w `prefix_of` priv_loadedPluginTagNames w'.

(** Every cached tag is the tag of its locator. *)
Definition tagsCoherent (w : OpenSCD) : Prop :=
  ∀ uri tag, pluginTags w !! uri = Some tag → tag = "oscd-p" +:+ cyrb64 uri.

(** No tag is bound twice in the registry, and no class. *)
Definition boundOnce (w : OpenSCD) : Prop :=
  NoDup (customElements w).*1 ∧ NoDup (customElements w).*2.

End Element.

(** ** The edit engine *)

Module EditEngine.

(** The node heap: parent and child links, plain attributes by name,
    namespaced attributes by namespace and name, and text content.  [root]
    is the document node of the tree being edited. *)
Record Dom : Type :=
  { root : nat;
    parentNode : gmap nat nat;
    childNodes : gmap nat (list nat);
    attributes : gmap (nat * string) string;
    attributesNS : gmap (nat * (string * string)) string;
    textContent : gmap nat string }.

Definition children (d : Dom) (p : nat) : list nat :=
  default [] (childNodes d !! p).

(** The element of [l] that follows [n]. *)
Fixpoint after (n : nat) (l : list nat) : option nat :=
  match l with
  | [] => None
  | x :: l' => if decide (x = n) then head l' else after n l'
  end.

Definition nextSibling (d : Dom) (n : nat) : option nat :=
  p ← parentNode d !! n ; after n (children d p).

(** [n] reaches the document node in at most [fuel] parent links. *)
Fixpoint climbs (fuel : nat) (d : Dom) (n : nat) : bool :=
  if decide (n = root d) then true
  else match fuel with
       | O => false
       | S fuel' =>
           match parentNode d !! n with
           | Some p => climbs fuel' d p
           | None => false
           end
       end.

(** [n] is attached to the tree. *)
Definition attached (d : Dom) (n : nat) : bool :=
  climbs (size (parentNode d)) d n.

(** [l] with [n] placed before [reference], or at the end without one. *)
Fixpoint placeBefore (reference : option nat) (n : nat) (l : list nat)
  : list nat :=
  match l with
  | [] => [n]
  | x :: l' =>
      if decide (reference = Some x) then n :: x :: l'
      else x :: placeBefore reference n l'
  end.

(** [n] taken out of the child list of its parent, if it has one. *)
Definition detach (n : nat) (d : Dom) : Dom :=
  match parentNode d !! n with
  | Some p =>
      {| root := root d;
         parentNode := delete n (parentNode d);
         childNodes := <[p := filter (λ x, x ≠ n) (children d p)]> (childNodes d);
         attributes := attributes d;
         attributesNS := attributesNS d;
         textContent := textContent d |}
  | None => d
  end.

(** [n] made a child of [p], before [reference]. *)
Definition attach (p n : nat) (reference : option nat) (d : Dom) : Dom :=
  {| root := root d;
     parentNode := <[n := p]> (parentNode d);
     childNodes := <[p := placeBefore reference n (children d p)]> (childNodes d);
     attributes := attributes d;
     attributesNS := attributesNS d;
     textContent := textContent d |}.

(** The edit that puts [n] back where it is in [d]: an [Insert] to its
    parent and next sibling, or a [Remove] when it has no parent. *)
Definition restore (d : Dom) (n : nat) : Edit :=
  match parentNode d !! n with
  | Some p => Insert p n (nextSibling d n)
  | None => Remove n
  end.

(** A reference, if there is one, is a child of [parent]. *)
Definition childOrAbsent (d : Dom) (parent : nat) (reference : option nat)
  : bool :=
  match reference with
  | Some r => bool_decide (r ∈ children d parent)
  | None => true
  end.

(** Modelled from the spec: the Insert rule of the Edit Engine (section
    4.1).  A parent that is not attached or a reference that is not a child
    of the parent is rejected; the inverse is taken from the tree before. *)
Definition handleInsert (parent node : nat) (reference : option nat) (d : Dom)
  : option (Dom * Edit) :=
  if negb (attached d parent) then None
  else if negb (childOrAbsent d parent reference) then None
  else Some (attach parent node reference (detach node d), restore d node).

(** Modelled from the spec: the Remove rule of the Edit Engine (section
    4.1).  The inverse inserts the node under the parent and before the
    next sibling it had. *)
Definition handleRemove (node : nat) (d : Dom) : option (Dom * Edit) :=
  if negb (attached d node) then None
  else match parentNode d !! node with
       | Some _ => Some (detach node d, restore d node)
       | None => None
       end.

(** One plain attribute set, or removed for [None]. *)
Definition setAttribute (element : nat) (d : gmap (nat * string) string)
  (kv : string * option string) : gmap (nat * string) string :=
  match snd kv with
  | Some v => <[(element, fst kv) := v]> d
  | None => delete (element, fst kv) d
  end.

(** One namespaced attribute set, or removed for [None]. *)
Definition setAttributeNS (element : nat) (ns : string)
  (d : gmap (nat * (string * string)) string) (kv : string * option string)
  : gmap (nat * (string * string)) string :=
  match snd kv with
  | Some v => <[(element, (ns, fst kv)) := v]> d
  | None => delete (element, (ns, fst kv)) d
  end.

(** Modelled from the spec: the SetAttributes rule of the Edit Engine
    (section 4.1).  The inverse carries the prior value of every attribute
    named in the request, [None] for one that was absent. *)
Definition handleSetAttributes (element : nat)
  (attrs : list (string * option string))
  (attrsNS : list (string * list (string * option string))) (d : Dom)
  : option (Dom * Edit) :=
  if negb (attached d element) then None
  else
    let prior :=
      (λ kv : string * option string,
         (fst kv, attributes d !! (element, fst kv))) <$> attrs in
    let priorNS :=
      (λ g : string * list (string * option string),
         (fst g,
          (λ kv : string * option string,
             (fst kv, attributesNS d !! (element, (fst g, fst kv))))
            <$> snd g)) <$> attrsNS in
    Some ({| root := root d;
             parentNode := parentNode d;
             childNodes := childNodes d;
             attributes := foldl (setAttribute element) (attributes d) attrs;
             attributesNS :=
               foldl (λ m g, foldl (setAttributeNS element (fst g)) m (snd g))
                 (attributesNS d) attrsNS;
             textContent := textContent d |},
          SetAttributes element prior priorNS).

(** The text of [element] replaced; an element without text has no entry. *)
Definition replaceText (element : nat) (text : string) (m : gmap nat string)
  : gmap nat string :=
  if decide (text = ""%string) then delete element m else <[element := text]> m.

(** Modelled from the spec: the SetTextContent rule of the Edit Engine
    (section 4.1).  The inverse carries the prior text. *)
Definition handleSetTextContent (element : nat) (text : string) (d : Dom)
  : option (Dom * Edit) :=
  if negb (attached d element) then None
  else
    Some ({| root := root d;
             parentNode := parentNode d;
             childNodes := childNodes d;
             attributes := attributes d;
             attributesNS := attributesNS d;
             textContent := replaceText element text (textContent d) |},
          SetTextContent element (default "" (textContent d !! element))).

(** Modelled from the spec: the Compound rule of the Edit Engine (section
    4.1).  The members are applied in order by [apply]; the inverse of each
    goes in front of the inverses collected so far.  A member that is
    rejected rejects the whole. *)
Definition handleEach (apply : Edit → Dom → option (Dom * Edit))
  : list Edit → Dom → list Edit → option (Dom * Edit) :=
  fix each (edits : list Edit) (d : Dom) (inverses : list Edit) :=
    match edits with
    | [] => Some (d, Compound inverses)
    | e :: edits' =>
        match apply e d with
        | Some (d', inverse) => each edits' d' (inverse :: inverses)
        | None => None
        end
    end.

(** Modelled from the spec: [handleEdit] of [foundation.js] (the Edit
    Engine, section 4.1) is not among the sources.  [handleEdit e d] is the
    tree after [e] together with the inverse of [e], computed from the tree
    before; [None] when the edit is rejected, which leaves the tree as it
    was. *)
Fixpoint handleEdit (e : Edit) (d : Dom) {struct e} : option (Dom * Edit) :=
  match e with
  | Insert parent node reference => handleInsert parent node reference d
  | Remove node => handleRemove node d
  | SetAttributes element attrs attrsNS =>
      handleSetAttributes element attrs attrsNS d
  | SetTextContent element text => handleSetTextContent element text d
  | Compound edits => handleEach handleEdit edits d []
  end.

(** The members [edits], applied one after the other from tree [d], each
    to the tree its predecessor left, end in tree [d']; [inverses] lists
    the inverse of each member, in the order of the members. *)
Inductive appliesInOrder : Dom → list Edit → list Edit → Dom → Prop :=
| applies_none (d : Dom) : appliesInOrder d [] [] d
| applies_next (d d1 d' : Dom) (e inverse : Edit) (edits inverses : list Edit) :
    handleEdit e d = Some (d1, inverse) →
    appliesInOrder d1 edits inverses d' →
    appliesInOrder d (e :: edits) (inverse :: inverses) d'.

(** The engine as the element calls it: a rejected edit is a failed call
    that leaves the document untouched. *)
Definition apply (e : Edit) : M Dom Edit := λ d,
  match handleEdit e d with
  | Some (d', inverse) => Normal inverse d'
  | None => Throw d
  end.

End EditEngine.

(** ** The wizard request queue *)

Module WizardQueue.

(** [WizardRequest = EditWizardRequest | CreateWizardRequest]; [subWizard]
    is optional. *)
Inductive WizardRequest : Type :=
| EditWizardRequest (element : Node) (subWizard : option bool)
| CreateWizardRequest (parent : Node) (tagName : string)
    (subWizard : option bool).

(** [request.subWizard], read as a condition. *)
Definition subWizard (r : WizardRequest) : bool :=
  match r with
  | EditWizardRequest _ s => default false s
  | CreateWizardRequest _ _ s => default false s
  end.

(** Modelled from the spec: the handler of the wizard request events
    (section 4.3) is not among the sources.  A nested request goes to the
    front of [workflow], any other to the end. *)
Definition enqueue (r : WizardRequest) (workflow : list WizardRequest)
  : list WizardRequest :=
  if subWizard r then r :: workflow else workflow ++ [r].

(** Modelled from the spec: the handler of the close-wizard signal (section
    4.3) is not among the sources.  The signal carries the request being
    closed; what is removed is [workflow[0]]. *)
Definition close (r : WizardRequest) (workflow : list WizardRequest)
  : list WizardRequest :=
  drop 1 workflow.

(** Modelled from the spec: the active request is [workflow[0]] (section
    4.3). *)
Definition active (workflow : list WizardRequest) : option WizardRequest :=
  workflow !! 0.

Inductive Signal : Type :=
| Request (r : WizardRequest)
| Close (r : WizardRequest).

Definition receive (workflow : list WizardRequest) (s : Signal)
  : list WizardRequest :=
  match s with
  | Request r => enqueue r workflow
  | Close r => close r workflow
  end.

(** The queue after [signals], starting empty. *)
Definition workflowAfter (signals : list Signal) : list WizardRequest :=
  foldl receive [] signals.

End WizardQueue.

(** ** A sample page *)

Module Sample.

(** [<Parent><Element><ChildElement a="1"/></Element></Parent>]: the
    document node is 0, the three elements are 1, 2 and 3. *)
Definition tree : EditEngine.Dom :=
  {| EditEngine.root := 0;
     EditEngine.parentNode := {[ 1 := 0; 2 := 1; 3 := 2 ]};
     EditEngine.childNodes := {[ 0 := [1]; 1 := [2]; 2 := [3] ]};
     EditEngine.attributes := {[ (3, "a"%string) := "1"%string ]};
     EditEngine.attributesNS := ∅;
     EditEngine.textContent := ∅ |}.

(** Stand-ins for [cyrb64] and for URL resolution on this page.  The
    sample locators are absolute and resolve to themselves; [https://]
    names a scheme that needs a host and gives none, so it does not
    parse. *)
Definition hash (s : string) : string := s.
Definition locate (s : string) : option string :=
  if String.eqb s "https://" then None else Some s.

(** On this page a plugin class is known by its name.  The empty name
    stands for [undefined], the default of a module that exports none,
    which is no constructor; every tag [hash] gives stands for a valid
    name. *)
#[global] Instance named : Exported string :=
  {| definable := λ _ c, negb (String.eqb c "") |}.

(** A fresh element on a page whose registry is empty; a document is named
    by its document node, a plugin class by its name. *)
Definition page : @OpenSCD EditEngine.Dom nat string := initial tree [].

(** The sample tree with the text of node 3 set to [x] and its attribute
    [a] set to [2]. *)
Definition edited : EditEngine.Dom :=
  {| EditEngine.root := 0;
     EditEngine.parentNode := {[ 1 := 0; 2 := 1; 3 := 2 ]};
     EditEngine.childNodes := {[ 0 := [1]; 1 := [2]; 2 := [3] ]};
     EditEngine.attributes := {[ (3, "a"%string) := "2"%string ]};
     EditEngine.attributesNS := ∅;
     EditEngine.textContent := {[ 3 := "x"%string ]} |}.

Definition setText : Edit := SetTextContent 3 "x".
Definition setAttr : Edit := SetAttributes 3 [("a"%string, Some "2"%string)] [].
Definition move : Edit := Compound [Remove 3; Insert 2 3 None].


Definition menuPlugin1 : Plugin :=
  {| name := "Test Menu Plugin";
     translations := Some [("de"%string, "Test Menu Erweiterung"%string)];
     src := "data:text/javascript,TestPlugin1";
     icon := "margin";
     requireDoc := Some false;
     active := Some true |}.

Definition menuPlugin2 : Plugin :=
  {| name := "Test Menu Plugin 2";
     translations := None;
     src := "data:text/javascript,TestPlugin2";
     icon := "margin";
     requireDoc := Some false;
     active := Some true |}.


(** The same source as [menuPlugin1] under another name, for the tab bar. *)
Definition editorPlugin1 : Plugin :=
  {| name := "Test Editor Plugin";
     translations := None;
     src := "data:text/javascript,TestPlugin1";
     icon := "coronavirus";
     requireDoc := None;
     active := Some true |}.

Definition go (actions : list Action) (w : @OpenSCD EditEngine.Dom nat string)
  : @OpenSCD EditEngine.Dom nat string :=
  run EditEngine.apply hash locate actions w.

End Sample.

(** ** Going through the log *)

Section Replay.
Context {Dom XMLDocument PluginModule : Type}.
Variable handleEdit : Edit → M Dom Edit.
Local Abbreviation World := (@OpenSCD Dom XMLDocument PluginModule).

(** The entries below the cursor that [undo(n)] goes through, the newest
    first. *)
Definition undone (n : Z) (w : World) : list LogEntry.t :=
  take (Z.to_nat n) (reverse (take (Z.to_nat (editCount w)) (history w))).

(** The entries from the cursor on that [redo(n)] goes through. *)
Definition redone (n : Z) (w : World) : list LogEntry.t :=
  take (Z.to_nat n) (drop (Z.to_nat (editCount w)) (history w)).

(** One edit applied to the document and the cursor moved by [move]. *)
Definition replay (move : Z) (edit : Edit) : M World unit :=
  onDom (handleEdit edit) ;;
  modify (λ w, set_editCount (editCount w + move)%Z w).

(** The argument of [undo] and [redo] as [n < 1], [n > 1] and [n - 1] read
    it: a number, or a value that converts to [NaN], as the click event
    does that a button passes to its listener. *)
Inductive Count : Type :=
| Number (n : Z)
| NotANumber.

(** [n < 1], [n > 1] and [n - 1]; a comparison with [NaN] is false. *)
Definition below1 (n : Count) : bool :=
  match n with
  | Number n => (n <? 1)%Z
  | NotANumber => false
  end.

Definition above1 (n : Count) : bool :=
  match n with
  | Number n => (1 <? n)%Z
  | NotANumber => false
  end.

Definition less1 (n : Count) : Count :=
  match n with
  | Number n => Number (n - 1)
  | NotANumber => NotANumber
  end.

(** [undo(n)] and [redo(n)] for an argument of either sort. *)
Fixpoint undoWith (fuel : nat) (n : Count) : M World unit :=
  ok ← gets canUndo ;
  if negb ok || below1 n then mret tt
  else
    undoStep handleEdit ;;
    if above1 n
    then match fuel with
         | O => mret tt
         | S fuel' => undoWith fuel' (less1 n)
         end
    else mret tt.

Fixpoint redoWith (fuel : nat) (n : Count) : M World unit :=
  ok ← gets canRedo ;
  if negb ok || below1 n then mret tt
  else
    redoStep handleEdit ;;
    if above1 n
    then match fuel with
         | O => mret tt
         | S fuel' => redoWith fuel' (less1 n)
         end
    else mret tt.

(** [@click=${this.undo}] and [@click=${this.redo}] in the log dialog: the
    method is the listener, so it is called with the click event. *)
Definition undo_clicked : M World unit := undoWith 0 NotANumber.
Definition redo_clicked : M World unit := redoWith 0 NotANumber.

End Replay.

(** ** Controls, tabs and the tags that are rendered *)

(** [xs.map(f)] for an [f] that acts on the element. *)
Fixpoint mapM {S A B} (f : A → M S B) (xs : list A) : M S (list B) :=
  match xs with
  | [] => mret []
  | x :: xs' => y ← f x ; ys ← mapM f xs' ; mret (y :: ys)
  end.

(** What activating a control does: the [run] method of the plugin element
    with the tag of a locator, or one of the built-in actions. *)
Inductive Command : Type :=
| RunPlugin (src : string)
| Undo
| Redo
| ToggleLog
| ToggleMenu.

Module Control.
(** [Control & { tagName?: string }].  [getName] reads the locale and
    [isDisabled] the element, both at the time of the call. *)
Record t {World : Type} : Type := mk
  { icon : string;
    getName : string → string;
    isDisabled : World → bool;
    action : option Command;
    tagName : option string }.
Arguments t : clear implicits.
End Control.

Section Controls.

Context {Dom XMLDocument PluginModule : Type}.
Variable cyrb64 : string → string.

(** [msg] of [@lit/localize]: the text of a template in a locale. *)
Variable msg : string → string → string.

Local Abbreviation World := (@OpenSCD Dom XMLDocument PluginModule).
Local Abbreviation Control := (Control.t World).

(** [translations?.[locale]] *)
Definition translation (locale : string) (plugin : Plugin) : option string :=
  tr ← translations plugin ;
  snd <$> find (λ kv, String.eqb (fst kv) locale) tr.

(** [plugin.translations?.[this.locale] || plugin.name] *)
Definition pluginName (plugin : Plugin) (locale : string) : string :=
  match translation locale plugin with
  | Some text => if truthy text then text else name plugin
  | None => name plugin
  end.

(** [(plugin.requireDoc && !this.docName) ?? false] *)
Definition pluginDisabled (plugin : Plugin) (w : World) : bool :=
  match requireDoc plugin with
  | Some true => negb (truthy (docName w))
  | Some false => false
  | None => false
  end.

(** The callback of [loadedPlugins.menu.map] and [loadedPlugins.editor.map]:
    the control of an active plugin, [undefined] for any other.  Only a menu
    plugin has an action. *)
Definition renderedPlugin (kind : PluginKind) (plugin : Plugin)
  : M World (option Control) :=
  if active plugin is Some true then
    tag ← pluginTag cyrb64 (src plugin) ;
    mret (Some {| Control.icon := icon plugin;
                  Control.getName := pluginName plugin;
                  Control.isDisabled := pluginDisabled plugin;
                  Control.action :=
                    match kind with
                    | Menu => Some (RunPlugin (src plugin))
                    | Editor => None
                    end;
                  Control.tagName := Some tag |})
  else mret None.

(** [controls.undo], [controls.redo], [controls.log] and [controls.menu] *)
Definition control_undo : Control :=
  {| Control.icon := "undo";
     Control.getName := λ locale, msg locale "Undo";
     Control.isDisabled := λ w, negb (canUndo w);
     Control.action := Some Undo;
     Control.tagName := None |}.

Definition control_redo : Control :=
  {| Control.icon := "redo";
     Control.getName := λ locale, msg locale "Redo";
     Control.isDisabled := λ w, negb (canRedo w);
     Control.action := Some Redo;
     Control.tagName := None |}.

Definition control_log : Control :=
  {| Control.icon := "history";
     Control.getName := λ locale, msg locale "Editing history";
     Control.isDisabled := λ _, false;
     Control.action := Some ToggleLog;
     Control.tagName := None |}.

Definition control_menu : Control :=
  {| Control.icon := "menu";
     Control.getName := λ locale, msg locale "Menu";
     Control.isDisabled := λ _, false;
     Control.action := Some ToggleMenu;
     Control.tagName := None |}.

(** [#actions] *)
Definition priv_actions : list Control :=
  [control_undo; control_redo; control_log].

(** [l.filter(p => p !== undefined)] *)
Definition defined {A} (l : list (option A)) : list A := omap id l.

(** [get menu()] *)
Definition get_menu : M World (list Control) :=
  loaded ← gets (λ w, menu (loadedPlugins w)) ;
  items ← mapM (renderedPlugin Menu) loaded ;
  mret (defined items ++ priv_actions).

(** [get editors()] *)
Definition get_editors : M World (list Control) :=
  loaded ← gets (λ w, editor (loadedPlugins w)) ;
  items ← mapM (renderedPlugin Editor) loaded ;
  mret (defined items).

(** [get editor()], for the value [editorIndex] of the private field. *)
Definition get_editor (editorIndex : Z) : M World string :=
  es ← get_editors ;
  mret (default "" (e ← index es editorIndex ; Control.tagName e)).

(** The tabs of the tab bar, in order: one for each editor that is not
    disabled. *)
Definition tabs : M World (list Control) :=
  es ← get_editors ;
  w ← gets id ;
  mret (filter (λ e, Control.isDisabled e w = false) es).

(** The tags [render] instantiates in [<aside>], one for each loaded menu
    plugin. *)
Definition aside_tags : M World (list string) :=
  loaded ← gets (λ w, menu (loadedPlugins w)) ;
  mapM (λ plugin, pluginTag cyrb64 (src plugin)) loaded.


(** The value [renderedPlugin kind plugin] returns in state [w]. *)
Definition rendered (w : World) (kind : PluginKind) (plugin : Plugin)
  : option Control :=
  if active plugin is Some true then
    Some {| Control.icon := icon plugin;
            Control.getName := pluginName plugin;
            Control.isDisabled := pluginDisabled plugin;
            Control.action :=
              match kind with
              | Menu => Some (RunPlugin (src plugin))
              | Editor => None
              end;
            Control.tagName := Some (tagOf cyrb64 w (src plugin)) |}
  else None.

(** [w'] is [w] up to the tags cached by [pluginTag]. *)
Definition sameButTags (w w' : World) : Prop :=
  w' = set_pluginTags (pluginTags w') w.

(** The registry hangs together: cached tags and the tags captured by the
    imports are the tags of their locators, the tag of every loaded
    descriptor is on the list of loaded tags, and one tag is listed for
    each loaded descriptor.  When [accepted] holds, which stands for no
    callback of an import having been refused its class so far, every
    loaded tag is a defined custom element as well. *)
Definition loadedCoherent (accepted : Prop) (w : World) : Prop :=
  tagsCoherent cyrb64 w ∧
  (∀ i, i ∈ imports w →
        then_tagName i = "oscd-p" +:+ cyrb64 (src (then_plugin i))) ∧
  (∀ kind p, p ∈ kind_of (loadedPlugins w) kind →
             "oscd-p" +:+ cyrb64 (src p) ∈ priv_loadedPluginTagNames w) ∧
  (accepted →
   ∀ tag, tag ∈ priv_loadedPluginTagNames w →
          is_Some (customElements_get tag (customElements w))) ∧
  length (priv_loadedPluginTagNames w) =
    length (menu (loadedPlugins w)) + length (editor (loadedPlugins w)).

End Controls.

(** ** The file dialog *)

Section Files.

(** The file dialog can store [this.doc] under a new name when it is
    [undefined]: here a slot of [docs] holds a document or [undefined]
    ([None]). *)
Context {Dom Document PluginModule : Type}.

Local Abbreviation World := (@OpenSCD Dom (option Document) PluginModule).

(** [Object.keys(docs)]: the names in [docs], each once.  The order in
    which the engine lists them is left open. *)
Variable Object_keys : gmap string (option Document) → list string.

(** What [this.doc] evaluates to: [undefined] for a name that is not in
    [docs] and for a slot that holds [undefined]. *)
Definition currentDoc (w : World) : option Document := mjoin (doc w).

(** [get editableDocs()] *)
Definition editableDocs (w : World) : list string :=
  filter (λ name, isEditable w name = true) (Object_keys (docs w)).

(** The handler of [closed] of the file dialog, for the [detail] of the
    event ([None] for [null]) with its action. *)
Definition editFile_closed (detail : option string) : M World unit :=
  match detail with
  | None => mret tt
  | Some action =>
      if String.eqb action "remove" then
        modify (λ w, set_docs (delete (docName w) (docs w)) w) ;;
        names ← gets editableDocs ;
        modify (set_docName
                  (match names !! 0%nat with
                   | Some name => if truthy name then name else ""
                   | None => ""
                   end))
      else mret tt
  end.

(** The [validityTransform] of the name field: [false] for [valid: false]. *)
Definition fileName_validity (value extension : string) (w : World) : bool :=
  let name := value +:+ "." +:+ extension in
  negb (bool_decide (is_Some (docs w !! name))
        && negb (String.eqb name (docName w))).

(** The handler of [click] of the Rename button: [valid] is what
    [fileNameUI.checkValidity()] returns, [value] and [extension] are the
    values of the name field and of the extension select. *)
Definition rename_clicked (valid : bool) (value extension : string)
  : M World unit :=
  if negb valid then mret tt
  else
    let newDocName := value +:+ "." +:+ extension in
    taken ← gets (λ w, docs w !! newDocName) ;
    if taken is Some (Some _) then mret tt
    else
      modify (λ w, set_docs (<[newDocName := currentDoc w]> (docs w)) w) ;;
      modify (λ w, set_docs (delete (docName w) (docs w)) w) ;;
      modify (set_docName newDocName).

End Files.

(** ** Regular expressions and substrings *)

Module Pattern.

(** The regular expressions of [formatXml]: a sequence of character classes,
    each taken once, at most once ([?]) or any number of times ([*]), that
    may have to end where the text ends ([$]).  A text is the list of its
    characters. *)
Inductive Quantifier : Type := Once | Optional | Star.

Record Atom : Type := atom { class : ascii → bool; quantifier : Quantifier }.

Record t : Type := mk { atoms : list Atom; toEnd : bool }.

(** [\s] and [\w] on the ASCII range. *)
Definition space (c : ascii) : bool :=
  let n := nat_of_ascii c in
  ((9 <=? n)%nat && (n <=? 13)%nat) || (n =? 32)%nat.

Definition word (c : ascii) : bool :=
  let n := nat_of_ascii c in
  ((48 <=? n)%nat && (n <=? 57)%nat) || ((65 <=? n)%nat && (n <=? 90)%nat)
  || (n =? 95)%nat || ((97 <=? n)%nat && (n <=? 122)%nat).

Definition only (c : ascii) : ascii → bool := Ascii.eqb c.
Definition except (c : ascii) : ascii → bool := λ x, negb (Ascii.eqb c x).

Arguments space : simpl never.
Arguments word : simpl never.
Arguments only : simpl never.
Arguments except : simpl never.

(** The match of [atoms] at the start of [s], as a backtracking matcher
    finds it: a quantified class takes as many characters as it can and
    gives them back one by one while the rest fails.  The result is the text
    that follows the match. *)
Fixpoint matchHere (atoms : list Atom) (toEnd : bool) (s : list ascii)
  {struct atoms} : option (list ascii) :=
  match atoms with
  | [] => if toEnd then (if s is [] then Some [] else None) else Some s
  | a :: rest =>
      match quantifier a with
      | Once =>
          match s with
          | c :: s' => if class a c then matchHere rest toEnd s' else None
          | [] => None
          end
      | Optional =>
          match s with
          | c :: s' =>
              if class a c
              then match matchHere rest toEnd s' with
                   | Some r => Some r
                   | None => matchHere rest toEnd s
                   end
              else matchHere rest toEnd s
          | [] => matchHere rest toEnd s
          end
      | Star =>
          (fix star (s : list ascii) : option (list ascii) :=
             match s with
             | c :: s' =>
                 if class a c
                 then match star s' with
                      | Some r => Some r
                      | None => matchHere rest toEnd s
                      end
                 else matchHere rest toEnd s
             | [] => matchHere rest toEnd s
             end) s
      end
  end.

(** [s.match(/^.../)], read as a condition. *)
Definition test (p : t) (s : list ascii) : bool :=
  bool_decide (is_Some (matchHere (atoms p) (toEnd p) s)).

(** [s.split(p)] from a position on: [skip] characters of a separator are
    still to be passed over, [piece] is the part collected since the last
    separator.  A separator is looked for at every position; an empty match
    where the piece starts is passed over. *)
Fixpoint splitLoop (p : t) (skip : nat) (piece s : list ascii)
  : list (list ascii) :=
  match s with
  | [] => [piece]
  | c :: s' =>
      match skip with
      | S k => splitLoop p k piece s'
      | O =>
          match matchHere (atoms p) (toEnd p) s with
          | Some rest =>
              match length s - length rest with
              | S k => piece :: splitLoop p k [] s'
              | O =>
                  if piece is [] then splitLoop p 0 [c] s'
                  else piece :: splitLoop p 0 [c] s'
              end
          | None => splitLoop p 0 (piece ++ [c]) s'
          end
      end
  end.

(** [s.split(p)] *)
Definition split (p : t) (s : list ascii) : list (list ascii) :=
  match s with
  | [] => if test p [] then [] else [[]]
  | _ => splitLoop p 0 [] s
  end.

End Pattern.

(** [s.substring(start, end)]: both positions are clamped to the text and
    swapped when the first is the larger. *)
Definition substring (start finish : Z) (s : list ascii) : list ascii :=
  let len := Z.of_nat (length s) in
  let a := Z.min (Z.max start 0) len in
  let b := Z.min (Z.max finish 0) len in
  take (Z.to_nat (Z.max a b) - Z.to_nat (Z.min a b))
    (drop (Z.to_nat (Z.min a b)) s).

(** [s.substring(start)] *)
Definition substringFrom (start : Z) (s : list ascii) : list ascii :=
  substring start (Z.of_nat (length s)) s.


(** ** The code wizard *)

Module CodeWizard.

Import Pattern WizardQueue.

(** [/>\s*</] *)
Definition boundary : Pattern.t :=
  {| atoms := [atom (only ">") Once; atom space Star; atom (only "<") Once];
     toEnd := false |}.

(** [/^\/\w/] *)
Definition closing : Pattern.t :=
  {| atoms := [atom (only "/") Once; atom word Once]; toEnd := false |}.

(** [/^<?\w[^>]*[^/]$/] *)
Definition opening : Pattern.t :=
  {| atoms := [atom (only "<") Optional; atom word Once;
               atom (except ">") Star; atom (except "/") Once];
     toEnd := true |}.

(** The body of the [forEach] of [formatXml], on the pair of [formatted]
    and [indent]. *)
Definition formatNode (tab : list ascii)
  (acc : list ascii * list ascii) (node : list ascii)
  : list ascii * list ascii :=
  let '(formatted, indent) := acc in
  let indent :=
    if test closing node
    then substringFrom (Z.of_nat (length tab)) indent else indent in
  let formatted :=
    formatted ++ indent ++ "<"%char :: node ++ [">"; "013"; "010"]%char in
  let indent := if test opening node then indent ++ tab else indent in
  (formatted, indent).

(** [formatXml(xml, tab = '\t')] on the characters of [xml]. *)
Definition format (xml : list ascii) (tab : option (list ascii))
  : list ascii :=
  let tab := default ["009"%char] tab in
  let formatted := fst (foldl (formatNode tab) ([], []) (split boundary xml)) in
  substring 1 (Z.of_nat (length formatted) - 3) formatted.

(** [formatXml(xml, tab)] *)
Definition formatXml (xml : string) (tab : option string) : string :=
  string_of_list_ascii
    (format (list_ascii_of_string xml) (list_ascii_of_string <$> tab)).

(** What the wizard dispatches: an edit event with its edit, or the event
    that closes the wizard with the request it carries. *)
Inductive Dispatched : Type :=
| EditDispatched (edit : Edit)
| CloseWizardDispatched (wizard : option WizardRequest).

(** The fields of [CodeWizard]: the request, the text in the editor when
    there is one (the editor is rendered only with a request), and the
    events dispatched so far. *)
Record CodeWizard : Type :=
  { wizard : option WizardRequest;
    editor : option string;
    dispatched : list Dispatched }.

Definition set_editor (v : option string) (cw : CodeWizard) : CodeWizard :=
  {| wizard := wizard cw; editor := v; dispatched := dispatched cw |}.

(** [this.dispatchEvent(event)] *)
Definition dispatchEvent (event : Dispatched) : M CodeWizard unit :=
  modify (λ cw, {| wizard := wizard cw;
                   editor := editor cw;
                   dispatched := dispatched cw ++ [event] |}).

Section Page.

(** The document as the wizard reads it: [node.parentElement],
    [node.nextSibling], and the document element of
    [new DOMParser().parseFromString(text, 'application/xml')]. *)
Variable parentElement : Node → option Node.
Variable nextSibling : Node → option Node.
Variable parseFromString : string → Node.

(** [codeEdits(oldElement, newElementText)] *)
Definition codeEdits (oldElement : Node) (newElementText : string)
  : list Edit :=
  match parentElement oldElement with
  | None => []
  | Some parent =>
      [Remove oldElement;
       Insert parent (parseFromString newElementText) (nextSibling oldElement)]
  end.

(** [get value()] *)
Definition value (cw : CodeWizard) : string := default "" (editor cw).

(** [set value(val)] *)
Definition set_value (val : string) : M CodeWizard unit :=
  modify (λ cw, if editor cw is Some _ then set_editor (Some val) cw else cw).

(** [get element()] *)
Definition element (cw : CodeWizard) : option Node :=
  match wizard cw with
  | None => None
  | Some (CreateWizardRequest parent _ _) => Some parent
  | Some (EditWizardRequest element _) => Some element
  end.

(** [save(element)]; the caller passes [this.element!], which may be
    [null].  Reading a property of [null] throws. *)
Definition save (element : option Node) : M CodeWizard unit :=
  text ← (e ← gets editor ; if e is Some text then mret text else throw) ;
  if negb (truthy text) then mret tt
  else
    edits ← (if element is Some oldElement
             then mret (codeEdits oldElement text) else throw) ;
    if edits is [] then mret tt
    else dispatchEvent (EditDispatched (Compound edits)).

(** [onClosed(ae)], for the [action] of [ae.detail] *)
Definition onClosed (action : string) : M CodeWizard unit :=
  (if String.eqb action "save"
   then el ← gets element ; save el else mret tt) ;;
  w ← gets wizard ;
  dispatchEvent (CloseWizardDispatched w).

End Page.

End CodeWizard.

(** ** The layout of a formatted text *)

Module Layout.
Import Pattern CodeWizard.

(** [s] without the white space it starts with. *)
Fixpoint pastSpaces (s : list ascii) : list ascii :=
  match s with
  | c :: s' => if space c then pastSpaces s' else s
  | [] => []
  end.

(** A boundary is found somewhere in [s]. *)
Fixpoint hasBoundary (s : list ascii) : bool :=
  bool_decide (is_Some (matchHere (atoms boundary) false s))
  || match s with
     | _ :: s' => hasBoundary s'
     | [] => false
     end.

(** The nodes [nodes] after a first node [first], each behind [>], a gap
    and [<]. *)
Fixpoint joined (first : list ascii)
  (rest : list (list ascii * list ascii)) : list ascii :=
  match rest with
  | [] => first
  | (gap, node) :: rest' => first ++ ">"%char :: gap ++ "<"%char :: joined node rest'
  end.

(** The depth at which each of [nodes] is printed, from depth [d] on: a
    closing tag goes one level up, unless it is at the margin already, and
    what follows an opening tag goes one level down. *)
Fixpoint levels (d : nat) (nodes : list (list ascii)) : list nat :=
  match nodes with
  | [] => []
  | node :: nodes' =>
      let d1 := if test closing node then pred d else d in
      d1 :: levels (if test opening node then S d1 else d1) nodes'
  end.

(** A line break and [tab] as many times as the level says. *)
Definition lineBreak (tab : list ascii) (level : nat) : list ascii :=
  ["013"; "010"]%char ++ concat (replicate level tab).

(** The nodes one to a line, each indented to its level; the first line
    starts at the margin. *)
Definition layout (tab : list ascii) (nodes : list (list ascii)) : list ascii :=
  match nodes with
  | [] => []
  | first :: nodes' =>
      joined first
        (zip (lineBreak tab <$> levels (if test opening first then 1 else 0) nodes')
             nodes')
  end.

(** A tag name and what follows it up to a last character: a word
    character, characters other than [>], and a character other than [/]. *)
Definition named (s : list ascii) : Prop :=
  ∃ c mid l, s = c :: mid ++ [l] ∧ word c = true ∧
    Forall (λ x, x ≠ ">"%char) mid ∧ l ≠ "/"%char.

(** White space only. *)
Definition blank (s : list ascii) : Prop := Forall (λ c, space c = true) s.

(** No boundary starts within [t] when [>] follows it, and when nothing
    follows it. *)
Definition free (t : list ascii) : Prop :=
  ∀ j v, j < length t →
    matchHere (atoms boundary) false (drop j t ++ ">"%char :: v) = None.

Definition freeToEnd (t : list ascii) : Prop :=
  ∀ j, j < length t → matchHere (atoms boundary) false (drop j t) = None.

(** [first] and the nodes of [rest] are what [split] makes of
    [joined first rest]: the gaps are white space and no boundary starts
    within a node. *)
Fixpoint wellJoined (first : list ascii)
  (rest : list (list ascii * list ascii)) : Prop :=
  match rest with
  | [] => freeToEnd first
  | (gap, node) :: rest' => free first ∧ blank gap ∧ wellJoined node rest'
  end.

End Layout.

(** ** More of the sample page *)

Module Demo.

(** An engine that applies every edit and returns it as its own inverse,
    on a page without nodes. *)
Definition accept (e : Edit) : M unit Edit := mret e.

Definition blankPage : @OpenSCD unit nat string := initial tt [].

(** An editor plugin that needs a document. *)
Definition needsDoc : Plugin :=
  {| name := "Single Line Diagram";
     translations := Some [("de"%string, "Einphasenersatzschaltbild"%string)];
     src := "data:text/javascript,TestEditorPlugin2";
     icon := "edit";
     requireDoc := Some true;
     active := Some true |}.

(** The sample page with the editor plugins [needsDoc] and
    [Sample.editorPlugin1] loaded. *)
Definition twoEditors : @OpenSCD EditEngine.Dom nat string :=
  Sample.go
    [Assign_plugins [(Editor, [needsDoc; Sample.editorPlugin1])];
     Settle 0 (Some "TestEditorPlugin2"%string);
     Settle 1 (Some "TestPlugin1"%string)] Sample.page.

(** A page on which the tag of [Sample.menuPlugin1] is a defined custom
    element before the element has loaded anything. *)
Definition definedBefore : @OpenSCD EditEngine.Dom nat string :=
  initial Sample.tree
    [("oscd-pdata:text/javascript,TestPlugin1"%string, "TestPlugin1"%string)].

(** The names of a [docs] object as the finite map lists them. *)
Definition keys (m : gmap string (option nat)) : list string :=
  (map_to_list m).*1.

(** An element with two editable documents and a text file, the first
    document being the current one.  A document is named by its document
    node. *)
Definition threeFiles : @OpenSCD EditEngine.Dom (option nat) string :=
  run EditEngine.apply Sample.hash Sample.locate
    [Dispatch_open "notes.txt" (Some 30);
     Dispatch_open "b.SCD" (Some 20);
     Dispatch_open "a.scd" (Some 10)] (initial Sample.tree []).

(** The sample tree as the code wizard reads it: the parent element of a
    node (the root element has none), its next sibling (no element of the
    tree has one), and a parser that puts every text into node 9. *)
Definition parentElement (n : nat) : option nat :=
  match n with
  | 2 => Some 1
  | 3 => Some 2
  | _ => None
  end.

Definition nextSibling (n : nat) : option nat := None.

Definition parseFromString (text : string) : nat := 9.

(** The code wizard open on node 3, with a text in its editor. *)
Definition wizardOnChild : CodeWizard.CodeWizard :=
  {| CodeWizard.wizard := Some (WizardQueue.EditWizardRequest 3 None);
     CodeWizard.editor := Some "<NewChildElement/>"%string;
     CodeWizard.dispatched := [] |}.

End Demo.

(** * Properties *)

(** ** Arrays and strings *)

Lemma splice_take {A} (n : Z) (l : list A) :
  (0 ≤ n)%Z → splice n l = take (Z.to_nat n) l.
Proof.
  intros Hn. unfold splice.
  destruct (Z.ltb_spec n 0) as [?|_]; [lia|].
  destruct (Z.le_gt_cases n (Z.of_nat (length l))) as [Hle|Hgt].
  - by rewrite Z.min_l.
  - rewrite Z.min_r by lia. rewrite Nat2Z.id.
    rewrite !take_ge; [done | lia | lia].
Qed.

Lemma splice_length {A} (n : Z) (l : list A) :
  (0 ≤ n)%Z →
  Z.of_nat (length (splice n l)) = Z.min n (Z.of_nat (length l)).
Proof.
  intros Hn. rewrite splice_take by done. rewrite length_take. lia.
Qed.

Lemma splice_all {A} (l : list A) : splice (Z.of_nat (length l)) l = l.
Proof. rewrite splice_take by lia. rewrite Nat2Z.id. by apply take_ge. Qed.

Lemma index_app_new {A} (l : list A) (x : A) :
  index (l ++ [x]) (Z.of_nat (length l)) = Some x.
Proof.
  unfold index. destruct (Z.leb_spec 0 (Z.of_nat (length l))); [|lia].
  rewrite Nat2Z.id. by apply list_lookup_middle.
Qed.

Lemma index_app_old {A} (l k : list A) (i : Z) :
  (i < Z.of_nat (length l))%Z → index (l ++ k) i = index l i.
Proof.
  intros Hi. unfold index. destruct (0 <=? i)%Z eqn:E; [|done].
  apply lookup_app_l. apply Z.leb_le in E. lia.
Qed.

Lemma index_is_Some {A} (l : list A) (i : Z) :
  (0 ≤ i < Z.of_nat (length l))%Z → is_Some (index l i).
Proof.
  intros [H0 H1]. unfold index. destruct (Z.leb_spec 0 i); [|lia].
  apply lookup_lt_is_Some. lia.
Qed.

Lemma endsWith_unfold (s suffix : string) :
  endsWith s suffix =
  String.eqb s suffix
  || match s with
     | EmptyString => false
     | String _ s' => endsWith s' suffix
     end.
Proof. by destruct s. Qed.

Lemma endsWith_spec (s suffix : string) :
  endsWith s suffix = true ↔ ∃ pre, s = pre +:+ suffix.
Proof.
  induction s as [|c s IH]; rewrite endsWith_unfold.
  - rewrite orb_false_r, String.eqb_eq. split.
    + intros <-. by exists "".
    + intros [[|? ?] H]; simpl in H; [done | discriminate].
  - rewrite orb_true_iff, String.eqb_eq, IH. split.
    + intros [<- | [pre ->]]; [by exists "" | by exists (String c pre)].
    + intros [[|c' pre] H]; simpl in H; [by left |].
      right. exists pre. by injection H.
Qed.

Lemma lower_ascii_idem (c : ascii) : lower_ascii (lower_ascii c) = lower_ascii c.
Proof.
  unfold lower_ascii.
  destruct ((65 <=? nat_of_ascii c)%nat && (nat_of_ascii c <=? 90)%nat) eqn:E.
  - apply andb_true_iff in E as [E1 E2].
    apply Nat.leb_le in E1, E2.
    rewrite nat_ascii_embedding by lia.
    destruct (Nat.leb_spec (nat_of_ascii c + 32) 90); [lia|].
    by rewrite andb_false_r.
  - by rewrite E.
Qed.

Lemma toLowerCase_idem (s : string) : toLowerCase (toLowerCase s) = toLowerCase s.
Proof. induction s; simpl; [done|]. by rewrite lower_ascii_idem, IHs. Qed.

Lemma toLowerCase_app (s t : string) :
  toLowerCase (s +:+ t) = toLowerCase s +:+ toLowerCase t.
Proof. induction s; simpl; [done|]. by rewrite IHs. Qed.

Lemma length_append (a b : string) :
  String.length (a +:+ b) = String.length a + String.length b.
Proof. induction a; simpl; [done|]. by rewrite IHa. Qed.

Lemma app_inj_length (a b c d : string) :
  String.length b = String.length d → a +:+ b = c +:+ d → b = d.
Proof.
  revert c. induction a as [|x a IH]; intros [|y c] Hl H; simpl in *.
  - done.
  - apply (f_equal String.length) in H.
    rewrite ?length_append in H. simpl in H.
    rewrite ?length_append in H. lia.
  - apply (f_equal String.length) in H.
    rewrite ?length_append in H. simpl in H.
    rewrite ?length_append in H. lia.
  - injection H as _ H. by apply (IH c).
Qed.

Lemma toLowerCase_length (s : string) :
  String.length (toLowerCase s) = String.length s.
Proof. induction s; simpl; congruence. Qed.

(** ** Completions *)

Lemma bind_Normal {S A B} (m : M S A) (k : A → M S B) (s s' : S) (a : A) :
  m s = Normal a s' → (m ≫= k) s = k a s'.
Proof. intros H. unfold mbind, M_bind. by rewrite H. Qed.

Lemma bind_Throw {S A B} (m : M S A) (k : A → M S B) (s s' : S) :
  m s = Throw s' → (m ≫= k) s = Throw s'.
Proof. intros H. unfold mbind, M_bind. by rewrite H. Qed.

(** Computations that keep the state related to the one they started in,
    whether they return or throw. *)
Section Preservation.

Context {S : Type} (R : S → S → Prop) `{!PreOrder R}.

Local Abbreviation preserves := (preserves R).

Lemma preserves_ret {A} (a : A) : preserves (mret a).
Proof. intros s. simpl. reflexivity. Qed.

Lemma preserves_gets {A} (f : S → A) : preserves (gets f).
Proof. intros s. simpl. reflexivity. Qed.

Lemma preserves_throw {A} : preserves (@throw S A).
Proof. intros s. simpl. reflexivity. Qed.

Lemma preserves_modify (f : S → S) : (∀ s, R s (f s)) → preserves (modify f).
Proof. intros H s. apply H. Qed.

Lemma preserves_bind {A B} (m : M S A) (k : A → M S B) :
  preserves m → (∀ a, preserves (k a)) → preserves (m ≫= k).
Proof.
  intros Hm Hk s. unfold mbind, M_bind. specialize (Hm s).
  destruct (m s) as [a s'|s']; simpl in *; [|done].
  etrans; [exact Hm | apply Hk].
Qed.

Lemma preserves_forEach {A} (f : A → M S unit) (xs : list A) :
  (∀ x, preserves (f x)) → preserves (forEach f xs).
Proof.
  intros Hf. induction xs as [|x xs IH]; simpl.
  - apply preserves_ret.
  - apply preserves_bind; [apply Hf | intros _; apply IH].
Qed.

End Preservation.

(** Splits a computation built from [≫=], [forEach] and conditionals and
    leaves the updates to [solve_update]. *)
Ltac preserves_by solve_update :=
  repeat first
    [ solve_update
    | apply preserves_ret; apply _
    | apply preserves_gets; apply _
    | apply preserves_throw; apply _
    | apply preserves_bind; [apply _ .. | | intros ?]
    | apply preserves_forEach; [apply _ .. | intros ?]
    | apply preserves_modify; [apply _ .. | intros ?; solve_update]
    | match goal with
      | |- preserves _ (match ?x with _ => _ end) => destruct x
      end ].

(** ** The edit history *)

Section History.

Context {Dom XMLDocument PluginModule : Type}.
Context `{!Exported PluginModule}.
Variable handleEdit : Edit → M Dom Edit.
Variable cyrb64 : string → string.
Variable resolveURL : string → option string.

Local Abbreviation World := (@OpenSCD Dom XMLDocument PluginModule).
Local Abbreviation sameLog := (@sameLog Dom XMLDocument PluginModule).
Implicit Types w : World.

Lemma handleEditEvent_returns w (e inverse : Edit) (d' : Dom) :
  handleEdit e (dom w) = Normal inverse d' →
  handleEditEvent handleEdit (newEditEventV1 e) w =
  Normal tt
    (set_editCount (editCount w + 1)
       (set_history (splice (editCount w) (history w) ++ [LogEntry.mk inverse e])
          (set_dom d' w))).
Proof.
  intros H. destruct w. unfold handleEditEvent, mbind, M_bind, modify, onDom.
  simpl in *. by rewrite H.
Qed.

Lemma handleEditEvent_throws w (e : Edit) (d' : Dom) :
  handleEdit e (dom w) = Throw d' →
  handleEditEvent handleEdit (newEditEventV1 e) w =
  Throw (set_history (splice (editCount w) (history w)) (set_dom d' w)).
Proof.
  intros H. destruct w. unfold handleEditEvent, mbind, M_bind, modify, onDom.
  simpl in *. by rewrite H.
Qed.

Lemma undoStep_returns w (e : LogEntry.t) (x : Edit) (d' : Dom) :
  index (history w) (last w) = Some e →
  handleEdit (LogEntry.undo e) (dom w) = Normal x d' →
  undoStep handleEdit w =
  Normal tt (set_editCount (editCount w - 1) (set_dom d' w)).
Proof.
  intros Hi H. destruct w.
  unfold undoStep, entryAt, mbind, M_bind, modify, onDom, gets.
  simpl in *. rewrite Hi. simpl. by rewrite H.
Qed.

Lemma undoStep_throws w (e : LogEntry.t) (d' : Dom) :
  index (history w) (last w) = Some e →
  handleEdit (LogEntry.undo e) (dom w) = Throw d' →
  undoStep handleEdit w = Throw (set_dom d' w).
Proof.
  intros Hi H. destruct w.
  unfold undoStep, entryAt, mbind, M_bind, modify, onDom, gets.
  simpl in *. rewrite Hi. simpl. by rewrite H.
Qed.

Lemma undoStep_undefined w :
  index (history w) (last w) = None → undoStep handleEdit w = Throw w.
Proof.
  intros Hi. unfold undoStep, entryAt, mbind, M_bind, gets. by rewrite Hi.
Qed.

Lemma redoStep_returns w (e : LogEntry.t) (x : Edit) (d' : Dom) :
  index (history w) (editCount w) = Some e →
  handleEdit (LogEntry.redo e) (dom w) = Normal x d' →
  redoStep handleEdit w =
  Normal tt (set_editCount (editCount w + 1) (set_dom d' w)).
Proof.
  intros Hi H. destruct w.
  unfold redoStep, entryAt, mbind, M_bind, modify, onDom, gets.
  simpl in *. rewrite Hi. simpl. by rewrite H.
Qed.

Lemma redoStep_throws w (e : LogEntry.t) (d' : Dom) :
  index (history w) (editCount w) = Some e →
  handleEdit (LogEntry.redo e) (dom w) = Throw d' →
  redoStep handleEdit w = Throw (set_dom d' w).
Proof.
  intros Hi H. destruct w.
  unfold redoStep, entryAt, mbind, M_bind, modify, onDom, gets.
  simpl in *. rewrite Hi. simpl. by rewrite H.
Qed.

Lemma redoStep_undefined w :
  index (history w) (editCount w) = None → redoStep handleEdit w = Throw w.
Proof.
  intros Hi. unfold redoStep, entryAt, mbind, M_bind, gets. by rewrite Hi.
Qed.

(** The body of [undo] as the source has it: the guard, one step, and the
    recursive call for [n > 1]. *)
Lemma undo_unfold (n : Z) w :
  undo handleEdit n w =
  if negb (canUndo w) || (n <? 1)%Z then Normal tt w
  else (undoStep handleEdit ;;
        if (1 <? n)%Z then undo handleEdit (n - 1) else mret tt) w.
Proof.
  unfold undo. destruct (Z.to_nat n) as [|k] eqn:Ek; simpl.
  - unfold mbind at 1, M_bind at 1, gets at 1.
    destruct (negb (canUndo w) || (n <? 1)%Z) eqn:E; [done|].
    apply orb_false_iff in E as [_ E]. apply Z.ltb_ge in E. lia.
  - unfold mbind at 1, M_bind at 1, gets at 1.
    destruct (negb (canUndo w) || (n <? 1)%Z); [done|].
    replace (Z.to_nat (n - 1)) with k by lia. done.
Qed.

Lemma redo_unfold (n : Z) w :
  redo handleEdit n w =
  if negb (canRedo w) || (n <? 1)%Z then Normal tt w
  else (redoStep handleEdit ;;
        if (1 <? n)%Z then redo handleEdit (n - 1) else mret tt) w.
Proof.
  unfold redo. destruct (Z.to_nat n) as [|k] eqn:Ek; simpl.
  - unfold mbind at 1, M_bind at 1, gets at 1.
    destruct (negb (canRedo w) || (n <? 1)%Z) eqn:E; [done|].
    apply orb_false_iff in E as [_ E]. apply Z.ltb_ge in E. lia.
  - unfold mbind at 1, M_bind at 1, gets at 1.
    destruct (negb (canRedo w) || (n <? 1)%Z); [done|].
    replace (Z.to_nat (n - 1)) with k by lia. done.
Qed.

(** A commit whose edit the engine refuses has cut the log at the cursor
    all the same: the entries that could be redone are gone, nothing is
    recorded and the cursor stays. *)
Theorem failed_commit_discards_redo_branch w (e : Edit) (d' : Dom) :
  (0 ≤ editCount w)%Z →
  handleEdit e (dom w) = Throw d' →
  ∃ w', handleEditEvent handleEdit (newEditEventV1 e) w = Throw w' ∧
    history w' = take (Z.to_nat (editCount w)) (history w) ∧
    editCount w' = editCount w ∧
    dom w' = d'.
Proof.
  intros Hn H. eexists. split; [by apply handleEditEvent_throws|].
  destruct w; simpl in *. by rewrite splice_take.
Qed.

(** The fields of the state after a commit whose edit the engine applies. *)
Lemma commit_fields w (e inverse : Edit) (d' : Dom) :
  (0 ≤ editCount w)%Z →
  handleEdit e (dom w) = Normal inverse d' →
  ∃ w', handleEditEvent handleEdit (newEditEventV1 e) w = Normal tt w' ∧
    history w' =
      take (Z.to_nat (editCount w)) (history w) ++ [LogEntry.mk inverse e] ∧
    editCount w' = (editCount w + 1)%Z ∧
    dom w' = d'.
Proof.
  intros Hn H. eexists. split; [by apply handleEditEvent_returns|].
  destruct w; simpl in *. by rewrite splice_take.
Qed.

Lemma undo_noop (n : Z) w :
  canUndo w = false ∨ (n < 1)%Z → undo handleEdit n w = Normal tt w.
Proof.
  intros H. rewrite undo_unfold.
  destruct H as [-> | H]; [done|].
  apply Z.ltb_lt in H. rewrite H. by rewrite orb_true_r.
Qed.

Lemma redo_noop (n : Z) w :
  canRedo w = false ∨ (n < 1)%Z → redo handleEdit n w = Normal tt w.
Proof.
  intros H. rewrite redo_unfold.
  destruct H as [-> | H]; [done|].
  apply Z.ltb_lt in H. rewrite H. by rewrite orb_true_r.
Qed.

(** One entry undone, whatever [n >= 1] was asked for, when the cursor
    ends at the start of the log. *)
Lemma undo_fields w (e : LogEntry.t) (x : Edit) (d' : Dom) :
  canUndo w = true →
  index (history w) (editCount w - 1) = Some e →
  handleEdit (LogEntry.undo e) (dom w) = Normal x d' →
  undo handleEdit 1 w =
  Normal tt (set_editCount (editCount w - 1) (set_dom d' w)).
Proof.
  intros Hc Hi H. rewrite undo_unfold, Hc. simpl.
  erewrite bind_Normal; [done|]. by eapply undoStep_returns.
Qed.

Lemma redo_fields w (e : LogEntry.t) (x : Edit) (d' : Dom) :
  canRedo w = true →
  index (history w) (editCount w) = Some e →
  handleEdit (LogEntry.redo e) (dom w) = Normal x d' →
  redo handleEdit 1 w =
  Normal tt (set_editCount (editCount w + 1) (set_dom d' w)).
Proof.
  intros Hc Hi H. rewrite redo_unfold, Hc. simpl.
  erewrite bind_Normal; [done|]. by eapply redoStep_returns.
Qed.

(** [redo(n)] for any [n >= 1] when exactly one entry lies after the
    cursor: that entry is replayed and the recursion stops at the end of
    the log. *)
Lemma redo_last (n : Z) w (e : LogEntry.t) (x : Edit) (d' : Dom) :
  (1 ≤ n)%Z →
  (editCount w + 1)%Z = Z.of_nat (length (history w)) →
  index (history w) (editCount w) = Some e →
  handleEdit (LogEntry.redo e) (dom w) = Normal x d' →
  redo handleEdit n w =
  Normal tt (set_editCount (editCount w + 1) (set_dom d' w)).
Proof.
  intros Hn Hlen Hi H. rewrite redo_unfold.
  assert (canRedo w = true) as ->.
  { unfold canRedo. apply Z.ltb_lt. lia. }
  assert ((n <? 1)%Z = false) as -> by (apply Z.ltb_ge; lia). simpl.
  erewrite bind_Normal; [|by eapply redoStep_returns].
  destruct (1 <? n)%Z; [|done].
  apply redo_noop. left. unfold canRedo. apply Z.ltb_ge.
  destruct w; simpl in *. lia.
Qed.

Local Abbreviation run' := (run handleEdit cyrb64 resolveURL).

Lemma take_snoc_keep {A} (l : list A) (x : A) (n : Z) :
  (0 ≤ n ≤ Z.of_nat (length l))%Z →
  take (Z.to_nat (n + 1)) (take (Z.to_nat n) l ++ [x]) =
  take (Z.to_nat n) l ++ [x].
Proof.
  intros Hn. apply take_ge. rewrite length_app, length_take. simpl. lia.
Qed.

Lemma take_snoc_drop {A} (l : list A) (x y : A) (n : Z) :
  (0 ≤ n ≤ Z.of_nat (length l))%Z →
  take (Z.to_nat (n + 1)) ((take (Z.to_nat n) l ++ [x]) ++ [y]) =
  take (Z.to_nat n) l ++ [x].
Proof.
  intros Hn. rewrite take_app_le.
  - by apply take_snoc_keep.
  - rewrite length_app, length_take. simpl. lia.
Qed.

(** C1. Committing an edit first cuts the log at the cursor, then appends
    the pair of the inverse and the edit and moves the cursor one up.  So
    after commit(A), commit(B), undo(), commit(C) the log ends in the
    entries of A and C: nothing is left to redo, and after an undo a redo
    of any count replays C and nothing else; B's entry is gone. *)
Theorem commit_discards_redo_branch :
  (∀ w (e inverse : Edit) (d' : Dom),
     (0 ≤ editCount w)%Z →
     handleEdit e (dom w) = Normal inverse d' →
     ∃ w', handleEditEvent handleEdit (newEditEventV1 e) w = Normal tt w' ∧
       history w' =
         take (Z.to_nat (editCount w)) (history w) ++ [LogEntry.mk inverse e] ∧
       editCount w' = (editCount w + 1)%Z ∧
       dom w' = d') ∧
  (∀ w (A B C iA iB iC x : Edit) (d1 d2 d3 d4 : Dom),
     cursorInRange w →
     handleEdit A (dom w) = Normal iA d1 →
     handleEdit B d1 = Normal iB d2 →
     handleEdit iB d2 = Normal x d3 →
     handleEdit C d3 = Normal iC d4 →
     let w4 :=
       run' [Dispatch_edit (newEditEventV1 A); Dispatch_edit (newEditEventV1 B);
             Call_undo 1; Dispatch_edit (newEditEventV1 C)] w in
     history w4 =
       take (Z.to_nat (editCount w)) (history w) ++
         [LogEntry.mk iA A; LogEntry.mk iC C] ∧
     editCount w4 = (editCount w + 2)%Z ∧
     dom w4 = d4 ∧
     (∀ k, redo handleEdit k w4 = Normal tt w4) ∧
     (∀ k (y z : Edit) (d5 d6 : Dom),
        (1 ≤ k)%Z →
        handleEdit iC d4 = Normal y d5 →
        handleEdit C d5 = Normal z d6 →
        ∃ w6, (undo handleEdit 1 ;; redo handleEdit k) w4 = Normal tt w6 ∧
          dom w6 = d6 ∧
          history w6 = history w4 ∧
          editCount w6 = editCount w4)).
Proof.
  split; [apply commit_fields|].
  intros w A B C iA iB iC x d1 d2 d3 d4 [Hn0 Hn] HA HB HiB HC.
  destruct (commit_fields w A iA d1 Hn0 HA) as (w1 & R1 & Hh1 & Hc1 & Hd1).
  assert (handleEdit B (dom w1) = Normal iB d2) as HB' by by rewrite Hd1.
  destruct (commit_fields w1 B iB d2 ltac:(lia) HB')
    as (w2 & R2 & Hh2 & Hc2 & Hd2).
  rewrite Hc1, Hh1, take_snoc_keep in Hh2 by lia.
  set (w3 := set_editCount (editCount w2 - 1) (set_dom d3 w2)).
  assert (undo handleEdit 1 w2 = Normal tt w3) as R3.
  { eapply (undo_fields w2 (LogEntry.mk iB B)).
    - unfold canUndo, last. apply Z.leb_le. lia.
    - rewrite Hh2. replace (editCount w2 - 1)%Z
        with (Z.of_nat (length (take (Z.to_nat (editCount w)) (history w)
                                  ++ [LogEntry.mk iA A]))).
      + apply index_app_new.
      + rewrite length_app, length_take. simpl. lia.
    - simpl. by rewrite Hd2. }
  assert (history w3 = history w2 ∧ editCount w3 = (editCount w + 1)%Z
          ∧ dom w3 = d3) as (Hh3 & Hc3 & Hd3).
  { subst w3. destruct w2; simpl in *. repeat split; lia. }
  assert (handleEdit C (dom w3) = Normal iC d4) as HC' by by rewrite Hd3.
  destruct (commit_fields w3 C iC d4 ltac:(lia) HC')
    as (w4 & R4 & Hh4 & Hc4 & Hd4).
  rewrite Hc3, Hh3, Hh2, take_snoc_drop in Hh4 by lia.
  assert (run' [Dispatch_edit (newEditEventV1 A);
                Dispatch_edit (newEditEventV1 B);
                Call_undo 1; Dispatch_edit (newEditEventV1 C)] w = w4) as ->.
  { unfold run, step. simpl. by rewrite R1; simpl; rewrite R2; simpl;
      rewrite R3; simpl; rewrite R4. }
  assert (Z.of_nat (length (history w4)) = editCount w4) as Hlen.
  { rewrite Hh4, !length_app, length_take. simpl. lia. }
  split; [by rewrite Hh4, <- app_assoc|].
  split; [lia|]. split; [done|]. split.
  - intros k. apply redo_noop. left. unfold canRedo. apply Z.ltb_ge. lia.
  - intros k y z d5 d6 Hk Hy Hz.
    set (w5 := set_editCount (editCount w4 - 1) (set_dom d5 w4)).
    assert (undo handleEdit 1 w4 = Normal tt w5) as R5.
    { eapply (undo_fields w4 (LogEntry.mk iC C)).
      - unfold canUndo, last. apply Z.leb_le. lia.
      - rewrite Hh4. replace (editCount w4 - 1)%Z
          with (Z.of_nat (length (take (Z.to_nat (editCount w)) (history w)
                                    ++ [LogEntry.mk iA A]))).
        + apply index_app_new.
        + rewrite length_app, length_take. simpl. lia.
      - simpl. by rewrite Hd4. }
    assert (history w5 = history w4 ∧ editCount w5 = (editCount w4 - 1)%Z
            ∧ dom w5 = d5) as (Hh5 & Hc5 & Hd5).
    { subst w5. destruct w4; simpl in *. done. }
    exists (set_editCount (editCount w5 + 1) (set_dom d6 w5)).
    split.
    + erewrite bind_Normal; [|exact R5].
      eapply (redo_last k w5 (LogEntry.mk iC C)); [done|..].
      * rewrite Hh5, Hc5. lia.
      * rewrite Hh5, Hc5, Hh4. replace (editCount w4 - 1)%Z
          with (Z.of_nat (length (take (Z.to_nat (editCount w)) (history w)
                                    ++ [LogEntry.mk iA A]))).
        -- apply index_app_new.
        -- rewrite length_app, length_take. simpl. lia.
      * simpl. by rewrite Hd5.
    + destruct w5; simpl in *. repeat split; [done | lia].
Qed.

(** C6. [undo(n)] with nothing to undo or [n < 1], and [redo(n)] with
    nothing to redo or [n < 1], return normally and leave the element as it
    was: the document, the log and the cursor are those of before. *)
Theorem undo_redo_at_boundary (n : Z) w :
  (canUndo w = false ∨ (n < 1)%Z → undo handleEdit n w = Normal tt w) ∧
  (canRedo w = false ∨ (n < 1)%Z → redo handleEdit n w = Normal tt w).
Proof. split; [apply undo_noop | apply redo_noop]. Qed.

(** C8. With something to undo, [undo(1)] applies the [undo] edit of the
    entry below the cursor, drops the inverse the engine returns and moves
    the cursor one down; with something to redo, [redo(1)] applies the
    [redo] edit of the entry at the cursor and moves the cursor one up.
    Neither changes the log. *)
Theorem undo_redo_single_step w :
  cursorInRange w →
  (canUndo w = true →
   ∃ e, index (history w) (editCount w - 1) = Some e ∧
     ∀ (x : Edit) (d' : Dom),
       handleEdit (LogEntry.undo e) (dom w) = Normal x d' →
       let w' := set_editCount (editCount w - 1) (set_dom d' w) in
       undo handleEdit 1 w = Normal tt w' ∧
       history w' = history w ∧
       editCount w' = (editCount w - 1)%Z ∧
       dom w' = d') ∧
  (canRedo w = true →
   ∃ e, index (history w) (editCount w) = Some e ∧
     ∀ (x : Edit) (d' : Dom),
       handleEdit (LogEntry.redo e) (dom w) = Normal x d' →
       let w' := set_editCount (editCount w + 1) (set_dom d' w) in
       redo handleEdit 1 w = Normal tt w' ∧
       history w' = history w ∧
       editCount w' = (editCount w + 1)%Z ∧
       dom w' = d').
Proof.
  intros [H0 Hlen]. split; intros Hc.
  - unfold canUndo, last in Hc. apply Z.leb_le in Hc.
    destruct (index_is_Some (history w) (editCount w - 1)) as [e He]; [lia|].
    exists e. split; [done|]. intros x d' H. split.
    + eapply undo_fields; [|done..]. unfold canUndo, last. by apply Z.leb_le.
    + by destruct w.
  - unfold canRedo in Hc. apply Z.ltb_lt in Hc.
    destruct (index_is_Some (history w) (editCount w)) as [e He]; [lia|].
    exists e. split; [done|]. intros x d' H. split.
    + eapply redo_fields; [|done..]. unfold canRedo. by apply Z.ltb_lt.
    + by destruct w.
Qed.

#[local] Instance sameLog_preorder : PreOrder sameLog.
Proof.
  split.
  - by intros w.
  - intros w1 w2 w3 [H1 H2] [H3 H4]. split; congruence.
Qed.

Ltac same_log := idtac; match goal with |- sameLog ?w _ => by destruct w end.

Lemma pluginTag_sameLog (uri : string) :
  preserves sameLog (pluginTag (XMLDocument:=XMLDocument)
                       (PluginModule:=PluginModule) (Dom:=Dom) cyrb64 uri).
Proof.
  intros w. unfold pluginTag. destruct (pluginTags w !! uri); simpl.
  - reflexivity.
  - by destruct w.
Qed.

Lemma addLoadedPlugin_sameLog (tagName : string) (kind : PluginKind)
  (plugin : Plugin) :
  preserves sameLog (addLoadedPlugin (Dom:=Dom) (XMLDocument:=XMLDocument)
                       (PluginModule:=PluginModule) tagName kind plugin).
Proof. unfold addLoadedPlugin. preserves_by same_log. Qed.

Lemma set_plugins_sameLog (ps : PartialPluginSet) :
  preserves sameLog (set_plugins (Dom:=Dom) (XMLDocument:=XMLDocument)
                       (PluginModule:=PluginModule) cyrb64 resolveURL ps).
Proof.
  unfold set_plugins, loadPlugin, requestUpdate.
  preserves_by ltac:(first [apply pluginTag_sameLog
                            | apply addLoadedPlugin_sameLog | same_log]).
Qed.

Lemma settle_sameLog (k : nat) (result : option PluginModule) :
  preserves sameLog (settle (Dom:=Dom) (XMLDocument:=XMLDocument) k result).
Proof.
  unfold settle, importThen, customElements_define, requestUpdate.
  preserves_by ltac:(first [apply addLoadedPlugin_sameLog | same_log]).
Qed.

Lemma handleOpenDoc_sameLog (name : string) (doc : XMLDocument) :
  preserves sameLog (handleOpenDoc (Dom:=Dom) (PluginModule:=PluginModule)
                       name doc).
Proof. unfold handleOpenDoc, requestUpdate. preserves_by same_log. Qed.

Lemma handleEditEvent_inRange (event : EditEvent) w :
  cursorInRange w →
  cursorInRange (state_of (handleEditEvent handleEdit event w)).
Proof.
  intros [H0 H1]. destruct event as [e].
  pose proof (splice_length (editCount w) (history w) H0) as Hs.
  change {| detail := e |} with (newEditEventV1 e).
  destruct (handleEdit e (dom w)) as [inverse d'|d'] eqn:E.
  - rewrite (handleEditEvent_returns _ _ _ _ E). unfold cursorInRange.
    destruct w; simpl in *. rewrite length_app. simpl. lia.
  - rewrite (handleEditEvent_throws _ _ _ E). unfold cursorInRange.
    destruct w; simpl in *. lia.
Qed.

Lemma undoLoop_inRange (fuel : nat) (n : Z) w :
  cursorInRange w → cursorInRange (state_of (undoLoop handleEdit fuel n w)).
Proof.
  revert n w. induction fuel as [|fuel IH]; intros n w Hw; simpl;
    unfold mbind at 1, M_bind at 1, gets at 1;
    (destruct (negb (canUndo w) || (n <? 1)%Z) eqn:G; [done|]);
    apply orb_false_iff in G as [G _]; apply negb_false_iff in G;
    unfold canUndo, last in G; apply Z.leb_le in G;
    (destruct (index (history w) (last w)) as [e|] eqn:Hi;
      [|by rewrite (bind_Throw _ _ _ _ (undoStep_undefined _ Hi))]);
    (destruct (handleEdit (LogEntry.undo e) (dom w)) as [x d'|d'] eqn:E;
      [rewrite (bind_Normal _ _ _ _ _ (undoStep_returns _ _ _ _ Hi E))
      |rewrite (bind_Throw _ _ _ _ (undoStep_throws _ _ _ Hi E));
       by destruct w]);
    assert (cursorInRange (set_editCount (editCount w - 1) (set_dom d' w)))
      by (destruct Hw; destruct w; unfold cursorInRange; simpl in *; lia);
    destruct (1 <? n)%Z; auto.
Qed.

Lemma redoLoop_inRange (fuel : nat) (n : Z) w :
  cursorInRange w → cursorInRange (state_of (redoLoop handleEdit fuel n w)).
Proof.
  revert n w. induction fuel as [|fuel IH]; intros n w Hw; simpl;
    unfold mbind at 1, M_bind at 1, gets at 1;
    (destruct (negb (canRedo w) || (n <? 1)%Z) eqn:G; [done|]);
    apply orb_false_iff in G as [G _]; apply negb_false_iff in G;
    unfold canRedo in G; apply Z.ltb_lt in G;
    (destruct (index (history w) (editCount w)) as [e|] eqn:Hi;
      [|by rewrite (bind_Throw _ _ _ _ (redoStep_undefined _ Hi))]);
    (destruct (handleEdit (LogEntry.redo e) (dom w)) as [x d'|d'] eqn:E;
      [rewrite (bind_Normal _ _ _ _ _ (redoStep_returns _ _ _ _ Hi E))
      |rewrite (bind_Throw _ _ _ _ (redoStep_throws _ _ _ Hi E));
       by destruct w]);
    assert (cursorInRange (set_editCount (editCount w + 1) (set_dom d' w)))
      by (destruct Hw; destruct w; unfold cursorInRange; simpl in *; lia);
    destruct (1 <? n)%Z; auto.
Qed.

Lemma sameLog_inRange w w' : sameLog w w' → cursorInRange w → cursorInRange w'.
Proof. intros [Hh Hc]. unfold cursorInRange. by rewrite Hh, Hc. Qed.

Lemma step_inRange (a : Action) w :
  cursorInRange w →
  cursorInRange (step handleEdit cyrb64 resolveURL w a).
Proof.
  intros Hw. unfold step. destruct a; simpl.
  - by apply handleEditEvent_inRange.
  - eapply sameLog_inRange; [apply handleOpenDoc_sameLog | done].
  - by apply undoLoop_inRange.
  - by apply redoLoop_inRange.
  - eapply sameLog_inRange; [apply set_plugins_sameLog | done].
  - eapply sameLog_inRange; [apply settle_sameLog | done].
Qed.

Lemma run_inRange (actions : list Action) w :
  cursorInRange w → cursorInRange (run' actions w).
Proof.
  revert w. induction actions as [|a actions IH]; intros w Hw; [done|].
  apply IH. by apply step_inRange.
Qed.

(** C7. Whatever edits are committed, undone and redone, and whatever
    else happens to the element in between, the cursor stays between 0 and
    the length of the log, [canUndo] says the cursor is above 0, and
    [canRedo] says it is below the length of the log. *)
Theorem cursor_stays_in_log (d : Dom) (registry : list (string * PluginModule))
  (actions : list Action) :
  let w : World := run' actions (initial d registry) in
  cursorInRange w ∧
  canUndo w = bool_decide (0 < editCount w)%Z ∧
  canRedo w = bool_decide (editCount w < Z.of_nat (length (history w)))%Z.
Proof.
  intros w. split; [|split].
  - apply run_inRange. unfold cursorInRange. simpl. lia.
  - unfold canUndo, last.
    destruct (Z.leb_spec 0 (editCount w - 1));
      symmetry; [apply bool_decide_eq_true | apply bool_decide_eq_false]; lia.
  - unfold canRedo.
    destruct (Z.ltb_spec (editCount w) (Z.of_nat (length (history w))));
      symmetry; [apply bool_decide_eq_true | apply bool_decide_eq_false]; lia.
Qed.

End History.

(** *** The history at work on the sample page *)

Lemma commit_discards_redo_branch_witness :
  history
    (Sample.go
       [Dispatch_edit (newEditEventV1 Sample.setText);
        Dispatch_edit (newEditEventV1 Sample.setAttr);
        Call_undo 1;
        Dispatch_edit (newEditEventV1 Sample.move)] Sample.page) =
  [LogEntry.mk (SetTextContent 3 "") Sample.setText;
   LogEntry.mk (Compound [Remove 3; Insert 2 3 None]) Sample.move].
Proof.
  destruct (commit_discards_redo_branch (XMLDocument:=nat)
              (PluginModule:=string) EditEngine.apply Sample.hash
              Sample.locate) as [_ H].
  edestruct (H Sample.page Sample.setText Sample.setAttr Sample.move)
    as (Hh & _); [| reflexivity .. | exact Hh].
  unfold cursorInRange. simpl. lia.
Defined.

Lemma failed_commit_discards_redo_branch_witness :
  let w :=
    Sample.go [Dispatch_edit (newEditEventV1 Sample.setText); Call_undo 1]
      Sample.page in
  canRedo w = true ∧
  canRedo (state_of (handleEditEvent EditEngine.apply
                       (newEditEventV1 (Remove 99)) w)) = false.
Proof.
  intros w. split; [reflexivity|].
  destruct (failed_commit_discards_redo_branch EditEngine.apply w (Remove 99)
              Sample.tree) as (w' & R & Hh & Hc & _);
    [vm_compute; discriminate | reflexivity |].
  rewrite R. unfold canRedo. simpl. rewrite Hh, Hc. reflexivity.
Defined.

Lemma undo_redo_at_boundary_witness :
  undo EditEngine.apply 1 Sample.page = Normal tt Sample.page ∧
  redo EditEngine.apply 1 Sample.page = Normal tt Sample.page.
Proof.
  destruct (undo_redo_at_boundary EditEngine.apply 1 Sample.page) as [Hu Hr].
  split; [apply Hu | apply Hr]; left; reflexivity.
Defined.

Lemma undo_redo_single_step_witness :
  let w1 := Sample.go [Dispatch_edit (newEditEventV1 Sample.setText)]
              Sample.page in
  let w0 := set_editCount 0 (set_dom Sample.tree w1) in
  undo EditEngine.apply 1 w1 = Normal tt w0 ∧
  redo EditEngine.apply 1 w0 = Normal tt w1.
Proof.
  intros w1 w0. split.
  - destruct (undo_redo_single_step EditEngine.apply w1) as [Hu _].
    { vm_compute. split; discriminate. }
    destruct (Hu eq_refl) as (e & He & Hstep).
    vm_compute in He. injection He as <-.
    edestruct Hstep as (R & _); [reflexivity|]. exact R.
  - destruct (undo_redo_single_step EditEngine.apply w0) as [_ Hr].
    { vm_compute. split; discriminate. }
    destruct (Hr eq_refl) as (e & He & Hstep).
    vm_compute in He. injection He as <-.
    edestruct Hstep as (R & _); [reflexivity|]. exact R.
Defined.


(** ** The edit engine: Compound edits *)

Section Compound.

Import EditEngine.

Lemma appliesInOrder_length d edits inverses d' :
  appliesInOrder d edits inverses d' → length inverses = length edits.
Proof. induction 1; simpl; congruence. Qed.

Lemma handleEach_sound (edits : list Edit) :
  ∀ (d d' : Dom) (collected : list Edit) (inverse : Edit),
    handleEach handleEdit edits d collected = Some (d', inverse) →
    ∃ inverses,
      appliesInOrder d edits inverses d' ∧
      inverse = Compound (rev inverses ++ collected).
Proof.
  induction edits as [|e edits IH]; intros d d' collected inverse H; simpl in H.
  - injection H as <- <-. exists []. split; [constructor | done].
  - destruct (handleEdit e d) as [[d1 i]|] eqn:E; [|done].
    destruct (IH _ _ _ _ H) as (inverses & Happ & ->).
    exists (i :: inverses). split; [by econstructor|].
    simpl. by rewrite <- app_assoc.
Qed.

Lemma handleEach_complete d edits inverses d' :
  appliesInOrder d edits inverses d' →
  ∀ collected,
    handleEach handleEdit edits d collected =
    Some (d', Compound (rev inverses ++ collected)).
Proof.
  induction 1 as [d | d d1 d' e i edits inverses E _ IH]; intros collected.
  - done.
  - simpl. rewrite E, IH. simpl. by rewrite <- app_assoc.
Qed.

(** A Compound whose members apply in order is applied, and its inverse is
    the reversed list of theirs. *)
Lemma compound_applies d edits inverses d' :
  appliesInOrder d edits inverses d' →
  handleEdit (Compound edits) d = Some (d', Compound (rev inverses)).
Proof.
  intros H. simpl. rewrite (handleEach_complete _ _ _ _ H []).
  by rewrite app_nil_r.
Qed.

(** A Compound with a member that is rejected in its turn is rejected. *)
Lemma compound_rejected d d1 edits inverses e rest :
  appliesInOrder d edits inverses d1 →
  handleEdit e d1 = None →
  handleEdit (Compound (edits ++ e :: rest)) d = None.
Proof.
  intros H E. simpl. generalize (@nil Edit).
  induction H as [d | d d1 d' e' i edits inverses E' _ IH]; intros collected;
    simpl.
  - by rewrite E.
  - rewrite E'. by apply IH.
Qed.

(** C3. A Compound that is applied has had its members applied in order,
    each to the tree its predecessor left, and the inverse returned is the
    Compound of the members' inverses in reversed order: for two members
    with inverses [i1] and [i2] it is [Compound [i2; i1]], which is the
    list in original order only when the two inverses are equal. *)
Theorem compound_inverse_reversed (d d' : Dom) (edits : list Edit)
  (inverse : Edit) :
  handleEdit (Compound edits) d = Some (d', inverse) →
  ∃ inverses,
    appliesInOrder d edits inverses d' ∧
    length inverses = length edits ∧
    inverse = Compound (rev inverses) ∧
    ∀ i1 i2, inverses = [i1; i2] →
      inverse = Compound [i2; i1] ∧
      (i1 ≠ i2 → inverse ≠ Compound [i1; i2]).
Proof.
  intros H. simpl in H.
  destruct (handleEach_sound _ _ _ _ _ H) as (inverses & Happ & ->).
  rewrite app_nil_r. exists inverses.
  split; [done|]. split; [by eapply appliesInOrder_length|]. split; [done|].
  intros i1 i2 ->. simpl. split; [done|]. intros Hne Heq.
  injection Heq as -> _. done.
Qed.

End Compound.

Lemma compound_inverse_reversed_witness :
  ∃ inverses,
    EditEngine.appliesInOrder Sample.tree [Sample.setText; Sample.setAttr]
      inverses Sample.edited ∧
    inverses =
      [SetTextContent 3 ""; SetAttributes 3 [("a"%string, Some "1"%string)] []] ∧
    EditEngine.handleEdit (Compound [Sample.setText; Sample.setAttr])
      Sample.tree =
    Some (Sample.edited,
          Compound [SetAttributes 3 [("a"%string, Some "1"%string)] [];
                    SetTextContent 3 ""]).
Proof.
  destruct (compound_inverse_reversed Sample.tree Sample.edited
              [Sample.setText; Sample.setAttr]
              (Compound [SetAttributes 3 [("a"%string, Some "1"%string)] [];
                         SetTextContent 3 ""]))
    as (inverses & Happ & _ & Hi & H2).
  { vm_compute. reflexivity. }
  exists inverses. split; [exact Happ|].
  injection Hi as Hi. apply (f_equal (@rev Edit)) in Hi.
  rewrite rev_involutive in Hi. simpl in Hi. subst inverses.
  split; [reflexivity|]. vm_compute. reflexivity.
Defined.

(** ** The wizard request queue *)

Section Wizards.

Import WizardQueue.

Lemma close_enqueue_sub (r : WizardRequest) (workflow : list WizardRequest) :
  subWizard r = true → close r (enqueue r workflow) = workflow.
Proof. intros H. unfold enqueue. by rewrite H. Qed.

(** Requests that are not nested are served in the order they came. *)
Lemma workflow_fifo (rs : list WizardRequest) :
  Forall (λ r, subWizard r = false) rs →
  workflowAfter (Request <$> rs) = rs.
Proof.
  unfold workflowAfter. induction rs as [|r rs IH] using rev_ind; [done|].
  intros H. rewrite Forall_app, Forall_singleton in H. destruct H as [Hrs Hr].
  rewrite fmap_app, foldl_app, IH by done. simpl. unfold enqueue.
  by rewrite Hr.
Qed.

(** C5. In the queue left by any sequence of requests and close signals:
    a request that is not nested goes to the end, a nested one goes to the
    front, becomes active and has the former active request right below
    it; a close signal removes the entry at the front and keeps every other
    entry in its order; the active request is the entry at the front. *)
Theorem workflow_discipline (signals : list Signal) :
  let workflow := workflowAfter signals in
  (∀ r, subWizard r = false →
        workflowAfter (signals ++ [Request r]) = workflow ++ [r]) ∧
  (∀ r, subWizard r = true →
        workflowAfter (signals ++ [Request r]) = r :: workflow ∧
        active (workflowAfter (signals ++ [Request r])) = Some r ∧
        workflowAfter (signals ++ [Request r]) !! 1 = active workflow) ∧
  (∀ r, workflow =
          option_list (active workflow) ++
            workflowAfter (signals ++ [Close r]) ∧
        ∀ i, workflowAfter (signals ++ [Close r]) !! i = workflow !! S i) ∧
  active workflow = workflow !! 0 ∧
  active workflow = head workflow.
Proof.
  simpl. unfold workflowAfter.
  repeat split; intros; rewrite ?foldl_app; simpl; unfold enqueue, close, active.
  - by rewrite H.
  - by rewrite H.
  - by rewrite H.
  - by rewrite H.
  - by destruct (foldl receive [] signals).
  - by rewrite lookup_drop.
  - by destruct (foldl receive [] signals).
Qed.

End Wizards.

Lemma workflow_discipline_witness :
  let x := WizardQueue.EditWizardRequest 1 None in
  let y := WizardQueue.EditWizardRequest 2 (Some true) in
  let z := WizardQueue.CreateWizardRequest 2 "ChildElement" (Some false) in
  WizardQueue.workflowAfter
    [WizardQueue.Request x; WizardQueue.Request z] = [x; z] ∧
  WizardQueue.workflowAfter
    [WizardQueue.Request x; WizardQueue.Request z; WizardQueue.Request y] =
    [y; x; z] ∧
  WizardQueue.active
    (WizardQueue.workflowAfter
       [WizardQueue.Request x; WizardQueue.Request z; WizardQueue.Request y;
        WizardQueue.Close y]) = Some x.
Proof.
  intros x y z.
  destruct (workflow_discipline [WizardQueue.Request x]) as (Hend & _).
  destruct (workflow_discipline [WizardQueue.Request x; WizardQueue.Request z])
    as (_ & Hfront & _).
  destruct (workflow_discipline
              [WizardQueue.Request x; WizardQueue.Request z;
               WizardQueue.Request y]) as (_ & _ & Hclose & _).
  split; [exact (Hend z eq_refl)|]. split; [exact (proj1 (Hfront y eq_refl))|].
  exact (eq_trans (proj2 (Hclose y) 0) eq_refl).
Defined.

(** ** Documents *)

Section Documents.

Context {Dom XMLDocument PluginModule : Type}.

Local Abbreviation World := (@OpenSCD Dom XMLDocument PluginModule).
Implicit Types w : World.

Lemma isEditable_set_docs w (m : gmap string XMLDocument) (name : string) :
  isEditable (set_docs m w) name = isEditable w name.
Proof. by destruct w. Qed.

Lemma endsWith_lower (name ext : string) :
  endsWith (toLowerCase name) ("." +:+ ext) = true → toLowerCase ext = ext.
Proof.
  intros H. apply endsWith_spec in H as [pre H].
  pose proof (f_equal toLowerCase H) as H'.
  rewrite toLowerCase_idem, toLowerCase_app, H in H'.
  symmetry in H'. apply app_inj_length in H'.
  - simpl in H'. by injection H'.
  - by rewrite toLowerCase_length.
Qed.

Lemma isEditable_matches w (name : string) :
  isEditable w name = true →
  ∃ ext, ext ∈ editable w ∧ ext ≠ ""%string ∧ hasExtension name ext.
Proof.
  unfold isEditable. intros H.
  destruct (find _ (editable w)) as [ext|] eqn:F; [|done].
  apply find_some in F as [Hin Hends].
  exists ext. split; [by apply list_elem_of_In|]. split.
  - intros ->. done.
  - unfold hasExtension. by rewrite (endsWith_lower _ _ Hends).
Qed.

Lemma matches_isEditable w (name ext : string) :
  Forall (λ e, e ≠ ""%string ∧ toLowerCase e = e) (editable w) →
  ext ∈ editable w → hasExtension name ext → isEditable w name = true.
Proof.
  intros Hall Hin Hext. unfold isEditable.
  rewrite Forall_forall in Hall.
  destruct (find _ (editable w)) as [ext'|] eqn:F.
  - apply find_some in F as [Hin' _]. apply list_elem_of_In in Hin'.
    destruct (Hall _ Hin') as [Hne _]. unfold truthy.
    apply negb_true_iff. by apply String.eqb_neq.
  - apply list_elem_of_In in Hin as Hin'.
    pose proof (find_none _ _ F _ Hin') as Hf. simpl in Hf.
    destruct (Hall _ Hin) as [_ Hl]. unfold hasExtension in Hext.
    rewrite Hl in Hext. congruence.
Qed.

Lemma isEditable_case (w : World) (name name' : string) :
  toLowerCase name' = toLowerCase name → isEditable w name' = isEditable w name.
Proof. intros H. unfold isEditable. by rewrite H. Qed.

(** C10. An open-document event stores the document under its name in any
    case.  The current document name becomes the new name exactly when
    [isEditable] accepts it, and [isEditable] accepts a name only if it ends
    in a dot and one of the editable extensions, letter case aside; a name
    it does not accept leaves the current name as it was.  (With editable
    extensions that are non-empty and in lower case, as the default ones
    are, every such name is accepted.) *)
Theorem handleOpenDoc_selects_editable w (name : string) (doc : XMLDocument) :
  ∃ w', handleOpenDoc name doc w = Normal tt w' ∧
    docs w' = <[name := doc]> (docs w) ∧
    docs w' !! name = Some doc ∧
    docName w' = (if isEditable w name then name else docName w) ∧
    (docName w' ≠ docName w →
       docName w' = name ∧
       ∃ ext, ext ∈ editable w ∧ hasExtension name ext) ∧
    (isEditable w name = false → docName w' = docName w) ∧
    (∀ name', toLowerCase name' = toLowerCase name →
       isEditable w name' = isEditable w name) ∧
    (Forall (λ e, e ≠ ""%string ∧ toLowerCase e = e) (editable w) →
       (isEditable w name = true ↔
        ∃ ext, ext ∈ editable w ∧ hasExtension name ext)).
Proof.
  assert (∀ name', toLowerCase name' = toLowerCase name →
            isEditable w name' = isEditable w name) as Hcase
    by (intros; by apply isEditable_case).
  assert (Forall (λ e, e ≠ ""%string ∧ toLowerCase e = e) (editable w) →
          (isEditable w name = true ↔
           ∃ ext, ext ∈ editable w ∧ hasExtension name ext)) as Hiff.
  { intros Hall. split.
    - intros E. destruct (isEditable_matches _ _ E) as (ext & ? & _ & ?). eauto.
    - intros (ext & Hin & Hext). by eapply matches_isEditable. }
  pose proof (isEditable_matches w name) as Hmatch.
  unfold handleOpenDoc, requestUpdate, mbind, M_bind, modify, gets, mret, M_ret.
  rewrite isEditable_set_docs.
  destruct (isEditable w name) eqn:E; eexists; (split; [reflexivity|]).
  - destruct (Hmatch eq_refl) as (ext & Hin & _ & Hext).
    destruct w; simpl in *. split; [done|]. split; [apply lookup_insert_eq|].
    split; [done|]. split; [eauto|]. done.
  - destruct w; simpl in *. split; [done|]. split; [apply lookup_insert_eq|].
    done.
Qed.

End Documents.

Lemma handleOpenDoc_selects_editable_witness :
  docName (state_of (handleOpenDoc "Station.SCD" 7 Sample.page)) =
    "Station.SCD"%string ∧
  docName (state_of (handleOpenDoc "notes.txt" 8 Sample.page)) = ""%string.
Proof.
  destruct (handleOpenDoc_selects_editable Sample.page "Station.SCD" 7)
    as (w1 & R1 & _ & _ & H1 & _).
  destruct (handleOpenDoc_selects_editable Sample.page "notes.txt" 8)
    as (w2 & R2 & _ & _ & _ & _ & H2 & _).
  rewrite R1, R2. simpl. split; [exact H1 | exact (H2 eq_refl)].
Defined.

(** ** The plugin registry *)

Section Registry.

Context {Dom XMLDocument PluginModule : Type}.
Context `{!Exported PluginModule}.
Variable handleEdit : Edit → M Dom Edit.
Variable cyrb64 : string → string.
Variable resolveURL : string → option string.

Local Abbreviation World := (@OpenSCD Dom XMLDocument PluginModule).
Local Abbreviation run' := (run handleEdit cyrb64 resolveURL).
Local Abbreviation sameRegistry :=
  (@sameRegistry Dom XMLDocument PluginModule).
Local Abbreviation loadedGrows := (@loadedGrows Dom XMLDocument PluginModule).
Local Abbreviation boundOnce := (@boundOnce Dom XMLDocument PluginModule).
Local Abbreviation tagsCoherent :=
  (@tagsCoherent Dom XMLDocument PluginModule cyrb64).
Implicit Types w : World.

#[local] Instance sameRegistry_preorder : PreOrder sameRegistry.
Proof.
  split.
  - by intros w.
  - intros w1 w2 w3 (?&?&?&?&?&?) (?&?&?&?&?&?).
    repeat split; congruence.
Qed.

Ltac same_registry :=
  idtac; match goal with |- sameRegistry ?w _ => by destruct w end.

Lemma onDom_sameRegistry {A} (m : M Dom A) :
  preserves sameRegistry (onDom (XMLDocument:=XMLDocument)
                            (PluginModule:=PluginModule) m).
Proof. intros w. unfold onDom. destruct (m (dom w)); by destruct w. Qed.

Lemma entryAt_sameRegistry (i : Z) :
  preserves sameRegistry (entryAt (Dom:=Dom) (XMLDocument:=XMLDocument)
                            (PluginModule:=PluginModule) i).
Proof. intros w. unfold entryAt. by destruct (index (history w) i). Qed.

Lemma handleEditEvent_sameRegistry (event : EditEvent) :
  preserves sameRegistry (handleEditEvent (XMLDocument:=XMLDocument)
                            (PluginModule:=PluginModule) handleEdit event).
Proof.
  unfold handleEditEvent.
  preserves_by ltac:(first [apply onDom_sameRegistry | same_registry]).
Qed.

Lemma undoLoop_sameRegistry (fuel : nat) (n : Z) :
  preserves sameRegistry (undoLoop (XMLDocument:=XMLDocument)
                            (PluginModule:=PluginModule) handleEdit fuel n).
Proof.
  revert n. induction fuel as [|fuel IH]; intros n; simpl; unfold undoStep;
    preserves_by ltac:(first [apply onDom_sameRegistry
                             | apply entryAt_sameRegistry
                             | apply IH | same_registry]).
Qed.

Lemma redoLoop_sameRegistry (fuel : nat) (n : Z) :
  preserves sameRegistry (redoLoop (XMLDocument:=XMLDocument)
                            (PluginModule:=PluginModule) handleEdit fuel n).
Proof.
  revert n. induction fuel as [|fuel IH]; intros n; simpl; unfold redoStep;
    preserves_by ltac:(first [apply onDom_sameRegistry
                             | apply entryAt_sameRegistry
                             | apply IH | same_registry]).
Qed.

Lemma handleOpenDoc_sameRegistry (name : string) (doc : XMLDocument) :
  preserves sameRegistry (handleOpenDoc (Dom:=Dom)
                            (PluginModule:=PluginModule) name doc).
Proof. unfold handleOpenDoc, requestUpdate. preserves_by same_registry. Qed.

(** *** The loaded set only grows *)

#[local] Instance loadedGrows_preorder : PreOrder loadedGrows.
Proof.
  split.
  - by intros w.
  - intros w1 w2 w3 [H1 H2] [H3 H4]. split.
    + intros kind. etrans; [apply H1 | apply H3].
    + etrans; [apply H2 | apply H4].
Qed.










(** *** Tags and bindings *)

#[local] Instance keeps_preorder (I : World → Prop) : PreOrder (keeps I).
Proof.
  split.
  - intros w H. exact H.
  - intros w1 w2 w3 H1 H2 H. apply H2, H1, H.
Qed.

Lemma customElements_get_None (tagName : string)
  (registry : list (string * PluginModule)) :
  customElements_get tagName registry = None → tagName ∉ registry.*1.
Proof.
  unfold customElements_get. intros H.
  destruct (find _ registry) as [kv|] eqn:F; [done|].
  intros Hin. apply list_elem_of_fmap in Hin as ([k v] & -> & Hin).
  apply list_elem_of_In in Hin.
  pose proof (find_none _ _ F _ Hin) as Hf. simpl in Hf.
  by rewrite String.eqb_refl in Hf.
Qed.

Lemma pluginTag_tagsCoherent (uri : string) :
  preserves (keeps tagsCoherent)
    (pluginTag (Dom:=Dom) (XMLDocument:=XMLDocument)
       (PluginModule:=PluginModule) cyrb64 uri).
Proof.
  intros w. unfold pluginTag. destruct (pluginTags w !! uri) eqn:E; simpl.
  - reflexivity.
  - intros Ht uri' tag. destruct w; simpl in *.
    destruct (decide (uri = uri')) as [<-|Hne].
    + rewrite lookup_insert_eq. congruence.
    + rewrite lookup_insert_ne by done. apply Ht.
Qed.

Lemma pluginTag_boundOnce (uri : string) :
  preserves (keeps boundOnce)
    (pluginTag (Dom:=Dom) (XMLDocument:=XMLDocument)
       (PluginModule:=PluginModule) cyrb64 uri).
Proof.
  intros w. unfold pluginTag. destruct (pluginTags w !! uri) eqn:E; simpl.
  - reflexivity.
  - destruct w. intros H. exact H.
Qed.

Lemma customElements_define_boundOnce (tagName : string) (c : PluginModule) :
  preserves (keeps boundOnce)
    (customElements_define (Dom:=Dom) (XMLDocument:=XMLDocument) tagName c).
Proof.
  intros w. unfold customElements_define, mbind, M_bind, gets, modify, throw.
  destruct (definable tagName c); simpl; [|by intros ?].
  destruct (customElements_get tagName (customElements w)) eqn:E; simpl;
    [by intros ?|].
  destruct (bool_decide_reflect (c ∈ (customElements w).*2)) as [Hc|Hc]; simpl;
    [by intros ?|].
  intros [Hb1 Hb2]. apply customElements_get_None in E.
  unfold boundOnce in *. destruct w; simpl in *. rewrite !fmap_app.
  split; (apply NoDup_app; split; [done|]; split; [|apply NoDup_singleton]);
    intros x Hx Hx'; apply list_elem_of_singleton in Hx'; by subst.
Qed.

Ltac keeps_update :=
  idtac;
  match goal with
  | |- keeps _ ?w _ => destruct w; intros H; exact H
  end.

Lemma set_plugins_tagsCoherent (ps : PartialPluginSet) :
  preserves (keeps tagsCoherent)
    (set_plugins (Dom:=Dom) (XMLDocument:=XMLDocument)
       (PluginModule:=PluginModule) cyrb64 resolveURL ps).
Proof.
  unfold set_plugins, loadPlugin, addLoadedPlugin, requestUpdate.
  preserves_by ltac:(first [apply pluginTag_tagsCoherent | keeps_update]).
Qed.

Lemma set_plugins_boundOnce (ps : PartialPluginSet) :
  preserves (keeps boundOnce)
    (set_plugins (Dom:=Dom) (XMLDocument:=XMLDocument)
       (PluginModule:=PluginModule) cyrb64 resolveURL ps).
Proof.
  unfold set_plugins, loadPlugin, addLoadedPlugin, requestUpdate.
  preserves_by ltac:(first [apply pluginTag_boundOnce | keeps_update]).
Qed.

Lemma settle_tagsCoherent (k : nat) (result : option PluginModule) :
  preserves (keeps tagsCoherent)
    (settle (Dom:=Dom) (XMLDocument:=XMLDocument) k result).
Proof.
  unfold settle, importThen, addLoadedPlugin, customElements_define,
    requestUpdate.
  preserves_by keeps_update.
Qed.

Lemma settle_boundOnce (k : nat) (result : option PluginModule) :
  preserves (keeps boundOnce)
    (settle (Dom:=Dom) (XMLDocument:=XMLDocument) k result).
Proof.
  unfold settle, importThen, addLoadedPlugin, requestUpdate.
  preserves_by ltac:(first [apply customElements_define_boundOnce
                            | keeps_update]).
Qed.

Lemma sameRegistry_tagsCoherent w w' :
  sameRegistry w w' → tagsCoherent w → tagsCoherent w'.
Proof. intros (_ & _ & _ & Ht & _). unfold tagsCoherent. by rewrite Ht. Qed.

Lemma sameRegistry_boundOnce w w' :
  sameRegistry w w' → boundOnce w → boundOnce w'.
Proof. intros (_ & _ & _ & _ & Hc & _). unfold boundOnce. by rewrite Hc. Qed.

Lemma step_sameRegistry_or (a : Action) w :
  match a with
  | Assign_plugins _ | Settle _ _ => True
  | _ => sameRegistry w (step handleEdit cyrb64 resolveURL w a)
  end.
Proof.
  unfold step. destruct a; simpl; [| | | |done|done].
  - apply handleEditEvent_sameRegistry.
  - apply handleOpenDoc_sameRegistry.
  - apply undoLoop_sameRegistry.
  - apply redoLoop_sameRegistry.
Qed.

Lemma run_tagsCoherent (actions : list Action) w :
  tagsCoherent w → tagsCoherent (run' actions w).
Proof.
  revert w. induction actions as [|a actions IH]; intros w Hw; [done|].
  apply IH. pose proof (step_sameRegistry_or a w) as Hs.
  destruct a; try by eapply sameRegistry_tagsCoherent.
  - by apply set_plugins_tagsCoherent.
  - by apply settle_tagsCoherent.
Qed.

Lemma run_boundOnce (actions : list Action) w :
  boundOnce w → boundOnce (run' actions w).
Proof.
  revert w. induction actions as [|a actions IH]; intros w Hw; [done|].
  apply IH. pose proof (step_sameRegistry_or a w) as Hs.
  destruct a; try by eapply sameRegistry_boundOnce.
  - by apply set_plugins_boundOnce.
  - by apply settle_boundOnce.
Qed.

(** *** Two descriptors with one locator *)

Lemma pluginTag_cached (uri : string) w :
  pluginTag cyrb64 uri w = Normal (tagOf cyrb64 w uri) (cached cyrb64 uri w).
Proof.
  unfold pluginTag, cached, tagOf.
  destruct (pluginTags w !! uri) eqn:E; simpl; [|done].
  rewrite insert_id by done. by destruct w.
Qed.

Lemma tagOf_cached (uri : string) w :
  tagOf cyrb64 (cached cyrb64 uri w) uri = tagOf cyrb64 w uri.
Proof.
  unfold tagOf at 1, cached. destruct w; simpl. by rewrite lookup_insert_eq.
Qed.

Lemma cached_cached (uri : string) w :
  cached cyrb64 uri (cached cyrb64 uri w) = cached cyrb64 uri w.
Proof.
  unfold cached at 1. rewrite tagOf_cached. unfold cached.
  destruct w; simpl. by rewrite insert_insert_eq.
Qed.

(** A descriptor whose tag is neither loaded nor defined and whose locator
    parses starts an import. *)
Lemma loadPlugin_imports w (kind : PluginKind) (plugin : Plugin) (u : string) :
  tagOf cyrb64 w (src plugin) ∉ priv_loadedPluginTagNames w →
  customElements_get (tagOf cyrb64 w (src plugin)) (customElements w) = None →
  resolveURL (src plugin) = Some u →
  loadPlugin cyrb64 resolveURL kind plugin w =
  Normal tt
    (set_imports (imports w ++ [importOf cyrb64 w kind plugin u])
       (cached cyrb64 (src plugin) w)).
Proof.
  intros Hnot Hget Hu. unfold loadPlugin.
  erewrite bind_Normal by apply pluginTag_cached.
  unfold mbind, M_bind, gets, modify, importOf, cached.
  remember (tagOf cyrb64 w (src plugin)) as tag.
  destruct w; simpl in *.
  rewrite bool_decide_eq_false_2 by done. simpl. by rewrite Hget, Hu.
Qed.

(** A descriptor whose tag is neither loaded nor defined and whose locator
    does not parse makes the setter throw; only the tag has been cached. *)
Lemma loadPlugin_unresolved w (kind : PluginKind) (plugin : Plugin) :
  tagOf cyrb64 w (src plugin) ∉ priv_loadedPluginTagNames w →
  customElements_get (tagOf cyrb64 w (src plugin)) (customElements w) = None →
  resolveURL (src plugin) = None →
  loadPlugin cyrb64 resolveURL kind plugin w =
  Throw (cached cyrb64 (src plugin) w).
Proof.
  intros Hnot Hget Hu. unfold loadPlugin.
  erewrite bind_Normal by apply pluginTag_cached.
  unfold mbind, M_bind, gets, modify, cached, throw.
  remember (tagOf cyrb64 w (src plugin)) as tag.
  destruct w; simpl in *.
  rewrite bool_decide_eq_false_2 by done. simpl. by rewrite Hget, Hu.
Qed.

(** A descriptor whose tag is loaded is skipped. *)
Lemma loadPlugin_skips w (kind : PluginKind) (plugin : Plugin) :
  tagOf cyrb64 w (src plugin) ∈ priv_loadedPluginTagNames w →
  loadPlugin cyrb64 resolveURL kind plugin w =
  Normal tt (cached cyrb64 (src plugin) w).
Proof.
  intros Hin. unfold loadPlugin.
  erewrite bind_Normal by apply pluginTag_cached.
  unfold mbind, M_bind, gets, cached.
  remember (tagOf cyrb64 w (src plugin)) as tag.
  destruct w; simpl in *. by rewrite bool_decide_eq_true_2.
Qed.



Lemma customElements_get_snoc (tagName : string) (c : PluginModule)
  (registry : list (string * PluginModule)) :
  customElements_get tagName registry = None →
  customElements_get tagName (registry ++ [(tagName, c)]) = Some c.
Proof.
  unfold customElements_get. intros H.
  destruct (find _ registry) eqn:F; [done|].
  induction registry as [|[k v] registry IH]; simpl in *.
  - by rewrite String.eqb_refl.
  - destruct (k =? tagName)%string; [done | by apply IH].
Qed.

(** The callback of an import whose tag is still undefined, with a class
    the registry accepts, records the descriptor and binds the tag. *)
Lemma importThen_defines w (i : Import) (c : PluginModule) :
  customElements_get (then_tagName i) (customElements w) = None →
  definable (then_tagName i) c = true →
  c ∉ (customElements w).*2 →
  importThen i c w =
  Normal tt
    (set_customElements (customElements w ++ [(then_tagName i, c)])
       (set_loadedPluginTagNames
          (priv_loadedPluginTagNames w ++ [then_tagName i])
          (set_loadedPlugins
             (kind_push (then_pluginType i) (then_plugin i)
                (priv_loadedPlugins w)) w))).
Proof.
  intros Hget Hdef Hc. unfold importThen, addLoadedPlugin,
    customElements_define, requestUpdate, mbind, M_bind, gets, modify, throw,
    mret, M_ret.
  destruct w; simpl in *. rewrite Hget. simpl. rewrite Hdef, Hget. simpl.
  by rewrite bool_decide_eq_false_2.
Qed.

(** The callback of an import whose tag is still undefined, with a class
    the registry refuses, throws when the descriptor has been recorded. *)
Lemma importThen_refused w (i : Import) (c : PluginModule) :
  customElements_get (then_tagName i) (customElements w) = None →
  definable (then_tagName i) c = false ∨ c ∈ (customElements w).*2 →
  importThen i c w =
  Throw
    (set_loadedPluginTagNames
       (priv_loadedPluginTagNames w ++ [then_tagName i])
       (set_loadedPlugins
          (kind_push (then_pluginType i) (then_plugin i)
             (priv_loadedPlugins w)) w)).
Proof.
  intros Hget Hc. unfold importThen, addLoadedPlugin,
    customElements_define, requestUpdate, mbind, M_bind, gets, modify, throw,
    mret, M_ret.
  destruct w; simpl in *. rewrite Hget. simpl.
  destruct (definable (then_tagName i) c); simpl; [|done].
  rewrite Hget. destruct Hc as [?|Hc]; [done|].
  by rewrite bool_decide_eq_true_2.
Qed.

(** The callback of an import whose tag has been defined meanwhile records
    the descriptor and leaves the registry alone. *)
Lemma importThen_bound w (i : Import) (c c' : PluginModule) :
  customElements_get (then_tagName i) (customElements w) = Some c' →
  importThen i c w =
  Normal tt
    (set_loadedPluginTagNames
       (priv_loadedPluginTagNames w ++ [then_tagName i])
       (set_loadedPlugins
          (kind_push (then_pluginType i) (then_plugin i)
             (priv_loadedPlugins w)) w)).
Proof.
  intros Hget. unfold importThen, addLoadedPlugin, customElements_define,
    requestUpdate, mbind, M_bind, gets, modify, throw, mret, M_ret.
  destruct w; simpl in *. by rewrite Hget.
Qed.

Lemma settle_fulfilled w (k : nat) (i : Import) (c : PluginModule) :
  imports w !! k = Some i →
  settled i = false →
  settle k (Some c) w =
  importThen i c (set_imports (<[k := settledImport i]> (imports w)) w).
Proof.
  intros Hi Hs. unfold settle, mbind, M_bind, gets, modify.
  by rewrite Hi, Hs.
Qed.

(** When the callback of an import throws. *)
Lemma settle_thrown w (k : nat) (result : option PluginModule) :
  returned (settle k result w) = false ↔
  ∃ i c, imports w !! k = Some i ∧ settled i = false ∧ result = Some c ∧
    customElements_get (then_tagName i) (customElements w) = None ∧
    (definable (then_tagName i) c = false ∨ c ∈ (customElements w).*2).
Proof.
  split.
  - intros Hr.
    destruct (imports w !! k) as [i|] eqn:Ei;
      [|by unfold settle, mbind, M_bind, gets in Hr; rewrite Ei in Hr].
    destruct (settled i) eqn:Es;
      [by unfold settle, mbind, M_bind, gets in Hr; rewrite Ei, Es in Hr|].
    destruct result as [c|];
      [|by unfold settle, mbind, M_bind, gets, modify in Hr;
           rewrite Ei, Es in Hr].
    rewrite (settle_fulfilled w k i c Ei Es) in Hr.
    set (w1 := set_imports _ w) in Hr.
    assert (customElements w1 = customElements w) as Hreg
      by (subst w1; by destruct w).
    exists i, c. rewrite <- Hreg. repeat (split; [done|]).
    destruct (customElements_get (then_tagName i) (customElements w1))
      as [c'|] eqn:Hget.
    { by rewrite (importThen_bound w1 i c c') in Hr. }
    split; [done|].
    destruct (definable (then_tagName i) c) eqn:Hdef; [|by left].
    destruct (decide (c ∈ (customElements w1).*2)) as [Hc|Hc]; [by right|].
    by rewrite importThen_defines in Hr.
  - intros (i & c & Ei & Es & -> & Hget & Hc).
    rewrite (settle_fulfilled w k i c Ei Es).
    rewrite importThen_refused; [done| |]; by destruct w.
Qed.

Lemma tagOf_set_imports (l : list Import) (uri : string) w :
  tagOf cyrb64 (set_imports l w) uri = tagOf cyrb64 w uri.
Proof. by destruct w. Qed.

Lemma cached_set_imports (l : list Import) (uri : string) w :
  cached cyrb64 uri (set_imports l (cached cyrb64 uri w)) =
  set_imports l (cached cyrb64 uri w).
Proof.
  rewrite <- (cached_cached uri w) at 2.
  unfold cached at 1 3. rewrite tagOf_set_imports.
  by destruct (cached cyrb64 uri w).
Qed.

(** Two descriptors with one locator, one after the other in the same
    assignment: the second finds the tag neither loaded nor defined, as the
    first did, and starts an import of its own. *)
Lemma loadPlugin_twice w (kp kq : PluginKind) (p q : Plugin) (u : string) :
  src p = src q →
  tagOf cyrb64 w (src p) ∉ priv_loadedPluginTagNames w →
  customElements_get (tagOf cyrb64 w (src p)) (customElements w) = None →
  resolveURL (src p) = Some u →
  (loadPlugin cyrb64 resolveURL kp p ;; loadPlugin cyrb64 resolveURL kq q) w =
  Normal tt
    (set_imports
       (imports w ++ [importOf cyrb64 w kp p u; importOf cyrb64 w kq q u])
       (cached cyrb64 (src p) w)).
Proof.
  intros Hsrc Hnot Hget Hu.
  erewrite bind_Normal by by apply loadPlugin_imports.
  set (wa := set_imports _ (cached cyrb64 (src p) w)).
  assert (tagOf cyrb64 wa (src q) = tagOf cyrb64 w (src p)) as Htag.
  { subst wa. by rewrite <- Hsrc, tagOf_set_imports, tagOf_cached. }
  rewrite (loadPlugin_imports _ _ _ u).
  - f_equal. unfold importOf. rewrite Htag, <- Hsrc. subst wa.
    rewrite cached_set_imports.
    destruct (cached cyrb64 (src p) w); simpl. by rewrite <- app_assoc.
  - rewrite Htag. subst wa. unfold cached. by destruct w.
  - rewrite Htag. subst wa. unfold cached. by destruct w.
  - by rewrite <- Hsrc.
Qed.

Lemma forEach_app {S A} (f : A → M S unit) (l1 l2 : list A) (s : S) :
  forEach f (l1 ++ l2) s = (forEach f l1 ;; forEach f l2) s.
Proof.
  revert s. induction l1 as [|x l1 IH]; intros s; simpl; [done|].
  unfold mbind, M_bind in *. destruct (f x s); [apply IH | done].
Qed.

Lemma forEach_fmap {S A B} (g : A → B) (f : B → M S unit) (l : list A) (s : S) :
  forEach f (g <$> l) s = forEach (λ x, f (g x)) l s.
Proof.
  revert s. induction l as [|x l IH]; intros s; simpl; [done|].
  unfold mbind, M_bind. destruct (f (g x) s); [apply IH | done].
Qed.

(** The nested loops of the setter visit the descriptors in order. *)
Lemma forEach_descriptors (ps : PartialPluginSet) w :
  forEach (λ kv, forEach (loadPlugin cyrb64 resolveURL (fst kv)) (snd kv)) ps w =
  forEach (λ d, loadPlugin cyrb64 resolveURL (fst d) (snd d)) (descriptors ps) w.
Proof.
  revert w. induction ps as [|[k l] ps IH]; intros w; [done|].
  change (descriptors ((k, l) :: ps))
    with (((λ plugin, (k, plugin)) <$> l) ++ descriptors ps).
  rewrite forEach_app. simpl. unfold mbind, M_bind.
  rewrite forEach_fmap. simpl.
  destruct (forEach _ l w); [apply IH | done].
Qed.


(** Two descriptors with the same locator, of any kinds, assigned together
    while the tag of the locator is neither loaded nor defined and the
    locator parses: an import of the one resolved locator is started for
    each of them.  Once both imports are fulfilled, the first with a class
    that [customElements.define] accepts, the tag is bound once, to the
    class of the import that settled first, both descriptors are loaded and
    the tag is listed twice. *)
Theorem same_src_assigned_together w (ps : PartialPluginSet)
  (kp kq : PluginKind) (p q : Plugin) (u : string) (cp cq : PluginModule) :
  descriptors ps = [(kp, p); (kq, q)] →
  src p = src q →
  let tag := tagOf cyrb64 w (src p) in
  let n := length (imports w) in
  tag ∉ priv_loadedPluginTagNames w →
  customElements_get tag (customElements w) = None →
  resolveURL (src p) = Some u →
  definable tag cp = true →
  cp ∉ (customElements w).*2 →
  let w1 := run' [Assign_plugins ps] w in
  let w2 := run' [Settle n (Some cp); Settle (S n) (Some cq)] w1 in
  imports w1 =
    imports w ++ [importOf cyrb64 w kp p u; importOf cyrb64 w kq q u] ∧
  url <$> drop n (imports w1) = [u; u] ∧
  loadedPlugins w2 = kind_push kq q (kind_push kp p (loadedPlugins w)) ∧
  priv_loadedPluginTagNames w2 = priv_loadedPluginTagNames w ++ [tag; tag] ∧
  customElements w2 = customElements w ++ [(tag, cp)].
Proof.
  intros Hps Hsrc tag n Hnot Hget Hu Hdef Hcp w1 w2.
  assert (w1 =
          set_priv_plugins (spread ps)
            (set_imports
               (imports w ++ [importOf cyrb64 w kp p u;
                              importOf cyrb64 w kq q u])
               (cached cyrb64 (src p) w))) as Hw1.
  { subst w1. unfold run, step. simpl. unfold set_plugins.
    unfold mbind at 1, M_bind at 1. rewrite forEach_descriptors, Hps. simpl.
    pose proof (loadPlugin_twice w kp kq p q u Hsrc Hnot Hget Hu) as H2.
    unfold mbind, M_bind in *.
    destruct (loadPlugin cyrb64 resolveURL kp p w) as [[] wa|]; [|done].
    by rewrite H2. }
  clearbody w1. subst w1.
  assert (tagOf cyrb64 w (src q) = tag) as Htq by by rewrite <- Hsrc.
  subst w2. unfold run, step, importOf, cached. simpl foldl.
  rewrite Htq. fold tag. clearbody tag. clear Htq.
  subst n. destruct w; simpl in *.
  split; [done|]. split; [by rewrite drop_app_length|].
  erewrite (settle_fulfilled _ (length imports0));
    [| simpl; by apply list_lookup_middle | done].
  erewrite importThen_defines by (simpl; done). simpl.
  rewrite insert_app_r_alt, Nat.sub_diag by lia. simpl.
  erewrite (settle_fulfilled _ (S (length imports0)));
    [| simpl; rewrite lookup_app_r by lia;
       replace (S (length imports0) - length imports0) with 1 by lia;
       reflexivity
     | done].
  erewrite importThen_bound by (simpl; by apply customElements_get_snoc).
  simpl. by rewrite <- app_assoc.
Qed.

(** A descriptor whose tag is on the list of loaded tags is skipped: no
    import is started and nothing is recorded for it. *)
Theorem loaded_tag_is_skipped w (kind : PluginKind) (plugin : Plugin) :
  tagOf cyrb64 w (src plugin) ∈ priv_loadedPluginTagNames w →
  ∃ w', loadPlugin cyrb64 resolveURL kind plugin w = Normal tt w' ∧
    imports w' = imports w ∧
    loadedPlugins w' = loadedPlugins w ∧
    priv_loadedPluginTagNames w' = priv_loadedPluginTagNames w ∧
    customElements w' = customElements w.
Proof.
  intros Hin. eexists. split; [by apply loadPlugin_skips|].
  unfold cached. by destruct w.
Qed.

(** The tag of a locator is the same on every call, from a fresh page on:
    [oscd-p] followed by the hash of the locator. *)
Theorem pluginTag_stable (d : Dom) (registry : list (string * PluginModule))
  (actions : list Action) (uri : string) :
  ∃ w', pluginTag cyrb64 uri (run' actions (initial d registry)) =
        Normal ("oscd-p" +:+ cyrb64 uri) w'.
Proof.
  assert (tagsCoherent (run' actions (initial d registry))) as H.
  { apply run_tagsCoherent. intros uri' tag. simpl. by rewrite lookup_empty. }
  unfold pluginTag.
  destruct (pluginTags (run' actions (initial d registry)) !! uri) as [tag|]
    eqn:E; eexists; [|reflexivity].
  by rewrite (H _ _ E).
Qed.

(** Whatever is assigned and however the imports settle, no tag is ever
    bound twice in the registry, and no class.  The callback of an import
    never throws because its tag is taken: it throws exactly when the tag
    is still undefined and [customElements.define] refuses the class the
    module exports, for what the class is or because the class is bound to
    another tag.  The descriptor and its tag have been recorded as loaded
    by then and stay so, while the registry is left as it was. *)
Theorem registry_binds_once (d : Dom) (actions : list Action) :
  let w : World := run' actions (initial d []) in
  NoDup (customElements w).*1 ∧
  NoDup (customElements w).*2 ∧
  ∀ k result,
    (returned (settle k result w) = false ↔
     ∃ i c, imports w !! k = Some i ∧ settled i = false ∧ result = Some c ∧
       customElements_get (then_tagName i) (customElements w) = None ∧
       (definable (then_tagName i) c = false ∨ c ∈ (customElements w).*2)) ∧
    (returned (settle k result w) = false →
     ∃ i, imports w !! k = Some i ∧
       let w' := state_of (settle k result w) in
       customElements w' = customElements w ∧
       priv_loadedPluginTagNames w' =
         priv_loadedPluginTagNames w ++ [then_tagName i] ∧
       loadedPlugins w' =
         kind_push (then_pluginType i) (then_plugin i) (loadedPlugins w)).
Proof.
  intros w.
  destruct (run_boundOnce actions (initial d [])) as [H1 H2];
    [split; apply NoDup_nil_2|].
  split; [exact H1|]. split; [exact H2|].
  intros k result. split; [apply settle_thrown|].
  intros (i & c & Ei & Es & -> & Hget & Hc)%settle_thrown.
  exists i. split; [done|].
  rewrite (settle_fulfilled w k i c Ei Es).
  rewrite importThen_refused; [|by destruct w..].
  simpl. unfold loadedPlugins. by destruct w.
Qed.

End Registry.

(** *** The registry at work on the sample page *)



(** C4 on the input of the test [loads menu plugins]: the same descriptor
    twice and another one, assigned together on a fresh page.  An import is
    started for each of the three, two of them for the one locator; once
    the three have settled, the descriptor is loaded twice and its tag is
    listed twice, and the tag is bound once. *)
Theorem same_src_imported_twice :
  let tag1 := ("oscd-p" +:+ Sample.hash (src Sample.menuPlugin1))%string in
  let tag2 := ("oscd-p" +:+ Sample.hash (src Sample.menuPlugin2))%string in
  let w1 :=
    Sample.go
      [Assign_plugins
         [(Menu, [Sample.menuPlugin1; Sample.menuPlugin1; Sample.menuPlugin2])]]
      Sample.page in
  let w2 :=
    Sample.go
      [Settle 0 (Some "TestPlugin1"%string);
       Settle 1 (Some "TestPlugin1"%string);
       Settle 2 (Some "TestPlugin2"%string)] w1 in
  Some <$> (url <$> imports w1) =
    [Sample.locate (src Sample.menuPlugin1);
     Sample.locate (src Sample.menuPlugin1);
     Sample.locate (src Sample.menuPlugin2)] ∧
  menu (plugins w1) =
    [Sample.menuPlugin1; Sample.menuPlugin1; Sample.menuPlugin2] ∧
  menu (loadedPlugins w2) =
    [Sample.menuPlugin1; Sample.menuPlugin1; Sample.menuPlugin2] ∧
  priv_loadedPluginTagNames w2 = [tag1; tag1; tag2] ∧
  customElements w2 =
    [(tag1, "TestPlugin1"%string); (tag2, "TestPlugin2"%string)].
Proof. vm_compute. repeat split. Qed.

(** The same locator under two kinds.  Assigned together, both descriptors
    start an import and both end up loaded.  Assigned one after the other,
    with the first import settled in between, the second descriptor starts
    no import and is never loaded. *)
Lemma same_src_two_kinds :
  let together :=
    Sample.go
      [Assign_plugins [(Menu, [Sample.menuPlugin1]);
                       (Editor, [Sample.editorPlugin1])];
       Settle 0 (Some "TestPlugin1"%string);
       Settle 1 (Some "TestPlugin1"%string)] Sample.page in
  let inTurn :=
    Sample.go
      [Assign_plugins [(Menu, [Sample.menuPlugin1])];
       Settle 0 (Some "TestPlugin1"%string);
       Assign_plugins [(Menu, [Sample.menuPlugin1]);
                       (Editor, [Sample.editorPlugin1])]] Sample.page in
  length (imports together) = 2 ∧
  loadedPlugins together =
    {| menu := [Sample.menuPlugin1]; editor := [Sample.editorPlugin1] |} ∧
  length (customElements together) = 1 ∧
  length (imports inTurn) = 1 ∧
  loadedPlugins inTurn = {| menu := [Sample.menuPlugin1]; editor := [] |} ∧
  editor (plugins inTurn) = [Sample.editorPlugin1] ∧
  Forall (λ i, settled i = true) (imports inTurn).
Proof. vm_compute. repeat split; repeat constructor. Qed.

Lemma same_src_assigned_together_witness :
  let w2 :=
    Sample.go
      [Assign_plugins [(Menu, [Sample.menuPlugin1]);
                       (Editor, [Sample.editorPlugin1])];
       Settle 0 (Some "TestPlugin1"%string);
       Settle 1 (Some "TestPlugin1"%string)] Sample.page in
  length (imports w2) = 2 ∧
  customElements w2 =
    [("oscd-pdata:text/javascript,TestPlugin1"%string, "TestPlugin1"%string)] ∧
  priv_loadedPluginTagNames w2 =
    ["oscd-pdata:text/javascript,TestPlugin1"%string;
     "oscd-pdata:text/javascript,TestPlugin1"%string].
Proof.
  intros w2.
  destruct (same_src_assigned_together EditEngine.apply Sample.hash
              Sample.locate Sample.page
              [(Menu, [Sample.menuPlugin1]); (Editor, [Sample.editorPlugin1])]
              Menu Editor Sample.menuPlugin1 Sample.editorPlugin1
              "data:text/javascript,TestPlugin1"%string
              "TestPlugin1"%string "TestPlugin1"%string eq_refl eq_refl)
    as (_ & _ & _ & Htags & Hreg).
  - apply not_elem_of_nil.
  - reflexivity.
  - reflexivity.
  - reflexivity.
  - apply not_elem_of_nil.
  - split; [reflexivity|]. split; [exact Hreg | exact Htags].
Defined.

Lemma loaded_tag_is_skipped_witness :
  let w :=
    Sample.go
      [Assign_plugins [(Menu, [Sample.menuPlugin1])];
       Settle 0 (Some "TestPlugin1"%string)] Sample.page in
  ∃ w', loadPlugin Sample.hash Sample.locate Editor Sample.editorPlugin1 w =
        Normal tt w' ∧
    length (imports w') = 1 ∧
    editor (loadedPlugins w') = [].
Proof.
  intros w.
  destruct (loaded_tag_is_skipped Sample.hash Sample.locate w Editor
              Sample.editorPlugin1) as (w' & R & Hi & Hl & _).
  - vm_compute. apply list_elem_of_here.
  - exists w'. split; [exact R|]. by rewrite Hi, Hl.
Defined.

(** ** Going through the log *)

Section Replays.
Context {Dom XMLDocument PluginModule : Type}.
Variable handleEdit : Edit → M Dom Edit.
Local Abbreviation World := (@OpenSCD Dom XMLDocument PluginModule).
Implicit Types w : World.

Lemma undoStep_replay w (e : LogEntry.t) :
  index (history w) (last w) = Some e →
  undoStep handleEdit w = replay handleEdit (-1) (LogEntry.undo e) w.
Proof.
  intros Hi. destruct w.
  unfold undoStep, replay, entryAt, mbind, M_bind, modify, onDom, gets.
  simpl in *. rewrite Hi. simpl. by destruct (handleEdit _ _).
Qed.

Lemma redoStep_replay w (e : LogEntry.t) :
  index (history w) (editCount w) = Some e →
  redoStep handleEdit w = replay handleEdit 1 (LogEntry.redo e) w.
Proof.
  intros Hi. destruct w.
  unfold redoStep, replay, entryAt, mbind, M_bind, modify, onDom, gets.
  simpl in *. rewrite Hi. simpl. by destruct (handleEdit _ _).
Qed.

Lemma replay_log (move : Z) (edit : Edit) w :
  history (state_of (replay handleEdit move edit w)) = history w ∧
  (∀ w', replay handleEdit move edit w = Normal tt w' →
         editCount w' = (editCount w + move)%Z).
Proof.
  destruct w. unfold replay, mbind, M_bind, modify, onDom. simpl.
  destruct (handleEdit _ _); simpl; split; try done.
  by intros w' [= <-].
Qed.

Lemma undone_step (n : Z) w (e : LogEntry.t) :
  (1 ≤ n)%Z → (1 ≤ editCount w)%Z →
  index (history w) (last w) = Some e →
  ∀ w', history w' = history w → editCount w' = (editCount w - 1)%Z →
  undone n w = e :: undone (n - 1) w'.
Proof.
  intros Hn Hc Hi w' Hh He. unfold undone. rewrite Hh, He.
  unfold index, last in Hi.
  destruct (Z.leb_spec 0 (editCount w - 1)) as [_|?]; [|lia].
  replace (Z.to_nat (editCount w)) with (S (Z.to_nat (editCount w - 1))) by lia.
  erewrite take_S_r by done. rewrite reverse_snoc.
  replace (Z.to_nat n) with (S (Z.to_nat (n - 1))) by lia. done.
Qed.

Lemma redone_step (n : Z) w (e : LogEntry.t) :
  (1 ≤ n)%Z → (0 ≤ editCount w)%Z →
  index (history w) (editCount w) = Some e →
  ∀ w', history w' = history w → editCount w' = (editCount w + 1)%Z →
  redone n w = e :: redone (n - 1) w'.
Proof.
  intros Hn Hc Hi w' Hh He. unfold redone. rewrite Hh, He.
  unfold index in Hi.
  destruct (Z.leb_spec 0 (editCount w)) as [_|?]; [|lia].
  erewrite drop_S by done.
  replace (Z.to_nat n) with (S (Z.to_nat (n - 1))) by lia. simpl.
  by replace (Z.to_nat (editCount w + 1)) with (S (Z.to_nat (editCount w))) by lia.
Qed.

Lemma undo_replay (n : Z) w :
  (editCount w ≤ Z.of_nat (length (history w)))%Z →
  undo handleEdit n w =
  forEach (λ e, replay handleEdit (-1) (LogEntry.undo e)) (undone n w) w.
Proof.
  intros Hlen.
  destruct (Z.lt_ge_cases n 1) as [Hn|Hn].
  { rewrite undo_noop by (by right). unfold undone.
    replace (Z.to_nat n) with 0%nat by lia. by rewrite take_0. }
  remember (Z.to_nat n) as k eqn:Ek.
  revert n w Hn Ek Hlen. induction k as [|k IH]; intros n w Hn Ek Hlen; [lia|].
  rewrite undo_unfold.
  destruct (canUndo w) eqn:Hc; simpl.
  2:{ unfold canUndo, last in Hc. apply Z.leb_gt in Hc. unfold undone.
      replace (Z.to_nat (editCount w)) with 0%nat by lia.
      by rewrite take_0, reverse_nil, take_nil. }
  assert ((n <? 1)%Z = false) as -> by (apply Z.ltb_ge; lia).
  unfold canUndo, last in Hc. apply Z.leb_le in Hc.
  destruct (index_is_Some (history w) (last w)) as [e He];
    [unfold last; lia|].
  unfold mbind at 1, M_bind at 1. rewrite (undoStep_replay w e He).
  destruct (replay_log (-1) (LogEntry.undo e) w) as [Hh Hcur].
  destruct (replay handleEdit (-1) (LogEntry.undo e) w) as [[] w'|w'] eqn:R.
  + simpl in Hh. specialize (Hcur w' eq_refl).
    rewrite (undone_step n w e ltac:(lia) ltac:(lia) He w' Hh ltac:(lia)).
    simpl. rewrite (bind_Normal _ _ _ _ _ R).
    destruct (Z.ltb_spec 1 n) as [H1|H1].
    * apply IH; [lia | lia | rewrite Hh; lia].
    * unfold undone. replace (Z.to_nat (n - 1)) with 0%nat by lia.
      by rewrite take_0.
  + simpl in Hh.
    assert (∃ w'', history w'' = history w ∧
                   editCount w'' = (editCount w - 1)%Z) as (w'' & H1 & H2).
    { exists (set_editCount (editCount w - 1) w). by destruct w. }
    rewrite (undone_step n w e ltac:(lia) ltac:(lia) He w'' H1 H2).
    simpl. by rewrite (bind_Throw _ _ _ _ R).
Qed.

Lemma redo_replay (n : Z) w :
  (0 ≤ editCount w ≤ Z.of_nat (length (history w)))%Z →
  redo handleEdit n w =
  forEach (λ e, replay handleEdit 1 (LogEntry.redo e)) (redone n w) w.
Proof.
  intros [H0 Hlen].
  destruct (Z.lt_ge_cases n 1) as [Hn|Hn].
  { rewrite redo_noop by (by right). unfold redone.
    replace (Z.to_nat n) with 0%nat by lia. by rewrite take_0. }
  remember (Z.to_nat n) as k eqn:Ek.
  revert n w Hn Ek Hlen H0.
  induction k as [|k IH]; intros n w Hn Ek Hlen H0; [lia|].
  rewrite redo_unfold.
  destruct (canRedo w) eqn:Hc; simpl.
  2:{ unfold canRedo in Hc. apply Z.ltb_ge in Hc. unfold redone.
      rewrite drop_ge by lia. by rewrite take_nil. }
  assert ((n <? 1)%Z = false) as -> by (apply Z.ltb_ge; lia).
  unfold canRedo in Hc. apply Z.ltb_lt in Hc.
  destruct (index_is_Some (history w) (editCount w)) as [e He]; [lia|].
  unfold mbind at 1, M_bind at 1. rewrite (redoStep_replay w e He).
  destruct (replay_log 1 (LogEntry.redo e) w) as [Hh Hcur].
  destruct (replay handleEdit 1 (LogEntry.redo e) w) as [[] w'|w'] eqn:R.
  + simpl in Hh. specialize (Hcur w' eq_refl).
    rewrite (redone_step n w e ltac:(lia) ltac:(lia) He w' Hh ltac:(lia)).
    simpl. rewrite (bind_Normal _ _ _ _ _ R).
    destruct (Z.ltb_spec 1 n) as [H1|H1].
    * apply IH; [lia | lia | rewrite Hh; lia | lia].
    * unfold redone. replace (Z.to_nat (n - 1)) with 0%nat by lia.
      by rewrite take_0.
  + simpl in Hh.
    assert (∃ w'', history w'' = history w ∧
                   editCount w'' = (editCount w + 1)%Z) as (w'' & H1 & H2).
    { exists (set_editCount (editCount w + 1) w). by destruct w. }
    rewrite (redone_step n w e ltac:(lia) ltac:(lia) He w'' H1 H2).
    simpl. by rewrite (bind_Throw _ _ _ _ R).
Qed.

(** [undo(n)] is the replay, newest first, of the [undo] edits of the last
    [n] entries below the cursor (of all of them when there are fewer), each
    followed by the cursor moving one down; it ends at the first edit that
    throws.  [redo(n)] is the replay, oldest first, of the [redo] edits of
    the first [n] entries from the cursor on. *)
Theorem undo_redo_replay (n : Z) w :
  (editCount w ≤ Z.of_nat (length (history w)))%Z →
  undo handleEdit n w =
    forEach (λ e, replay handleEdit (-1) (LogEntry.undo e)) (undone n w) w ∧
  ((0 ≤ editCount w)%Z →
   redo handleEdit n w =
     forEach (λ e, replay handleEdit 1 (LogEntry.redo e)) (redone n w) w).
Proof.
  intros Hlen. split; [by apply undo_replay|].
  intros H0. by apply redo_replay.
Qed.

Lemma undo_undo (m n : Z) w :
  (0 ≤ m)%Z → (0 ≤ n)%Z →
  (undo handleEdit m ;; undo handleEdit n) w = undo handleEdit (m + n) w.
Proof.
  intros Hm Hn. remember (Z.to_nat m) as k eqn:Ek.
  revert m w Hm Ek. induction k as [|k IH]; intros m w Hm Ek.
  - assert (m = 0%Z) as -> by lia.
    erewrite bind_Normal; [|apply undo_noop; right; lia]. done.
  - unfold mbind at 1, M_bind at 1.
    rewrite (undo_unfold _ m), (undo_unfold _ (m + n)).
    destruct (canUndo w) eqn:Hc; simpl.
    2:{ rewrite undo_unfold, Hc. done. }
    assert ((m <? 1)%Z = false) as -> by (apply Z.ltb_ge; lia).
    assert ((m + n <? 1)%Z = false) as -> by (apply Z.ltb_ge; lia).
    unfold mbind, M_bind.
    destruct (undoStep handleEdit w) as [[] w1|w1]; [|done].
    destruct (Z.ltb_spec 1 m) as [H1|H1].
    + assert ((1 <? m + n)%Z = true) as -> by (apply Z.ltb_lt; lia).
      replace (m + n - 1)%Z with ((m - 1) + n)%Z by lia.
      apply (IH (m - 1)%Z); lia.
    + assert (m = 1%Z) as -> by lia. simpl.
      destruct (Z.ltb_spec 1 (1 + n)) as [H2|H2].
      * by replace (1 + n - 1)%Z with n by lia.
      * apply undo_noop. right. lia.
Qed.

Lemma redo_redo (m n : Z) w :
  (0 ≤ m)%Z → (0 ≤ n)%Z →
  (redo handleEdit m ;; redo handleEdit n) w = redo handleEdit (m + n) w.
Proof.
  intros Hm Hn. remember (Z.to_nat m) as k eqn:Ek.
  revert m w Hm Ek. induction k as [|k IH]; intros m w Hm Ek.
  - assert (m = 0%Z) as -> by lia.
    erewrite bind_Normal; [|apply redo_noop; right; lia]. done.
  - unfold mbind at 1, M_bind at 1.
    rewrite (redo_unfold _ m), (redo_unfold _ (m + n)).
    destruct (canRedo w) eqn:Hc; simpl.
    2:{ rewrite redo_unfold, Hc. done. }
    assert ((m <? 1)%Z = false) as -> by (apply Z.ltb_ge; lia).
    assert ((m + n <? 1)%Z = false) as -> by (apply Z.ltb_ge; lia).
    unfold mbind, M_bind.
    destruct (redoStep handleEdit w) as [[] w1|w1]; [|done].
    destruct (Z.ltb_spec 1 m) as [H1|H1].
    + assert ((1 <? m + n)%Z = true) as -> by (apply Z.ltb_lt; lia).
      replace (m + n - 1)%Z with ((m - 1) + n)%Z by lia.
      apply (IH (m - 1)%Z); lia.
    + assert (m = 1%Z) as -> by lia. simpl.
      destruct (Z.ltb_spec 1 (1 + n)) as [H2|H2].
      * by replace (1 + n - 1)%Z with n by lia.
      * apply redo_noop. right. lia.
Qed.

(** [undo(m)] followed by [undo(n)] is [undo(m + n)], and [redo(m)]
    followed by [redo(n)] is [redo(m + n)], for counts that are not
    negative: the same final state, and a throw at the same edit. *)
Theorem undo_redo_counts_add (m n : Z) w :
  (0 ≤ m)%Z → (0 ≤ n)%Z →
  (undo handleEdit m ;; undo handleEdit n) w = undo handleEdit (m + n) w ∧
  (redo handleEdit m ;; redo handleEdit n) w = redo handleEdit (m + n) w.
Proof. intros Hm Hn. split; [by apply undo_undo | by apply redo_redo]. Qed.

Lemma forEach_replay_total (move : Z) (f : LogEntry.t → Edit)
  (l : list LogEntry.t) w :
  (∀ e d, returned (handleEdit e d) = true) →
  ∃ w', forEach (λ e, replay handleEdit move (f e)) l w = Normal tt w' ∧
    history w' = history w ∧
    editCount w' = (editCount w + move * Z.of_nat (length l))%Z.
Proof.
  intros Htot. revert w. induction l as [|e l IH]; intros w.
  - exists w. simpl. split; [done|]. split; [done | lia].
  - simpl.
    assert (∃ w1, replay handleEdit move (f e) w = Normal tt w1 ∧
                  history w1 = history w ∧
                  editCount w1 = (editCount w + move)%Z) as (w1 & R & Hh & Hc).
    { specialize (Htot (f e) (dom w)).
      destruct w. unfold replay, mbind, M_bind, modify, onDom. simpl in *.
      destruct (handleEdit (f e) _); [|done]. by eexists. }
    destruct (IH w1) as (w' & R' & Hh' & Hc').
    exists w'. rewrite (bind_Normal _ _ _ _ _ R). split; [done|].
    split; [congruence|]. rewrite Hc', Hc. lia.
Qed.

(** With an engine that applies every edit, [undo(n)] moves the cursor down
    by [n], or to the start of the log when fewer than [n] edits are below
    it, and [redo(n)] moves it up by [n], or to the end of the log; both
    return and leave the log as it was. *)
Theorem undo_redo_reach (n : Z) w :
  (∀ e d, returned (handleEdit e d) = true) →
  cursorInRange w →
  (0 ≤ n)%Z →
  (∃ w', undo handleEdit n w = Normal tt w' ∧
     history w' = history w ∧
     editCount w' = Z.max 0 (editCount w - n)) ∧
  (∃ w', redo handleEdit n w = Normal tt w' ∧
     history w' = history w ∧
     editCount w' = Z.min (Z.of_nat (length (history w))) (editCount w + n)).
Proof.
  intros Htot [H0 Hlen] Hn.
  rewrite undo_replay, redo_replay by done. split.
  - destruct (forEach_replay_total (-1) LogEntry.undo (undone n w) w Htot)
      as (w' & R & Hh & Hc).
    exists w'. split; [done|]. split; [done|]. rewrite Hc. unfold undone.
    rewrite length_take, length_reverse, length_take. lia.
  - destruct (forEach_replay_total 1 LogEntry.redo (redone n w) w Htot)
      as (w' & R & Hh & Hc).
    exists w'. split; [done|]. split; [done|]. rewrite Hc. unfold redone.
    rewrite length_take, length_drop. lia.
Qed.

Lemma undoWith_Number (fuel : nat) (n : Z) w :
  undoWith handleEdit fuel (Number n) w = undoLoop handleEdit fuel n w.
Proof.
  revert n w. induction fuel as [|fuel IH]; intros n w; simpl;
    unfold mbind, M_bind; destruct (gets canUndo w) as [ok w'|]; try done;
    destruct (negb ok || (n <? 1)%Z); try done;
    destruct (undoStep handleEdit w') as [[] w''|]; try done;
    destruct (1 <? n)%Z; try done; apply IH.
Qed.

Lemma redoWith_Number (fuel : nat) (n : Z) w :
  redoWith handleEdit fuel (Number n) w = redoLoop handleEdit fuel n w.
Proof.
  revert n w. induction fuel as [|fuel IH]; intros n w; simpl;
    unfold mbind, M_bind; destruct (gets canRedo w) as [ok w'|]; try done;
    destruct (negb ok || (n <? 1)%Z); try done;
    destruct (redoStep handleEdit w') as [[] w''|]; try done;
    destruct (1 <? n)%Z; try done; apply IH.
Qed.

(** The Undo and Redo buttons of the log dialog call [undo] and [redo]
    with the click event for [n].  The event is neither below nor above 1,
    so one entry is undone or redone, as by [undo(1)] and [redo(1)].  For a
    number the methods are the ones modelled above. *)
Theorem log_buttons_step_once w :
  undo_clicked handleEdit w = undo handleEdit 1 w ∧
  redo_clicked handleEdit w = redo handleEdit 1 w ∧
  (∀ n, undoWith handleEdit (Z.to_nat n) (Number n) w = undo handleEdit n w) ∧
  (∀ n, redoWith handleEdit (Z.to_nat n) (Number n) w = redo handleEdit n w).
Proof.
  split; [|split; [|split]].
  - rewrite undo_unfold. unfold undo_clicked. simpl.
    unfold mbind, M_bind, gets. simpl.
    destruct (canUndo w); [|done]. simpl.
    by destruct (undoStep handleEdit w) as [[] ?|?].
  - rewrite redo_unfold. unfold redo_clicked. simpl.
    unfold mbind, M_bind, gets. simpl.
    destruct (canRedo w); [|done]. simpl.
    by destruct (redoStep handleEdit w) as [[] ?|?].
  - intros n. apply undoWith_Number.
  - intros n. apply redoWith_Number.
Qed.

(** A commit followed by [undo()] and [redo()], when the inverse the engine
    returned restores the document: the undo brings back the document and
    the cursor of before the commit and keeps the new entry, and the redo
    ends in the very state the commit had left. *)
Theorem commit_undo_redo w (e inverse x : Edit) (d' : Dom) :
  cursorInRange w →
  handleEdit e (dom w) = Normal inverse d' →
  handleEdit inverse d' = Normal x (dom w) →
  ∃ w1 w2,
    handleEditEvent handleEdit (newEditEventV1 e) w = Normal tt w1 ∧
    undo handleEdit 1 w1 = Normal tt w2 ∧
    dom w2 = dom w ∧
    editCount w2 = editCount w ∧
    history w2 = history w1 ∧
    canRedo w2 = true ∧
    redo handleEdit 1 w2 = Normal tt w1.
Proof.
  intros [H0 Hlen] He Hinv.
  destruct (commit_fields handleEdit w e inverse d' H0 He)
    as (w1 & R1 & Hh1 & Hc1 & Hd1).
  assert (index (history w1) (editCount w) = Some (LogEntry.mk inverse e))
    as Hi.
  { pose proof (index_app_new (take (Z.to_nat (editCount w)) (history w))
                  (LogEntry.mk inverse e)) as Hx.
    rewrite length_take in Hx.
    replace (Z.of_nat (Z.to_nat (editCount w) `min` length (history w)))
      with (editCount w) in Hx by lia.
    by rewrite Hh1. }
  set (w2 := set_editCount (editCount w1 - 1) (set_dom (dom w) w1)).
  assert (undo handleEdit 1 w1 = Normal tt w2) as R2.
  { eapply (undo_fields handleEdit w1 (LogEntry.mk inverse e)).
    - unfold canUndo, last. apply Z.leb_le. lia.
    - by replace (editCount w1 - 1)%Z with (editCount w) by lia.
    - simpl. by rewrite Hd1. }
  assert (dom w2 = dom w ∧ editCount w2 = editCount w ∧
          history w2 = history w1) as (Hd2 & Hc2 & Hh2).
  { subst w2. destruct w1; simpl in *. repeat split; lia. }
  assert (canRedo w2 = true) as Hcan.
  { unfold canRedo. apply Z.ltb_lt. rewrite Hh2, Hh1, length_app, length_take.
    simpl. lia. }
  exists w1, w2. repeat split; try done.
  rewrite (redo_fields handleEdit w2 (LogEntry.mk inverse e) inverse d');
    [|done| by rewrite Hh2, Hc2 | simpl; by rewrite Hd2].
  f_equal. subst w2. destruct w1; simpl in *. f_equal; [lia | done].
Qed.

End Replays.

(** ** What the element renders *)

Section Rendering.

Context {Dom XMLDocument PluginModule : Type}.
Context `{!Exported PluginModule}.
Variable handleEdit : Edit → M Dom Edit.
Variable cyrb64 : string → string.
Variable resolveURL : string → option string.
Variable msg : string → string → string.

Local Abbreviation World := (@OpenSCD Dom XMLDocument PluginModule).
Local Abbreviation run' := (run handleEdit cyrb64 resolveURL).
Local Abbreviation sameRegistry :=
  (@sameRegistry Dom XMLDocument PluginModule).
Local Abbreviation tagsCoherent :=
  (@tagsCoherent Dom XMLDocument PluginModule cyrb64).
Local Abbreviation loadedCoherent :=
  (@loadedCoherent Dom XMLDocument PluginModule cyrb64).
Local Abbreviation sameButTags := (@sameButTags Dom XMLDocument PluginModule).
Local Abbreviation rendered :=
  (@rendered Dom XMLDocument PluginModule cyrb64).
Implicit Types w : World.

Lemma tagOf_coherent w (uri : string) :
  tagsCoherent w → tagOf cyrb64 w uri = "oscd-p" +:+ cyrb64 uri.
Proof.
  intros H. unfold tagOf. destruct (pluginTags w !! uri) eqn:E; [|done].
  simpl. by apply H.
Qed.

Lemma cached_tagsCoherent w (uri : string) :
  tagsCoherent w → tagsCoherent (cached cyrb64 uri w).
Proof.
  intros H. pose proof (pluginTag_tagsCoherent cyrb64 uri w) as Hp.
  rewrite pluginTag_cached in Hp. by apply Hp.
Qed.

Lemma customElements_get_app (tagName : string)
  (l k : list (string * PluginModule)) :
  is_Some (customElements_get tagName l) →
  is_Some (customElements_get tagName (l ++ k)).
Proof.
  unfold customElements_get. intros [c H].
  induction l as [|[t v] l IH]; simpl in *; [done|].
  destruct (t =? tagName)%string; [by eexists | by apply IH].
Qed.

Lemma sameRegistry_loadedCoherent (P : Prop) w w' :
  sameRegistry w w' → loadedCoherent P w → loadedCoherent P w'.
Proof.
  intros (H1 & H2 & _ & H4 & H5 & H6).
  unfold loadedCoherent, tagsCoherent, loadedPlugins.
  by rewrite H1, H2, H4, H5, H6.
Qed.

(** A descriptor whose tag is defined but not loaded is recorded at once. *)
Lemma loadPlugin_defined w (kind : PluginKind) (plugin : Plugin)
  (c : PluginModule) :
  tagOf cyrb64 w (src plugin) ∉ priv_loadedPluginTagNames w →
  customElements_get (tagOf cyrb64 w (src plugin)) (customElements w) = Some c →
  loadPlugin cyrb64 resolveURL kind plugin w =
  Normal tt
    (set_loadedPluginTagNames
       (priv_loadedPluginTagNames w ++ [tagOf cyrb64 w (src plugin)])
       (set_loadedPlugins (kind_push kind plugin (priv_loadedPlugins w))
          (cached cyrb64 (src plugin) w))).
Proof.
  intros Hnot Hget. unfold loadPlugin.
  erewrite bind_Normal by apply pluginTag_cached.
  unfold addLoadedPlugin, requestUpdate, mbind, M_bind, gets, modify, cached.
  remember (tagOf cyrb64 w (src plugin)) as tag.
  destruct w; simpl in *.
  rewrite bool_decide_eq_false_2 by done. simpl. by rewrite Hget.
Qed.

Lemma kind_push_elem (kind k : PluginKind) (plugin p : Plugin) (ps : PluginSet) :
  p ∈ kind_of (kind_push kind plugin ps) k →
  p ∈ kind_of ps k ∨ p = plugin.
Proof.
  destruct kind, k; simpl; rewrite ?elem_of_app, ?list_elem_of_singleton; tauto.
Qed.

Lemma kind_push_length (kind : PluginKind) (plugin : Plugin) (ps : PluginSet) :
  length (menu (kind_push kind plugin ps)) +
  length (editor (kind_push kind plugin ps)) =
  S (length (menu ps) + length (editor ps)).
Proof. destruct kind; simpl; rewrite length_app; simpl; lia. Qed.

Lemma loadPlugin_coherent (P : Prop) w (kind : PluginKind) (plugin : Plugin) :
  loadedCoherent P w →
  loadedCoherent P (state_of (loadPlugin cyrb64 resolveURL kind plugin w)).
Proof.
  intros (Ht & Hi & Hl & Hd & Hn).
  pose proof (tagOf_coherent w (src plugin) Ht) as Htag.
  pose proof (cached_tagsCoherent w (src plugin) Ht) as Htc.
  destruct (decide (tagOf cyrb64 w (src plugin) ∈ priv_loadedPluginTagNames w))
    as [Hin|Hnot].
  { rewrite loadPlugin_skips by done. simpl.
    split; [done|]. unfold cached. by destruct w. }
  destruct (customElements_get (tagOf cyrb64 w (src plugin)) (customElements w))
    as [c|] eqn:Hget.
  - rewrite (loadPlugin_defined w kind plugin c) by done. simpl.
    unfold cached, loadedCoherent, tagsCoherent, loadedPlugins in *.
    rewrite Htag in *. destruct w; simpl in *.
    split; [done|]. split; [done|]. split; [|split].
    + intros k p Hp. apply kind_push_elem in Hp as [Hp| ->].
      * apply elem_of_app. left. by eapply Hl.
      * apply elem_of_app. right. by apply list_elem_of_singleton.
    + intros HP tag [Hin| ->%list_elem_of_singleton]%elem_of_app;
        [by apply Hd | by rewrite Hget].
    + rewrite length_app, kind_push_length. simpl. lia.
  - destruct (resolveURL (src plugin)) as [u|] eqn:Hu.
    + rewrite (loadPlugin_imports _ _ _ _ _ u) by done. simpl.
      unfold cached, loadedCoherent, tagsCoherent, loadedPlugins,
        importOf in *.
      rewrite Htag in *. destruct w; simpl in *.
      split; [done|]. split; [|done].
      intros i [Hin| ->%list_elem_of_singleton]%elem_of_app;
        [by apply Hi | done].
    + rewrite loadPlugin_unresolved by done. simpl.
      split; [done|]. unfold cached. by destruct w.
Qed.

Lemma forEach_state {S A} (I : S → Prop) (f : A → M S unit) (xs : list A) :
  (∀ x s, I s → I (state_of (f x s))) →
  ∀ s, I s → I (state_of (forEach f xs s)).
Proof.
  intros Hf. induction xs as [|x xs IH]; intros s Hs; simpl; [done|].
  unfold mbind, M_bind. specialize (Hf x s Hs).
  destruct (f x s) as [[] s'|s']; [by apply IH | done].
Qed.

Lemma set_plugins_coherent (P : Prop) (ps : PartialPluginSet) w :
  loadedCoherent P w →
  loadedCoherent P (state_of (set_plugins cyrb64 resolveURL ps w)).
Proof.
  intros Hw. unfold set_plugins, mbind, M_bind.
  pose proof (forEach_state (loadedCoherent P)
                (λ kv, forEach (loadPlugin cyrb64 resolveURL (fst kv)) (snd kv))
                ps) as Hf.
  specialize (Hf (λ kv s Hs,
                    forEach_state (loadedCoherent P) _ (snd kv)
                      (λ p s', loadPlugin_coherent P s' (fst kv) p) s Hs) w Hw).
  destruct (forEach _ ps w) as [[] w1|w1]; simpl in *; [|done].
  unfold modify. simpl. by destruct w1.
Qed.

Lemma importThen_coherent (P : Prop) w (i : Import) (c : PluginModule) :
  then_tagName i = "oscd-p" +:+ cyrb64 (src (then_plugin i)) →
  loadedCoherent P w →
  (P → returned (importThen i c w) = true) →
  loadedCoherent P (state_of (importThen i c w)).
Proof.
  intros Htag (Ht & Hi & Hl & Hd & Hn) Hret.
  assert (∀ k p,
            p ∈ kind_of (kind_push (then_pluginType i) (then_plugin i)
                           (priv_loadedPlugins w)) k →
            "oscd-p" +:+ cyrb64 (src p) ∈
              priv_loadedPluginTagNames w ++ [then_tagName i]) as Hl'.
  { intros k p Hp. apply kind_push_elem in Hp as [Hp| ->].
    - apply elem_of_app. left. by eapply Hl.
    - apply elem_of_app. right. rewrite <- Htag.
      by apply list_elem_of_singleton. }
  destruct (customElements_get (then_tagName i) (customElements w))
    as [c'|] eqn:Hget.
  - rewrite (importThen_bound w i c c') by done. simpl.
    unfold loadedCoherent, tagsCoherent, loadedPlugins in *.
    destruct w; simpl in *.
    split; [done|]. split; [done|]. split; [done|split].
    + intros HP tag [Hin| ->%list_elem_of_singleton]%elem_of_app;
        [by apply Hd | by rewrite Hget].
    + rewrite length_app, kind_push_length. simpl. lia.
  - destruct (definable (then_tagName i) c) eqn:Hdef.
    + destruct (decide (c ∈ (customElements w).*2)) as [Hc|Hc].
      * rewrite importThen_refused in * by (done || by right). simpl.
        unfold loadedCoherent, tagsCoherent, loadedPlugins in *.
        destruct w; simpl in *.
        split; [done|]. split; [done|]. split; [done|split].
        -- intros HP. by specialize (Hret HP).
        -- rewrite length_app, kind_push_length. simpl. lia.
      * rewrite (importThen_defines w i c) by done. simpl.
        unfold loadedCoherent, tagsCoherent, loadedPlugins in *.
        destruct w; simpl in *.
        split; [done|]. split; [done|]. split; [done|split].
        -- intros HP tag [Hin| ->%list_elem_of_singleton]%elem_of_app.
           ++ by apply customElements_get_app, Hd.
           ++ rewrite customElements_get_snoc by done. by eexists.
        -- rewrite length_app, kind_push_length. simpl. lia.
    + rewrite importThen_refused in * by (done || by left). simpl.
      unfold loadedCoherent, tagsCoherent, loadedPlugins in *.
      destruct w; simpl in *.
      split; [done|]. split; [done|]. split; [done|split].
      * intros HP. by specialize (Hret HP).
      * rewrite length_app, kind_push_length. simpl. lia.
Qed.

Lemma settle_coherent (P : Prop) (k : nat) (result : option PluginModule) w :
  loadedCoherent P w →
  (P → returned (settle k result w) = true) →
  loadedCoherent P (state_of (settle k result w)).
Proof.
  intros Hw. unfold settle, mbind, M_bind, gets, modify.
  destruct (imports w !! k) as [i|] eqn:Ei; [|done].
  destruct (settled i) eqn:Es; [done|].
  assert (loadedCoherent P
            (set_imports (<[k:=settledImport i]> (imports w)) w)) as Hw'.
  { destruct Hw as (Ht & Hi & Hl & Hd & Hn).
    unfold loadedCoherent, tagsCoherent, loadedPlugins in *.
    destruct w; simpl in *. split; [done|]. split; [|done].
    intros j Hj. apply list_elem_of_lookup in Hj as [n Hj].
    destruct (decide (n = k)) as [->|Hne].
    - rewrite list_lookup_insert_eq in Hj by by eapply lookup_lt_Some.
      injection Hj as <-. simpl. apply Hi. by eapply list_elem_of_lookup_2.
    - rewrite list_lookup_insert_ne in Hj by done.
      apply Hi. by eapply list_elem_of_lookup_2. }
  destruct result as [c|]; [|done].
  intros Hret. apply importThen_coherent; [|done|done].
  destruct Hw as (_ & Hi & _). apply Hi. by eapply list_elem_of_lookup_2.
Qed.

Lemma run_coherent (P : Prop) (actions : list Action) w :
  loadedCoherent P w →
  (P → callbacksReturn handleEdit cyrb64 resolveURL actions w = true) →
  loadedCoherent P (run' actions w).
Proof.
  revert w. induction actions as [|a actions IH]; intros w Hw Hret; [done|].
  simpl in Hret.
  assert (P → callbacksReturn handleEdit cyrb64 resolveURL actions
                (step handleEdit cyrb64 resolveURL w a) = true) as Hrest.
  { intros HP. by destruct (andb_prop _ _ (Hret HP)). }
  apply IH; [|done].
  pose proof (step_sameRegistry_or handleEdit cyrb64 resolveURL a w) as Hs.
  destruct a; try by eapply sameRegistry_loadedCoherent.
  - by apply set_plugins_coherent.
  - apply settle_coherent; [done|].
    intros HP. by destruct (andb_prop _ _ (Hret HP)).
Qed.

Lemma initial_coherent (P : Prop) (d : Dom)
  (registry : list (string * PluginModule)) :
  loadedCoherent P (initial d registry).
Proof.
  split; [|split; [|split; [|split]]]; simpl.
  - intros uri tag. simpl. by rewrite lookup_empty.
  - by intros i ?%elem_of_nil.
  - by intros [] p ?%elem_of_nil.
  - by intros _ tag ?%elem_of_nil.
  - done.
Qed.

(** From a fresh element on, in a page with any custom elements defined
    and however the imports settle: the tag [pluginTag] returns for the
    locator of a loaded plugin is on the list of loaded tags, and the list
    of loaded tags has one entry for each loaded plugin.  When no callback
    of an import has thrown, that is when every fulfilled import delivered
    a class that [customElements.define] accepted, that tag is a defined
    custom element as well. *)
Theorem loaded_plugins_are_defined (d : Dom)
  (registry : list (string * PluginModule)) (actions : list Action) :
  let w := run' actions (initial d registry) in
  (∀ kind p, p ∈ kind_of (loadedPlugins w) kind →
     ∃ tag w',
       pluginTag cyrb64 (src p) w = Normal tag w' ∧
       tag ∈ priv_loadedPluginTagNames w ∧
       (callbacksReturn handleEdit cyrb64 resolveURL actions
          (initial d registry) = true →
        ∃ c, customElements_get tag (customElements w) = Some c)) ∧
  length (priv_loadedPluginTagNames w) =
    length (menu (loadedPlugins w)) + length (editor (loadedPlugins w)).
Proof.
  intros w.
  destruct (run_coherent _ actions _ (initial_coherent _ d registry) id)
    as (Ht & _ & Hl & Hd & Hn).
  fold w in Ht, Hl, Hd, Hn. split; [|done].
  intros kind p Hp. specialize (Hl kind p Hp).
  exists ("oscd-p" +:+ cyrb64 (src p)), (cached cyrb64 (src p) w).
  split; [by rewrite pluginTag_cached, tagOf_coherent|]. split; [done|].
  intros Hret. by apply Hd.
Qed.


(** *** What the element renders *)

Lemma tagOf_cached_ne (uri uri' : string) w :
  tagOf cyrb64 (cached cyrb64 uri w) uri' = tagOf cyrb64 w uri'.
Proof.
  destruct (decide (uri = uri')) as [<-|Hne]; [apply tagOf_cached|].
  unfold tagOf, cached. destruct w; simpl. by rewrite lookup_insert_ne.
Qed.

Lemma mapM_renderedPlugin (kind : PluginKind) (l : list Plugin) w :
  ∃ w', mapM (renderedPlugin cyrb64 kind) l w =
          Normal (rendered w kind <$> l) w' ∧
    sameButTags w w' ∧
    (∀ uri, tagOf cyrb64 w' uri = tagOf cyrb64 w uri).
Proof.
  revert w. induction l as [|p l IH]; intros w; simpl.
  - exists w. split; [done|]. split; [by destruct w | done].
  - unfold renderedPlugin, rendered at 1.
    destruct (active p) as [[]|].
    + erewrite bind_Normal;
        [|erewrite bind_Normal by apply pluginTag_cached; reflexivity].
      destruct (IH (cached cyrb64 (src p) w)) as (w' & R & Hs & Ht').
      erewrite bind_Normal by exact R.
      exists w'. split; [|split].
      * do 2 f_equal. apply list_fmap_ext. intros _ q _.
        unfold rendered. by rewrite tagOf_cached_ne.
      * unfold sameButTags, cached in *. rewrite Hs at 1. by destruct w.
      * intros uri. by rewrite Ht', tagOf_cached_ne.
    + destruct (IH w) as (w' & R & Hs & Ht').
      erewrite bind_Normal by reflexivity. erewrite bind_Normal by exact R.
      by exists w'.
    + destruct (IH w) as (w' & R & Hs & Ht').
      erewrite bind_Normal by reflexivity. erewrite bind_Normal by exact R.
      by exists w'.
Qed.

Lemma mapM_pluginTag (l : list Plugin) w :
  ∃ w', mapM (λ plugin, pluginTag cyrb64 (src plugin)) l w =
          Normal ((λ plugin, tagOf cyrb64 w (src plugin)) <$> l) w' ∧
    sameButTags w w' ∧
    (∀ uri, tagOf cyrb64 w' uri = tagOf cyrb64 w uri).
Proof.
  revert w. induction l as [|p l IH]; intros w; simpl.
  - exists w. split; [done|]. split; [by destruct w | done].
  - erewrite bind_Normal by apply pluginTag_cached.
    destruct (IH (cached cyrb64 (src p) w)) as (w' & R & Hs & Ht').
    erewrite bind_Normal by exact R.
    exists w'. split; [|split].
    + do 2 f_equal. apply list_fmap_ext. intros _ q _.
      by rewrite tagOf_cached_ne.
    + unfold sameButTags, cached in *. rewrite Hs at 1. by destruct w.
    + intros uri. by rewrite Ht', tagOf_cached_ne.
Qed.

Lemma defined_rendered w (kind : PluginKind) (l : list Plugin)
  (e : Control.t World) :
  e ∈ defined (rendered w kind <$> l) →
  ∃ p, p ∈ l ∧ active p = Some true ∧ rendered w kind p = Some e.
Proof.
  unfold defined. rewrite list_elem_of_omap. intros (o & Ho & He).
  apply list_elem_of_fmap in Ho as (p & -> & Hp). simpl in He.
  exists p. split; [done|]. split; [|done].
  unfold rendered in He. by destruct (active p) as [[]|].
Qed.

Lemma defined_rendered_length w (kind : PluginKind) (l : list Plugin) :
  length (defined (rendered w kind <$> l)) =
  length (filter (λ p, active p = Some true) l).
Proof.
  induction l as [|p l IH]; [done|].
  rewrite fmap_cons. unfold defined in *. cbn [omap list_omap].
  destruct (rendered w kind p) as [e|] eqn:E; unfold rendered in E;
    destruct (active p) as [[]|] eqn:Ea; try discriminate; simpl.
  - rewrite filter_cons_True by done. simpl. by f_equal.
  - by rewrite filter_cons_False by (by rewrite Ea).
  - by rewrite filter_cons_False by (by rewrite Ea).
Qed.

Lemma get_editors_returns w :
  ∃ w', get_editors cyrb64 w =
          Normal (defined (rendered w Editor <$> editor (loadedPlugins w))) w' ∧
    sameButTags w w'.
Proof.
  unfold get_editors.
  destruct (mapM_renderedPlugin Editor (editor (loadedPlugins w)) w)
    as (w' & R & Hs & _).
  exists w'. split; [|done].
  erewrite bind_Normal by reflexivity. by erewrite bind_Normal by exact R.
Qed.

Lemma get_menu_returns w :
  ∃ w', get_menu cyrb64 msg w =
          Normal (defined (rendered w Menu <$> menu (loadedPlugins w))
                    ++ priv_actions msg) w' ∧
    sameButTags w w'.
Proof.
  unfold get_menu.
  destruct (mapM_renderedPlugin Menu (menu (loadedPlugins w)) w)
    as (w' & R & Hs & _).
  exists w'. split; [|done].
  erewrite bind_Normal by reflexivity. by erewrite bind_Normal by exact R.
Qed.

(** From a fresh element on: the getters [editors] and [menu] and the tags
    of [<aside>] return without a throw and change nothing but the tag
    cache.  [editors] has one control for each active loaded editor plugin,
    [menu] one for each active loaded menu plugin followed by the controls
    of undo, redo and the log, and [<aside>] one tag for each loaded menu
    plugin.  [editor] is the tag of the control of [editors] at
    [editorIndex], or empty when there is none.  When no callback of an
    import has thrown, every tag among them is a defined custom element. *)
Theorem rendered_tags_are_defined (d : Dom)
  (registry : list (string * PluginModule)) (actions : list Action) :
  let w := run' actions (initial d registry) in
  let bound tag :=
    callbacksReturn handleEdit cyrb64 resolveURL actions (initial d registry)
      = true →
    is_Some (customElements_get tag (customElements w)) in
  (∃ es w', get_editors cyrb64 w = Normal es w' ∧ sameButTags w w' ∧
     length es =
       length (filter (λ p, active p = Some true) (editor (loadedPlugins w))) ∧
     (∀ e, e ∈ es → ∃ tag, Control.tagName e = Some tag ∧ bound tag) ∧
     (∀ i, ∃ w'', get_editor cyrb64 i w =
                    Normal (default "" (e ← index es i ; Control.tagName e)) w'')) ∧
  (∃ items w', get_menu cyrb64 msg w =
                 Normal (items ++ [control_undo msg; control_redo msg;
                                   control_log msg]) w' ∧
     sameButTags w w' ∧
     length items =
       length (filter (λ p, active p = Some true) (menu (loadedPlugins w))) ∧
     (∀ e, e ∈ items → ∃ tag, Control.tagName e = Some tag ∧ bound tag)) ∧
  (∃ tags w', aside_tags cyrb64 w = Normal tags w' ∧ sameButTags w w' ∧
     length tags = length (menu (loadedPlugins w)) ∧
     ∀ tag, tag ∈ tags → bound tag).
Proof.
  intros w bound.
  destruct (run_coherent _ actions _ (initial_coherent _ d registry) id)
    as (Ht & _ & Hl & Hd & _).
  fold w in Ht, Hl, Hd.
  assert (∀ kind (e : Control.t World),
            e ∈ defined (rendered w kind <$> kind_of (loadedPlugins w) kind) →
            ∃ tag, Control.tagName e = Some tag ∧ bound tag) as Hdef.
  { intros kind e He.
    apply defined_rendered in He as (p & Hp & Ha & He).
    unfold rendered in He. rewrite Ha in He. injection He as <-.
    eexists. split; [reflexivity|]. rewrite tagOf_coherent by done.
    intros Hret. by eapply Hd, Hl. }
  split; [|split].
  - destruct (get_editors_returns w) as (w' & R & Hs).
    eexists _, w'. split; [exact R|]. split; [done|].
    split; [apply defined_rendered_length|].
    split; [apply (Hdef Editor)|].
    intros i. unfold get_editor. erewrite bind_Normal by exact R. by eexists.
  - destruct (get_menu_returns w) as (w' & R & Hs).
    eexists _, w'. split; [exact R|]. split; [done|].
    split; [apply defined_rendered_length|]. apply (Hdef Menu).
  - unfold aside_tags.
    destruct (mapM_pluginTag (menu (loadedPlugins w)) w) as (w' & R & Hs & _).
    eexists _, w'. split; [by erewrite bind_Normal by reflexivity|].
    split; [done|]. split; [by rewrite length_fmap|].
    intros tag (p & -> & Hp)%list_elem_of_fmap.
    rewrite tagOf_coherent by done. intros Hret. by apply Hd, (Hl Menu).
Qed.

(** *** Tabs and editors *)

Lemma pluginTag_docName (uri : string) w :
  docName (state_of (pluginTag cyrb64 uri w)) = docName w ∧
  editor (loadedPlugins (state_of (pluginTag cyrb64 uri w))) =
    editor (loadedPlugins w).
Proof. rewrite pluginTag_cached. unfold cached. by destruct w. Qed.

Lemma filter_all {A} (P : A → Prop) `{!∀ x, Decision (P x)} (l : list A) :
  (∀ x, x ∈ l → P x) → filter P l = l.
Proof.
  induction l as [|x l IH]; intros Hall; [done|].
  rewrite filter_cons_True by (apply Hall; left). f_equal. apply IH.
  intros y Hy. apply Hall. by right.
Qed.

Lemma sameButTags_docName w w' : sameButTags w w' → docName w' = docName w.
Proof. unfold sameButTags. intros ->. by destruct w. Qed.

Lemma isEditable_nonempty w (name : string) :
  isEditable w name = true → name ≠ ""%string.
Proof.
  intros H ->. unfold isEditable in H.
  destruct (find _ (editable w)) as [ext|] eqn:F; [|done].
  apply find_some in F as [_ F]. simpl in F. done.
Qed.

(** Once an editable document has been opened, no plugin control is
    disabled: the tab bar has a tab for every control of [editors], in the
    same order, and [editor] for the index of a tab is the tag of that
    tab. *)
Theorem open_enables_every_tab w (name : string) (doc : XMLDocument) :
  isEditable w name = true →
  let w1 := state_of (handleOpenDoc name doc w) in
  (∀ plugin, pluginDisabled plugin w1 = false) ∧
  ∃ es w', get_editors cyrb64 w1 = Normal es w' ∧
    tabs cyrb64 w1 = Normal es w' ∧
    ∀ i, get_editor cyrb64 i w1 =
         Normal (default "" (e ← index es i ; Control.tagName e)) w'.
Proof.
  intros He w1.
  assert (docName w1 = name) as Hn.
  { subst w1. unfold handleOpenDoc, requestUpdate, mbind, M_bind, modify, gets.
    simpl. rewrite isEditable_set_docs, He. by destruct w. }
  assert (∀ w2 plugin, docName w2 = name → pluginDisabled plugin w2 = false)
    as Hdis.
  { intros w2 plugin Hw2. unfold pluginDisabled. rewrite Hw2.
    destruct (requireDoc plugin) as [[]|]; try done.
    unfold truthy. apply isEditable_nonempty in He.
    destruct (String.eqb_spec name "") as [->|_]; done. }
  split; [intros plugin; by apply Hdis|].
  destruct (get_editors_returns w1) as (w' & R & Hs).
  eexists _, w'. split; [exact R|]. split.
  - unfold tabs. erewrite bind_Normal by exact R.
    erewrite bind_Normal by reflexivity. unfold mret, M_ret. f_equal.
    apply filter_all. intros e. unfold defined.
    rewrite list_elem_of_omap. intros (o & (p & -> & Hp)%list_elem_of_fmap & Ho).
    simpl in Ho. unfold rendered in Ho.
    destruct (active p) as [[]|]; try done. injection Ho as <-. simpl.
    apply Hdis. by rewrite (sameButTags_docName _ _ Hs).
  - intros i. unfold get_editor. by erewrite bind_Normal by exact R.
Qed.

(** With no document open, an active editor plugin that requires one gets
    no tab but keeps its place in [editors].  When it comes first and the
    plugin after it is active and requires no document, the first tab is
    the tab of that second plugin, while [editor] for index 0 is the tag of
    the first. *)
Theorem disabled_editor_keeps_its_index w (p q : Plugin) (rest : list Plugin) :
  docName w = ""%string →
  editor (loadedPlugins w) = p :: q :: rest →
  active p = Some true → requireDoc p = Some true →
  active q = Some true → requireDoc q ≠ Some true →
  ∃ ts w' w'' tab,
    tabs cyrb64 w = Normal ts w' ∧
    ts !! 0%nat = Some tab ∧
    Control.tagName tab = Some (tagOf cyrb64 w (src q)) ∧
    get_editor cyrb64 0 w = Normal (tagOf cyrb64 w (src p)) w''.
Proof.
  intros Hn Hl Hap Hrp Haq Hrq.
  destruct (get_editors_returns w) as (w' & R & Hs).
  rewrite Hl in R. unfold defined in R. simpl in R.
  unfold rendered at 1 2 in R. rewrite Hap, Haq in R. simpl in R.
  eexists _, w', w', _. split; [|split; [|split]].
  - unfold tabs. erewrite bind_Normal by exact R.
    erewrite bind_Normal by reflexivity. reflexivity.
  - rewrite filter_cons_False.
    2:{ simpl. unfold pluginDisabled.
        rewrite Hrp, (sameButTags_docName _ _ Hs), Hn. done. }
    rewrite filter_cons_True.
    2:{ simpl. unfold pluginDisabled. by destruct (requireDoc q) as [[]|]. }
    reflexivity.
  - done.
  - unfold get_editor. by erewrite bind_Normal by exact R.
Qed.

(** *** A tag that is defined but not loaded *)

(** Two descriptors with the same locator, of any kinds, assigned together
    while the tag of the locator is a defined custom element that the
    element has not loaded: the first is recorded at once, without an
    import, and the second is skipped. *)
Theorem same_src_defined_loaded_once w (ps : PartialPluginSet)
  (kp kq : PluginKind) (p q : Plugin) (c : PluginModule) :
  descriptors ps = [(kp, p); (kq, q)] →
  src p = src q →
  let tag := tagOf cyrb64 w (src p) in
  tag ∉ priv_loadedPluginTagNames w →
  customElements_get tag (customElements w) = Some c →
  ∃ w1, set_plugins cyrb64 resolveURL ps w = Normal tt w1 ∧
    imports w1 = imports w ∧
    loadedPlugins w1 = kind_push kp p (loadedPlugins w) ∧
    priv_loadedPluginTagNames w1 = priv_loadedPluginTagNames w ++ [tag] ∧
    customElements w1 = customElements w ∧
    plugins w1 = spread ps.
Proof.
  intros Hps Hsrc tag Hnot Hget.
  unfold set_plugins. unfold mbind at 1, M_bind at 1.
  rewrite forEach_descriptors, Hps. simpl.
  erewrite bind_Normal by by apply (loadPlugin_defined w kp p c).
  set (wa := set_loadedPluginTagNames _ _).
  assert (tagOf cyrb64 wa (src q) = tag) as Htag.
  { subst wa tag. rewrite <- Hsrc. unfold tagOf, cached.
    destruct w; simpl. by rewrite lookup_insert_eq. }
  erewrite bind_Normal.
  2:{ apply loadPlugin_skips. rewrite Htag. subst wa.
      destruct w; simpl. apply elem_of_app. right.
      by apply list_elem_of_singleton. }
  simpl. eexists. split; [reflexivity|].
  subst wa. unfold cached, plugins, loadedPlugins. by destruct w.
Qed.


Lemma forEach_loaded (l : list (PluginKind * Plugin)) w :
  (∀ d, d ∈ l → tagOf cyrb64 w (src (snd d)) ∈ priv_loadedPluginTagNames w) →
  ∃ w', forEach (λ d, loadPlugin cyrb64 resolveURL (fst d) (snd d)) l w =
          Normal tt w' ∧ sameButTags w w'.
Proof.
  revert w. induction l as [|[k p] l IH]; intros w Hl; simpl.
  - exists w. split; [done|]. by destruct w.
  - assert (tagOf cyrb64 w (src p) ∈ priv_loadedPluginTagNames w) as Hp
      by (apply (Hl (k, p)); left).
    rewrite (bind_Normal _ _ _ _ _
               (loadPlugin_skips cyrb64 resolveURL w k p Hp)).
    destruct (IH (cached cyrb64 (src p) w)) as (w' & R & Hs).
    + intros d Hd. rewrite tagOf_cached_ne.
      replace (priv_loadedPluginTagNames (cached cyrb64 (src p) w))
        with (priv_loadedPluginTagNames w) by (unfold cached; by destruct w).
      apply Hl. by right.
    + exists w'. split; [done|].
      unfold sameButTags, cached in *. rewrite Hs at 1. by destruct w.
Qed.

(** Assigning plugins that are all loaded already starts no import, loads
    nothing and leaves the custom elements alone: only the declared set is
    replaced. *)
Theorem reassigning_loaded_plugins w (ps : PartialPluginSet) :
  (∀ kind plugin, (kind, plugin) ∈ descriptors ps →
     tagOf cyrb64 w (src plugin) ∈ priv_loadedPluginTagNames w) →
  ∃ w', set_plugins cyrb64 resolveURL ps w = Normal tt w' ∧
    imports w' = imports w ∧
    loadedPlugins w' = loadedPlugins w ∧
    priv_loadedPluginTagNames w' = priv_loadedPluginTagNames w ∧
    customElements w' = customElements w ∧
    plugins w' = spread ps.
Proof.
  intros Hl. unfold set_plugins. unfold mbind at 1, M_bind at 1.
  rewrite forEach_descriptors.
  destruct (forEach_loaded (descriptors ps) w) as (w' & -> & Hs).
  { intros [k p] Hd. exact (Hl k p Hd). }
  eexists. split; [reflexivity|]. unfold modify. simpl.
  unfold sameButTags, plugins, loadedPlugins in *. rewrite Hs.
  by destruct w.
Qed.

End Rendering.

(** ** The file dialog *)

Section FileDialog.

Context {Dom Document PluginModule : Type}.
Local Abbreviation World := (@OpenSCD Dom (option Document) PluginModule).
Variable Object_keys : gmap string (option Document) → list string.
Hypothesis Object_keys_lists :
  ∀ m, NoDup (Object_keys m) ∧ ∀ name, name ∈ Object_keys m ↔ is_Some (m !! name).
Implicit Types w : World.

Lemma editableDocs_spec w (name : string) :
  name ∈ editableDocs Object_keys w ↔
  is_Some (docs w !! name) ∧ isEditable w name = true.
Proof.
  unfold editableDocs. rewrite list_elem_of_filter.
  destruct (Object_keys_lists (docs w)) as [_ H]. rewrite H. tauto.
Qed.

Lemma isEditable_truthy w (name : string) :
  isEditable w name = true → truthy name = true.
Proof.
  intros H. unfold truthy. destruct (String.eqb_spec name "") as [->|]; [|done].
  unfold isEditable in H.
  destruct (find _ (editable w)) as [ext|] eqn:F; [|done].
  apply find_some in F as [_ F]. simpl in F. done.
Qed.

Lemma editableDocs_set_docName w (v : string) :
  editableDocs Object_keys (set_docName v w) = editableDocs Object_keys w.
Proof. by destruct w. Qed.

(** Closing the file dialog with [remove] takes the current document out
    of [docs] and leaves every other document in.  The element then points
    to an editable document that is still loaded, or to none when no
    editable document is left; it never points to the document just
    closed.  Any other way of closing the dialog changes nothing. *)
Theorem closing_the_current_file w :
  (∃ w', editFile_closed Object_keys (Some "remove"%string) w = Normal tt w' ∧
     docs w' = delete (docName w) (docs w) ∧
     (docName w' = ""%string ∧ editableDocs Object_keys w' = [] ∨
      docName w' ≠ ""%string ∧ docName w' ≠ docName w ∧
      docName w' ∈ editableDocs Object_keys w' ∧
      is_Some (docs w !! docName w') ∧
      doc w' = docs w !! docName w')) ∧
  (∀ detail, detail ≠ Some "remove"%string →
             editFile_closed Object_keys detail w = Normal tt w).
Proof.
  split.
  - unfold editFile_closed, mbind, M_bind, modify, gets. simpl.
    set (w1 := set_docs (delete (docName w) (docs w)) w).
    eexists. split; [reflexivity|].
    assert (docs w1 = delete (docName w) (docs w)) as Hd by by destruct w.
    assert (∀ v, docs (set_docName v w1) = docs w1) as Hdv
      by (intros v; by destruct w1).
    assert (∀ v, editableDocs Object_keys (set_docName v w1) =
                 editableDocs Object_keys w1) as Hev.
    { intros v. apply editableDocs_set_docName. }
    assert (∀ v, docName (set_docName v w1) = v) as Hnv
      by (intros v; by destruct w1).
    rewrite Hdv, Hev, Hnv. split; [done|].
    destruct (editableDocs Object_keys w1) as [|name names] eqn:E; simpl.
    { by left. }
    assert (name ∈ editableDocs Object_keys w1) as Hin by (rewrite E; left).
    apply editableDocs_spec in Hin as [Hs He].
    rewrite (isEditable_truthy _ _ He). right.
    rewrite Hd in Hs. apply lookup_delete_is_Some in Hs as [Hne Hs].
    split.
    { intros ->. by apply isEditable_truthy in He. }
    split; [done|]. split; [left|]. split; [done|].
    unfold doc. rewrite Hdv, Hd, Hnv. by rewrite lookup_delete_ne.
  - intros [action|] Hd; [|done]. unfold editFile_closed.
    destruct (String.eqb_spec action "remove"); [congruence | done].
Qed.

(** The Rename button keeps the current document and changes its name: the
    document is stored under the new name, the old name is given up and
    every other document stays.  Nothing happens when the name field is
    not valid or when a document is loaded under the new name, the current
    name included.  The name field is valid for a name other than the
    current one only when nothing is stored under it. *)
Theorem renaming_the_current_file w (valid : bool) (value extension : string) :
  let newDocName := (value +:+ "." +:+ extension)%string in
  (valid = false ∨ (∃ d, docs w !! newDocName = Some (Some d)) →
   rename_clicked valid value extension w = Normal tt w) ∧
  (∀ d, valid = true → currentDoc w = Some d →
        (∀ d', docs w !! newDocName ≠ Some (Some d')) →
        ∃ w', rename_clicked valid value extension w = Normal tt w' ∧
          newDocName ≠ docName w ∧
          docName w' = newDocName ∧
          currentDoc w' = Some d ∧
          docs w' = <[newDocName := Some d]> (delete (docName w) (docs w)) ∧
          docs w' !! docName w = None) ∧
  (fileName_validity value extension w = true →
   newDocName ≠ docName w → docs w !! newDocName = None).
Proof.
  intros newDocName. split; [|split].
  - intros [->|[d Hd]]; [done|]. unfold rename_clicked.
    destruct valid; [|done]. simpl. unfold mbind, M_bind, gets.
    fold newDocName. by rewrite Hd.
  - intros d -> Hcur Hfree. unfold rename_clicked. simpl.
    unfold mbind, M_bind, gets, modify. fold newDocName.
    assert (newDocName ≠ docName w) as Hne.
    { intros Heq. unfold currentDoc, doc in Hcur. rewrite <- Heq in Hcur.
      destruct (docs w !! newDocName) as [[d'|]|] eqn:E; try done.
      by destruct (Hfree d'). }
    assert (∀ A (x : option (option Document)) (a b : A),
              (∀ d', x ≠ Some (Some d')) →
              (if x is Some (Some _) then a else b) = b) as Hif.
    { intros A [[d'|]|] a b H; try done. by destruct (H d'). }
    rewrite Hif by done. eexists. split; [reflexivity|].
    rewrite Hcur. unfold currentDoc, doc. destruct w; simpl in *.
    split; [done|]. split; [done|].
    rewrite lookup_delete_ne, lookup_insert_eq by done.
    split; [done|]. split.
    + by rewrite delete_insert_ne.
    + by rewrite lookup_delete_eq.
  - unfold fileName_validity. fold newDocName. intros Hv Hne.
    apply negb_true_iff, andb_false_iff in Hv as [Hv|Hv].
    + apply bool_decide_eq_false in Hv.
      destruct (docs w !! newDocName); [|done]. destruct Hv. by eexists.
    + apply negb_false_iff, String.eqb_eq in Hv. done.
Qed.

End FileDialog.

Section Opening.

Context {Dom XMLDocument PluginModule : Type}.
Local Abbreviation World := (@OpenSCD Dom XMLDocument PluginModule).
Implicit Types w : World.

(** After an open event the document is in [docs] under its name and no
    other name has changed.  [doc] is the opened document when the name is
    editable; when it is not, [doc] is what it was, unless the document was
    opened under the very name the element points to. *)
Theorem doc_after_open w (name : string) (d : XMLDocument) :
  let w' := state_of (handleOpenDoc name d w) in
  docs w' !! name = Some d ∧
  (∀ other, other ≠ name → docs w' !! other = docs w !! other) ∧
  (isEditable w name = true → doc w' = Some d) ∧
  (isEditable w name = false →
   doc w' = if decide (docName w = name) then Some d else doc w).
Proof.
  unfold handleOpenDoc, requestUpdate, mbind, M_bind, modify, gets. simpl.
  rewrite isEditable_set_docs.
  assert (∀ m : gmap string XMLDocument,
            <[name:=d]> m !! name = Some d ∧
            ∀ other, other ≠ name → <[name:=d]> m !! other = m !! other) as Hm.
  { intros m. rewrite lookup_insert_eq. split; [done|].
    intros other Ho. by rewrite lookup_insert_ne. }
  destruct (isEditable w name) eqn:He; unfold doc;
    destruct (decide (docName w = name)) as [Heq|Hne];
    destruct w as [h n ds dn ed lp lt pp dm pt ce im]; simpl in *;
    destruct (Hm ds) as [H1 H2]; rewrite ?H1;
    (split; [done|]); (split; [done|]); (split; [done|]); try done; intros _.
  - by rewrite Heq, H1.
  - by rewrite H2.
Qed.

End Opening.

(** ** The formatter of the code wizard *)

Section Formatting.
Import Pattern CodeWizard Layout.

Local Abbreviation matchB := (matchHere (atoms boundary) false).

Lemma space_not_lt (c : ascii) : space c = true → only "<" c = false.
Proof.
  intros H. unfold only. destruct (Ascii.eqb_spec "<"%char c) as [<-|]; [|done].
  by vm_compute in H.
Qed.

Lemma space_not_gt (c : ascii) : space c = true → only ">" c = false.
Proof.
  intros H. unfold only. destruct (Ascii.eqb_spec ">"%char c) as [<-|]; [|done].
  by vm_compute in H.
Qed.

Lemma matchHere_star (cls : ascii → bool) (rest : list Atom) (toEnd : bool)
  (s : list ascii) :
  matchHere (atom cls Star :: rest) toEnd s =
  match s with
  | c :: s' =>
      if cls c
      then match matchHere (atom cls Star :: rest) toEnd s' with
           | Some r => Some r
           | None => matchHere rest toEnd s
           end
      else matchHere rest toEnd s
  | [] => matchHere rest toEnd s
  end.
Proof. by destruct s. Qed.

Lemma spaces_then_lt (s : list ascii) :
  matchHere [atom space Star; atom (only "<") Once] false s =
  match pastSpaces s with
  | d :: r => if only "<" d then Some r else None
  | [] => None
  end.
Proof.
  induction s as [|c s IH]; [done|].
  rewrite matchHere_star. simpl pastSpaces.
  change (matchHere [atom (only "<") Once] false (c :: s))
    with (if only "<" c then Some s else None).
  destruct (space c) eqn:Hc; [|done].
  rewrite IH, (space_not_lt c Hc).
  destruct (pastSpaces s) as [|d r]; [done|]. by destruct (only "<" d).
Qed.

Lemma matchB_unfold (s : list ascii) :
  matchB s =
  match s with
  | c :: s' =>
      if only ">" c
      then match pastSpaces s' with
           | d :: r => if only "<" d then Some r else None
           | [] => None
           end
      else None
  | [] => None
  end.
Proof.
  destruct s as [|c s]; [done|].
  change (matchB (c :: s))
    with (if only ">" c
          then matchHere [atom space Star; atom (only "<") Once] false s
          else None).
  by rewrite spaces_then_lt.
Qed.

Lemma only_eq (c d : ascii) : only c d = true ↔ d = c.
Proof. unfold only. rewrite Ascii.eqb_eq. naive_solver. Qed.

Lemma pastSpaces_gap (g r : list ascii) :
  Forall (λ c, space c = true) g → pastSpaces (g ++ "<"%char :: r) = "<"%char :: r.
Proof. induction 1 as [|c g Hc _ IH]; simpl; [done|]. by rewrite Hc. Qed.

Lemma pastSpaces_split (s : list ascii) :
  ∃ g, Forall (λ c, space c = true) g ∧ s = g ++ pastSpaces s ∧
       length (pastSpaces s) ≤ length s.
Proof.
  induction s as [|c s (g & Hg & Hs & Hl)]; simpl.
  - exists []. by repeat split.
  - destruct (space c) eqn:Hc.
    + exists (c :: g). split; [by constructor|]. split; [simpl; by rewrite <- Hs|]. lia.
    + exists []. by repeat split.
Qed.

(** What a boundary is: [>], white space, [<]. *)
Lemma matchB_Some (s r : list ascii) :
  matchB s = Some r ↔
  ∃ g, Forall (λ c, space c = true) g ∧ s = ">"%char :: g ++ "<"%char :: r.
Proof.
  rewrite matchB_unfold. split.
  - destruct s as [|c s]; [done|].
    destruct (only ">" c) eqn:Hc; [|done]. apply only_eq in Hc as ->.
    destruct (pastSpaces_split s) as (g & Hg & Hs & _).
    destruct (pastSpaces s) as [|d r'] eqn:Hp; [done|].
    destruct (only "<" d) eqn:Hd; [|done]. apply only_eq in Hd as ->.
    intros [= ->]. exists g. split; [done|]. by f_equal.
  - intros (g & Hg & ->). simpl. by rewrite pastSpaces_gap.
Qed.


Lemma splitLoop_unfold (p : Pattern.t) (piece : list ascii) (c : ascii)
  (s : list ascii) :
  splitLoop p 0 piece (c :: s) =
  match matchHere (atoms p) (toEnd p) (c :: s) with
  | Some rest =>
      match length (c :: s) - length rest with
      | S k => piece :: splitLoop p k [] s
      | O =>
          if piece is [] then splitLoop p 0 [c] s
          else piece :: splitLoop p 0 [c] s
      end
  | None => splitLoop p 0 (piece ++ [c]) s
  end.
Proof. done. Qed.

Lemma splitLoop_skip (p : Pattern.t) (l r acc : list ascii) :
  splitLoop p (length l) acc (l ++ r) = splitLoop p 0 acc r.
Proof.
  induction l as [|c l IH]; simpl; [|done].
  by destruct r.
Qed.

Lemma splitLoop_gap (acc g r : list ascii) :
  blank g →
  splitLoop boundary 0 acc (">"%char :: g ++ "<"%char :: r) =
  acc :: splitLoop boundary 0 [] r.
Proof.
  intros Hg. rewrite splitLoop_unfold. change (toEnd boundary) with false.
  assert (matchB (">"%char :: g ++ "<"%char :: r) = Some r) as ->.
  { apply matchB_Some. by exists g. }
  replace (length (">"%char :: g ++ "<"%char :: r) - length r)
    with (S (length (g ++ ["<"%char]))).
  2:{ simpl. rewrite !length_app. simpl. lia. }
  f_equal. replace (g ++ "<"%char :: r) with ((g ++ ["<"%char]) ++ r).
  - apply splitLoop_skip.
  - by rewrite <- app_assoc.
Qed.

Lemma splitLoop_char (acc : list ascii) (c : ascii) (s : list ascii) :
  matchB (c :: s) = None →
  splitLoop boundary 0 acc (c :: s) = splitLoop boundary 0 (acc ++ [c]) s.
Proof.
  intros H. rewrite splitLoop_unfold. change (toEnd boundary) with false.
  by rewrite H.
Qed.

Lemma gt_not_space : space ">" = false.
Proof. done. Qed.

(** Whether a boundary starts in front of a [>] does not depend on what
    follows that [>]. *)
Lemma matchB_context (t v v' : list ascii) :
  t ≠ [] →
  matchB (t ++ ">"%char :: v) = None → matchB (t ++ ">"%char :: v') = None.
Proof.
  destruct t as [|c t]; [done|]. intros _.
  rewrite !matchB_unfold. simpl.
  destruct (only ">" c); [|done].
  induction t as [|d t IH]; simpl.
  - done.
  - destruct (space d); [done|]. by destruct (only "<" d).
Qed.

Lemma free_cons (c : ascii) (t : list ascii) :
  (∀ v, matchB (c :: t ++ ">"%char :: v) = None) → free t → free (c :: t).
Proof.
  intros H0 Ht [|j] v Hj; simpl; [apply H0|]. apply Ht. simpl in Hj. lia.
Qed.

Lemma free_tail (c : ascii) (t : list ascii) : free (c :: t) → free t.
Proof. intros H j v Hj. apply (H (S j) v). simpl. lia. Qed.

Lemma freeToEnd_tail (c : ascii) (t : list ascii) :
  freeToEnd (c :: t) → freeToEnd t.
Proof. intros H j Hj. apply (H (S j)). simpl. lia. Qed.

(** What [split] makes of a text: the text is its nodes joined by
    boundaries. *)
Lemma splitLoop_joined (s acc : list ascii) :
  ∃ t rest,
    s = joined t rest ∧
    splitLoop boundary 0 acc s = (acc ++ t) :: (snd <$> rest) ∧
    wellJoined t rest.
Proof.
  remember (length s) as n eqn:Hn. revert s acc Hn.
  induction n as [n IH] using lt_wf_ind. intros s acc ->.
  destruct s as [|c s].
  { exists [], []. split; [done|]. split; [by rewrite app_nil_r|].
    intros j Hj. simpl in Hj. lia. }
  destruct (matchB (c :: s)) as [r|] eqn:Hm.
  - apply matchB_Some in Hm as (g & Hg & Hs). injection Hs as -> ->.
    destruct (IH (length r) ltac:(simpl; rewrite length_app; simpl; lia)
                r [] eq_refl) as (q & rest & Hr & Hsplit & Hw).
    exists [], ((g, q) :: rest). split; [simpl; by rewrite <- Hr|].
    split.
    + rewrite splitLoop_gap by done. rewrite Hsplit, app_nil_r. done.
    + split; [|done]. intros j v Hj. simpl in Hj. lia.
  - destruct (IH (length s) ltac:(simpl; lia) s (acc ++ [c]) eq_refl)
      as (t & rest & Hs & Hsplit & Hw).
    exists (c :: t), rest. split; [|split].
    + subst s. by destruct rest as [|[g q] rest].
    + rewrite splitLoop_char by done. by rewrite Hsplit, <- app_assoc.
    + destruct rest as [|[g q] rest]; cbn [joined wellJoined] in Hs, Hw |- *.
      * subst s. intros [|j] Hj; [done|]. apply Hw. simpl in Hj. lia.
      * destruct Hw as (Hf & Hg & Hw). split; [|done].
        apply free_cons; [|done]. intros v. subst s.
        rewrite app_comm_cons in Hm. rewrite app_comm_cons.
        by eapply matchB_context.
Qed.

(** And back: nodes in which no boundary starts, joined by boundaries, are
    split into these nodes. *)
Lemma splitLoop_wellJoined (t : list ascii)
  (rest : list (list ascii * list ascii)) (acc : list ascii) :
  wellJoined t rest →
  splitLoop boundary 0 acc (joined t rest) = (acc ++ t) :: (snd <$> rest).
Proof.
  revert t acc. induction rest as [|[g q] rest IH]; intros t.
  - induction t as [|c t IHt]; intros acc Hw; cbn [joined wellJoined] in *.
    + by rewrite app_nil_r.
    + rewrite splitLoop_char by apply (Hw 0%nat ltac:(simpl; lia)).
      rewrite IHt by by eapply freeToEnd_tail. by rewrite <- app_assoc.
  - induction t as [|c t IHt]; intros acc (Hf & Hg & Hw);
      cbn [joined wellJoined app fmap list_fmap snd] in *.
    + rewrite splitLoop_gap by done. by rewrite IH, app_nil_r.
    + rewrite splitLoop_char by apply (Hf 0%nat _ ltac:(simpl; lia)).
      rewrite IHt by (split; [by eapply free_tail | done]).
      by rewrite <- app_assoc.
Qed.

Lemma split_boundary (s : list ascii) :
  split boundary s = splitLoop boundary 0 [] s.
Proof. by destruct s. Qed.

(** Other gaps between the same nodes. *)
Lemma wellJoined_gaps (t : list ascii) (rest : list (list ascii * list ascii))
  (gaps : list (list ascii)) :
  wellJoined t rest →
  Forall blank gaps →
  length gaps = length rest →
  wellJoined t (zip gaps (snd <$> rest)) ∧
  snd <$> zip gaps (snd <$> rest) = snd <$> rest.
Proof.
  revert t gaps. induction rest as [|[g q] rest IH]; intros t gaps Hw Hgaps Hl.
  - destruct gaps; [|done]. done.
  - destruct gaps as [|g' gaps]; [done|].
    destruct Hw as (Hf & Hg & Hw). apply Forall_cons in Hgaps as [Hg' Hgaps].
    destruct (IH q gaps Hw Hgaps ltac:(simpl in Hl; lia)) as [Hw' Hs].
    split; [done|]. rewrite !fmap_cons. cbn [zip zip_with]. rewrite fmap_cons.
    simpl. by f_equal.
Qed.


(** *** The layout of the formatted text *)

Lemma substringFrom_drop (n : nat) (s : list ascii) :
  substringFrom (Z.of_nat n) s = drop n s.
Proof.
  unfold substringFrom, substring.
  set (a := Z.min (Z.max (Z.of_nat n) 0) (Z.of_nat (length s))).
  set (b := Z.min (Z.max (Z.of_nat (length s)) 0) (Z.of_nat (length s))).
  replace (Z.to_nat (Z.min a b)) with (n `min` length s) by lia.
  replace (Z.to_nat (Z.max a b)) with (length s) by lia.
  destruct (Nat.le_gt_cases n (length s)) as [Hle|Hgt].
  - rewrite Nat.min_l by done. apply take_ge. rewrite length_drop. lia.
  - rewrite Nat.min_r by lia. rewrite Nat.sub_diag, take_0.
    by rewrite drop_ge by lia.
Qed.

Lemma substring_inner (c : ascii) (s e : list ascii) :
  length e = 3 →
  substring 1 (Z.of_nat (length (c :: s ++ e)) - 3) (c :: s ++ e) = s.
Proof.
  intros He. unfold substring.
  assert (length (c :: s ++ e) = S (length s + 3)) as Hl.
  { simpl. by rewrite length_app, He. }
  rewrite Hl.
  set (a := Z.min (Z.max 1 0) (Z.of_nat (S (length s + 3)))).
  set (b := Z.min (Z.max (Z.of_nat (S (length s + 3)) - 3) 0)
              (Z.of_nat (S (length s + 3)))).
  replace (Z.to_nat (Z.min a b)) with 1 by lia.
  replace (Z.to_nat (Z.max a b)) with (S (length s)) by lia.
  simpl. rewrite Nat.sub_0_r, drop_0. by rewrite take_app_length.
Qed.

Lemma tabs_snoc (tab : list ascii) (d : nat) :
  concat (replicate d tab) ++ tab = concat (replicate (S d) tab).
Proof.
  induction d as [|d IH]; simpl in *; [by rewrite app_nil_r|].
  by rewrite <- app_assoc, IH.
Qed.

Lemma tabs_drop (tab : list ascii) (d : nat) :
  drop (length tab) (concat (replicate d tab)) = concat (replicate (pred d) tab).
Proof. destruct d as [|d]; simpl; [by rewrite drop_nil | by rewrite drop_app_length]. Qed.

Lemma joined_snoc (t g q : list ascii) (rest : list (list ascii * list ascii)) :
  joined t (rest ++ [(g, q)]) = joined t rest ++ ">"%char :: g ++ "<"%char :: q.
Proof.
  revert t. induction rest as [|[g' q'] rest IH]; intros t; simpl; [done|].
  rewrite IH. repeat (rewrite <- app_assoc; simpl). done.
Qed.

Lemma formatNode_level (tab f node : list ascii) (d : nat) :
  formatNode tab (f, concat (replicate d tab)) node =
  let d1 := if test closing node then pred d else d in
  (f ++ concat (replicate d1 tab) ++ "<"%char :: node ++ [">"; "013"; "010"]%char,
   concat (replicate (if test opening node then S d1 else d1) tab)).
Proof.
  unfold formatNode. rewrite substringFrom_drop, tabs_drop.
  destruct (test closing node), (test opening node); simpl;
    by rewrite ?tabs_snoc.
Qed.

Lemma foldl_formatNode (tab first : list ascii) (nodes : list (list ascii))
  (rest : list (list ascii * list ascii)) (d : nat) :
  fst (foldl (formatNode tab)
         ("<"%char :: joined first rest ++ [">"; "013"; "010"]%char,
          concat (replicate d tab)) nodes) =
  "<"%char ::
    joined first (rest ++ zip (lineBreak tab <$> levels d nodes) nodes)
    ++ [">"; "013"; "010"]%char.
Proof.
  revert rest d. induction nodes as [|node nodes IH]; intros rest d.
  - simpl. by rewrite app_nil_r.
  - cbn [foldl]. rewrite formatNode_level. cbv zeta.
    set (d1 := if test closing node then pred d else d).
    replace (("<"%char :: joined first rest ++ [">"; "013"; "010"]%char) ++
             concat (replicate d1 tab) ++
             "<"%char :: node ++ [">"; "013"; "010"]%char)
      with ("<"%char :: joined first (rest ++ [(lineBreak tab d1, node)])
              ++ [">"; "013"; "010"]%char).
    2:{ rewrite joined_snoc. unfold lineBreak. simpl.
        rewrite <- !app_assoc. simpl. by rewrite <- !app_assoc. }
    rewrite IH. cbn [levels fmap list_fmap zip zip_with]. fold d1.
    by rewrite <- app_assoc.
Qed.

(** [formatXml] prints the nodes of the text one to a line, the first at
    the margin and each of the others behind as many tabs as its level. *)
Lemma format_layout (xml : list ascii) (tab : option (list ascii)) :
  format xml tab = layout (default ["009"%char] tab) (split boundary xml).
Proof.
  unfold format. set (t := default _ tab).
  rewrite split_boundary.
  destruct (splitLoop_joined xml []) as (first & rest & _ & -> & _).
  cbn [foldl app layout]. set (nodes := snd <$> rest).
  assert (formatNode t ([], []) first =
          ("<"%char :: first ++ [">"; "013"; "010"]%char,
           concat (replicate (if test opening first then 1 else 0) t))) as ->.
  { pose proof (formatNode_level t [] first 0) as H. cbv zeta in H.
    cbn [replicate concat] in H. rewrite H.
    by destruct (test closing first). }
  pose proof (foldl_formatNode t first nodes []
                (if test opening first then 1 else 0)) as H.
  cbn [joined app] in H. rewrite H.
  by apply substring_inner.
Qed.

Lemma levels_length (d : nat) (nodes : list (list ascii)) :
  length (levels d nodes) = length nodes.
Proof.
  revert d. induction nodes as [|n nodes IH]; intros d; simpl; [done|].
  by rewrite IH.
Qed.

Lemma lineBreak_blank (tab : list ascii) (level : nat) :
  blank tab → blank (lineBreak tab level).
Proof.
  intros Ht. unfold lineBreak, blank.
  apply Forall_app. split; [by repeat constructor|].
  induction level as [|l IH]; simpl; [constructor|]. by apply Forall_app.
Qed.

(** The nodes of the formatted text are the nodes of the text. *)
Lemma split_format (xml : list ascii) (tab : option (list ascii)) :
  blank (default ["009"%char] tab) →
  split boundary (format xml tab) = split boundary xml.
Proof.
  intros Ht. rewrite format_layout. set (t := default _ tab) in *.
  rewrite !split_boundary.
  destruct (splitLoop_joined xml []) as (first & rest & _ & -> & Hw).
  cbn [layout app].
  set (gaps := lineBreak t <$> _).
  destruct (wellJoined_gaps first rest gaps Hw) as [Hw' Hs].
  { subst gaps. apply Forall_fmap, Forall_forall. intros l _.
    by apply lineBreak_blank. }
  { subst gaps. by rewrite length_fmap, levels_length, length_fmap. }
  rewrite splitLoop_wellJoined by done. by rewrite Hs.
Qed.

Lemma string_list_string (l : list ascii) :
  list_ascii_of_string (string_of_list_ascii l) = l.
Proof. apply list_ascii_of_string_of_list_ascii. Qed.

(** [formatXml] applied to its own output changes nothing, and the nodes
    of its output are the nodes of its input, when the tab is white space
    (as the default tab is). *)
Theorem formatXml_idempotent (xml : string) (tab : option string) :
  (∀ t, tab = Some t → blank (list_ascii_of_string t)) →
  formatXml (formatXml xml tab) tab = formatXml xml tab ∧
  split boundary (list_ascii_of_string (formatXml xml tab)) =
    split boundary (list_ascii_of_string xml).
Proof.
  intros Ht.
  assert (blank (default ["009"%char] (list_ascii_of_string <$> tab))) as Hb.
  { destruct tab as [t|]; simpl; [by apply Ht | by repeat constructor]. }
  unfold formatXml. rewrite string_list_string.
  split; [|by apply split_format].
  f_equal. rewrite (format_layout (format _ _)), split_format by done.
  by rewrite format_layout.
Qed.

(** [formatXml] as a layout: the nodes are the parts of the text between
    boundaries; the first is printed at the margin, and each of the others
    on a line of its own behind one tab for each level of nesting.  A
    closing tag at the margin stays at the margin. *)
Theorem formatXml_layout (xml : string) (tab : option string) :
  formatXml xml tab =
  string_of_list_ascii
    (layout (default ["009"%char] (list_ascii_of_string <$> tab))
       (split boundary (list_ascii_of_string xml))).
Proof. unfold formatXml. by rewrite format_layout. Qed.

Lemma hasBoundary_false (s : list ascii) :
  hasBoundary s = false → ∀ acc, splitLoop boundary 0 acc s = [acc ++ s].
Proof.
  induction s as [|c s IH]; intros H acc.
  - by rewrite app_nil_r.
  - cbn [hasBoundary] in H. apply orb_false_iff in H as [Hm Hs].
    apply bool_decide_eq_false in Hm.
    rewrite splitLoop_char.
    + rewrite IH by done. by rewrite <- app_assoc.
    + destruct (matchB (c :: s)) eqn:E; [|done]. destruct Hm. by eexists.
Qed.

(** A text without a boundary is returned as it is: a single tag, plain
    text, the empty text. *)
Theorem formatXml_without_boundary (xml : string) (tab : option string) :
  hasBoundary (list_ascii_of_string xml) = false →
  formatXml xml tab = xml.
Proof.
  intros H. unfold formatXml. rewrite format_layout, split_boundary.
  rewrite hasBoundary_false by done. simpl.
  apply string_of_list_ascii_of_string.
Qed.


(** *** Which nodes open a level *)

Lemma except_ne (c d : ascii) : except c d = true ↔ d ≠ c.
Proof.
  unfold except. rewrite negb_true_iff.
  destruct (Ascii.eqb_spec c d); naive_solver.
Qed.

Lemma last_of_tag (c : ascii) (t r : list ascii) :
  matchHere [atom (except "/") Once] true (c :: t) = Some r ↔
  r = [] ∧ t = [] ∧ c ≠ "/"%char.
Proof.
  change (matchHere [atom (except "/") Once] true (c :: t))
    with (if except "/" c
          then match t with [] => Some ([] : list ascii) | _ => None end
          else None).
  destruct (except "/" c) eqn:Hc.
  - apply except_ne in Hc. destruct t as [|d t].
    + split; [by intros [= <-] | by intros (-> & _)].
    + split; [done | by intros (_ & ? & _)].
  - split; [done|]. intros (_ & _ & Hne). apply except_ne in Hne. congruence.
Qed.

Lemma rest_of_tag (t r : list ascii) :
  matchHere [atom (except ">") Star; atom (except "/") Once] true t = Some r ↔
  r = [] ∧ ∃ mid l, t = mid ++ [l] ∧ Forall (λ x, x ≠ ">"%char) mid ∧
                    l ≠ "/"%char.
Proof.
  revert r. induction t as [|c t IH]; intros r.
  - split; [done|]. intros (_ & mid & l & H & _). by destruct mid.
  - rewrite matchHere_star.
    destruct (except ">" c) eqn:Hc.
    + apply except_ne in Hc.
      destruct (matchHere _ true t) as [r'|] eqn:Ht.
      * destruct (proj1 (IH r') eq_refl) as (-> & mid & l & -> & Hmid & Hl).
        split.
        -- intros [= <-]. split; [done|]. exists (c :: mid), l.
           split; [done|]. split; [by constructor | done].
        -- by intros (-> & _).
      * rewrite last_of_tag. split.
        -- intros (-> & -> & Hne). split; [done|]. by exists [], c.
        -- intros (-> & mid & l & H & Hmid & Hl). split; [done|].
           destruct mid as [|c' mid]; simpl in H.
           ++ by injection H as -> ->.
           ++ injection H as -> ->. apply Forall_cons in Hmid as [_ Hmid].
              assert (None = Some ([] : list ascii)) as Hx; [|done].
              apply IH. split; [done|]. by exists mid, l.
    + rewrite last_of_tag. split.
      * intros (-> & -> & Hne). split; [done|]. by exists [], c.
      * intros (-> & mid & l & H & Hmid & Hl). split; [done|].
        destruct mid as [|c' mid]; simpl in H.
        -- by injection H as -> ->.
        -- injection H as -> ->. apply Forall_cons in Hmid as [Hne _].
           apply except_ne in Hne. congruence.
Qed.

Lemma named_match (s : list ascii) :
  is_Some (matchHere [atom word Once; atom (except ">") Star;
                      atom (except "/") Once] true s) ↔ named s.
Proof.
  destruct s as [|c t].
  { split; [by intros [? ?]|]. by intros (? & ? & ? & ? & _). }
  change (matchHere [atom word Once; atom (except ">") Star;
                     atom (except "/") Once] true (c :: t))
    with (if word c
          then matchHere [atom (except ">") Star; atom (except "/") Once] true t
          else None).
  destruct (word c) eqn:Hc.
  - split.
    + intros [r (-> & mid & l & -> & Hmid & Hl)%rest_of_tag].
      by exists c, mid, l.
    + intros (c' & mid & l & [= <- ->] & _ & Hmid & Hl).
      exists []. apply rest_of_tag. split; [done|]. by exists mid, l.
  - split; [by intros [? ?]|].
    intros (c' & mid & l & [= <- ->] & Hw & _). congruence.
Qed.

Lemma lt_not_word : word "<" = false.
Proof. done. Qed.

(** A node opens a level exactly when, behind a [<] it may start with, it
    is a word character, then characters other than [>], then a last
    character other than [/].  So no level is opened by a closing tag, by a
    tag that closes itself, by a comment or a processing instruction, nor
    by a tag whose name is a single character and that has nothing behind
    the name. *)
Theorem opening_tag_shape (node : list ascii) :
  (test opening node = true ↔
   named node ∨ ∃ node', node = "<"%char :: node' ∧ named node') ∧
  (∀ c rest, node = c :: rest → word c = false → c ≠ "<"%char →
             test opening node = false) ∧
  (∀ front, node = front ++ ["/"%char] → test opening node = false) ∧
  (∀ c, node = [c] ∨ node = ["<"%char; c] → test opening node = false).
Proof.
  assert (test opening node = true ↔
          named node ∨ ∃ node', node = "<"%char :: node' ∧ named node') as Hiff.
  { unfold test. rewrite bool_decide_eq_true.
    destruct node as [|c t].
    { split; [by intros [? ?]|].
      intros [(? & ? & ? & ? & _)|(? & ? & _)]; done. }
    change (matchHere (atoms opening) (toEnd opening) (c :: t))
      with (if only "<" c
            then match matchHere [atom word Once; atom (except ">") Star;
                                  atom (except "/") Once] true t with
                 | Some r => Some r
                 | None => matchHere [atom word Once; atom (except ">") Star;
                                      atom (except "/") Once] true (c :: t)
                 end
            else matchHere [atom word Once; atom (except ">") Star;
                            atom (except "/") Once] true (c :: t)).
    destruct (only "<" c) eqn:Hc.
    - apply only_eq in Hc as ->.
      assert (¬ named ("<"%char :: t)) as Hn.
      { intros (c & mid & l & [= <- ->] & Hw & _). done. }
      assert (matchHere [atom word Once; atom (except ">") Star;
                         atom (except "/") Once] true ("<"%char :: t) = None)
        as -> by done.
      split.
      + intros Hs. right. exists t. split; [done|]. apply named_match.
        destruct (matchHere _ true t); [by eexists | by destruct Hs].
      + intros [Hn'|(t' & [= <-] & Hn')]; [done|].
        apply named_match in Hn' as [r ->]. by eexists.
    - rewrite named_match. split; [by left|].
      intros [?|(t' & [= -> ->] & _)]; [done|].
      by rewrite (proj2 (only_eq _ _) eq_refl) in Hc. }
  split; [done|].
  assert (¬ (named node ∨ ∃ node', node = "<"%char :: node' ∧ named node') →
          test opening node = false) as Hnot.
  { intros Hs. destruct (test opening node) eqn:E; [|done].
    destruct Hs. by apply Hiff. }
  assert (∀ s, named s → ∃ front l, s = front ++ [l] ∧ l ≠ "/"%char ∧
                                    front ≠ []) as Hlast.
  { intros s (c & mid & l & -> & _ & _ & Hl). by exists (c :: mid), l. }
  split; [|split].
  - intros c rest -> Hw Hc. apply Hnot.
    intros [(c' & mid & l & [= <- _] & Hw' & _)|(node' & [= -> _] & _)];
      congruence.
  - intros front ->. apply Hnot.
    intros [Hn|(node' & Hnode & Hn)]; apply Hlast in Hn as (f & l & Hs & Hl & _).
    + apply app_inj_tail in Hs as [_ <-]. done.
    + subst node'. rewrite app_comm_cons in Hnode.
      apply app_inj_tail in Hnode as [_ <-]. done.
  - intros c Hc. apply Hnot.
    intros [Hn|(node' & Hnode & Hn)].
    + destruct Hn as (c' & mid & l & Hs & Hw & _).
      destruct Hc as [-> | ->].
      * injection Hs as _ Hs. by destruct mid.
      * injection Hs as <- _. done.
    + apply Hlast in Hn as (f & l & -> & _ & Hf).
      destruct Hc as [-> | ->].
      * injection Hnode as _ Hs. by destruct f.
      * injection Hnode as Hs. destruct f as [|? [|? ?]]; done.
Qed.

End Formatting.

(** ** Saving from the code wizard *)

Section Saving.
Import WizardQueue CodeWizard.

Variable parentElement : Node → option Node.
Variable nextSibling : Node → option Node.
Variable parseFromString : string → Node.

Local Abbreviation onClosed :=
  (onClosed parentElement nextSibling parseFromString).

(** When the dialog of a wizard closes, the wizard dispatches the event
    that closes it, last and once, whatever the action.  Before that it
    dispatches one edit, which takes the element out and puts the parsed
    text in its place, exactly when the action is [save], the text is not
    empty and the element has a parent element; for the root element, with
    Cancel, and with an empty text no edit is dispatched.  Without a request
    a save of a text that is not empty throws and nothing is dispatched. *)
Theorem onClosed_dispatches (cw : CodeWizard) (action text : string) :
  editor cw = Some text →
  let saves el :=
    action = "save"%string ∧ text ≠ ""%string ∧ is_Some (parentElement el) in
  (∀ r el, wizard cw = Some r → element cw = Some el →
     ∃ cw' edits,
       onClosed action cw = Normal tt cw' ∧
       wizard cw' = wizard cw ∧ editor cw' = editor cw ∧
       dispatched cw' =
         dispatched cw ++ edits ++ [CloseWizardDispatched (Some r)] ∧
       (saves el →
        ∃ parent, parentElement el = Some parent ∧
          edits = [EditDispatched
                     (Compound [Remove el;
                                Insert parent (parseFromString text)
                                  (nextSibling el)])]) ∧
       (¬ saves el → edits = [])) ∧
  (wizard cw = None →
   if String.eqb action "save" && truthy text
   then onClosed action cw = Throw cw
   else ∃ cw', onClosed action cw = Normal tt cw' ∧
          dispatched cw' = dispatched cw ++ [CloseWizardDispatched None]).
Proof.
  intros He saves. split.
  - intros r el Hw Hel.
    unfold CodeWizard.onClosed, save, codeEdits, dispatchEvent,
      mbind, M_bind, gets, modify, mret, M_ret, throw.
    destruct (String.eqb_spec action "save") as [->|Hne].
    + rewrite He, Hel. unfold truthy.
      destruct (String.eqb_spec text "") as [->|Ht]; simpl.
      * eexists _, []. rewrite Hw. repeat split; try done.
        by intros (_ & ? & _).
      * destruct (parentElement el) as [p|] eqn:Hp; simpl.
        -- eexists _, [EditDispatched
                         (Compound [Remove el;
                                    Insert p (parseFromString text)
                                      (nextSibling el)])].
           rewrite Hw. simpl. split; [done|]. split; [done|].
           split; [done|]. split; [by rewrite <- app_assoc|]. split.
           ++ intros _. by exists p.
           ++ intros Hn. destruct Hn. split; [done|]. split; [done|].
              by exists p.
        -- eexists _, []. rewrite Hw. repeat split; try done.
           intros (_ & _ & [x Hx]). congruence.
    + eexists _, []. rewrite Hw. repeat split; try done.
      by intros (? & _).
  - intros Hw.
    assert (element cw = None) as Hel by (unfold element; by rewrite Hw).
    unfold CodeWizard.onClosed, save, dispatchEvent,
      mbind, M_bind, gets, modify, mret, M_ret, throw.
    destruct (String.eqb action "save"); simpl.
    + rewrite He, Hel. destruct (truthy text); simpl; [done|].
      rewrite Hw. by eexists.
    + rewrite Hw. by eexists.
Qed.

End Saving.

(** ** The properties at work on the sample page *)

Lemma undo_redo_replay_witness :
  let w :=
    Sample.go [Dispatch_edit (newEditEventV1 Sample.setText);
               Dispatch_edit (newEditEventV1 Sample.setAttr)] Sample.page in
  undo EditEngine.apply 5 w =
    forEach (λ e, replay EditEngine.apply (-1) (LogEntry.undo e))
      (undone 5 w) w ∧
  length (undone 5 w) = 2.
Proof.
  intros w. split; [|reflexivity].
  apply (undo_redo_replay EditEngine.apply 5 w). vm_compute. discriminate.
Defined.

Lemma undo_redo_counts_add_witness :
  let w :=
    Sample.go [Dispatch_edit (newEditEventV1 Sample.setText);
               Dispatch_edit (newEditEventV1 Sample.setAttr)] Sample.page in
  (undo EditEngine.apply 1 ;; undo EditEngine.apply 1) w =
  undo EditEngine.apply 2 w.
Proof.
  intros w.
  apply (undo_redo_counts_add EditEngine.apply 1 1 w); vm_compute; discriminate.
Defined.

Lemma undo_redo_reach_witness :
  let w :=
    run Demo.accept Sample.hash Sample.locate
      [Dispatch_edit (newEditEventV1 Sample.setText);
       Dispatch_edit (newEditEventV1 Sample.setAttr);
       Dispatch_edit (newEditEventV1 Sample.move)] Demo.blankPage in
  ∃ w', undo Demo.accept 2 w = Normal tt w' ∧ editCount w' = 1%Z.
Proof.
  intros w.
  destruct (undo_redo_reach Demo.accept 2 w) as [(w' & R & _ & Hc) _].
  - intros e d. reflexivity.
  - vm_compute. split; discriminate.
  - vm_compute. discriminate.
  - exists w'. split; [exact R|]. rewrite Hc. reflexivity.
Defined.

Lemma commit_undo_redo_witness :
  ∃ w1 w2,
    handleEditEvent EditEngine.apply (newEditEventV1 Sample.setText)
      Sample.page = Normal tt w1 ∧
    undo EditEngine.apply 1 w1 = Normal tt w2 ∧
    dom w2 = Sample.tree ∧
    redo EditEngine.apply 1 w2 = Normal tt w1.
Proof.
  destruct (commit_undo_redo EditEngine.apply Sample.page Sample.setText
              (SetTextContent 3 "") (SetTextContent 3 "x")
              (state_of (EditEngine.apply Sample.setText Sample.tree)))
    as (w1 & w2 & R1 & R2 & Hd & _ & _ & _ & R3).
  - vm_compute. split; discriminate.
  - vm_compute. reflexivity.
  - vm_compute. reflexivity.
  - exists w1, w2. split; [exact R1|]. split; [exact R2|].
    split; [exact Hd | exact R3].
Defined.

Lemma open_enables_every_tab_witness :
  let w1 := state_of (handleOpenDoc "a.scd" 10 Demo.twoEditors) in
  ∃ es w',
    get_editors Sample.hash w1 = Normal es w' ∧
    tabs Sample.hash w1 = Normal es w' ∧
    length es = 2.
Proof.
  intros w1.
  destruct (open_enables_every_tab Sample.hash Demo.twoEditors "a.scd" 10
              eq_refl) as (_ & es & w' & Re & Rt & _).
  exists es, w'. split; [exact Re|]. split; [exact Rt|].
  fold w1 in Re. vm_compute in Re. by injection Re as <- _.
Defined.

Lemma disabled_editor_keeps_its_index_witness :
  ∃ ts w' w'' tab,
    tabs Sample.hash Demo.twoEditors = Normal ts w' ∧
    ts !! 0%nat = Some tab ∧
    Control.tagName tab =
      Some "oscd-pdata:text/javascript,TestPlugin1"%string ∧
    get_editor Sample.hash 0 Demo.twoEditors =
      Normal "oscd-pdata:text/javascript,TestEditorPlugin2"%string w''.
Proof.
  apply (disabled_editor_keeps_its_index Sample.hash Demo.twoEditors
           Demo.needsDoc Sample.editorPlugin1 []); try reflexivity.
  discriminate.
Defined.

Lemma same_src_defined_loaded_once_witness :
  ∃ w1,
    set_plugins Sample.hash Sample.locate
      [(Menu, [Sample.menuPlugin1]); (Editor, [Sample.editorPlugin1])]
      Demo.definedBefore = Normal tt w1 ∧
    imports w1 = [] ∧
    loadedPlugins w1 = {| menu := [Sample.menuPlugin1]; editor := [] |}.
Proof.
  destruct (same_src_defined_loaded_once Sample.hash Sample.locate
              Demo.definedBefore
              [(Menu, [Sample.menuPlugin1]); (Editor, [Sample.editorPlugin1])]
              Menu Editor Sample.menuPlugin1 Sample.editorPlugin1
              "TestPlugin1"%string eq_refl eq_refl)
    as (w1 & R & Hi & Hl & _).
  - apply not_elem_of_nil.
  - reflexivity.
  - exists w1. split; [exact R|]. split; [exact Hi | exact Hl].
Defined.

Lemma reassigning_loaded_plugins_witness :
  let w :=
    Sample.go
      [Assign_plugins [(Menu, [Sample.menuPlugin1])];
       Settle 0 (Some "TestPlugin1"%string)] Sample.page in
  ∃ w',
    set_plugins Sample.hash Sample.locate
      [(Menu, [Sample.menuPlugin1]); (Editor, [Sample.editorPlugin1])] w =
      Normal tt w' ∧
    length (imports w') = 1 ∧
    editor (plugins w') = [Sample.editorPlugin1] ∧
    editor (loadedPlugins w') = [].
Proof.
  intros w.
  destruct (reassigning_loaded_plugins Sample.hash Sample.locate w
              [(Menu, [Sample.menuPlugin1]); (Editor, [Sample.editorPlugin1])])
    as (w' & R & Hi & Hl & _ & _ & Hp).
  - intros kind plugin Hin. vm_compute in Hin.
    apply elem_of_cons in Hin as [[= -> ->]|Hin];
      [vm_compute; apply list_elem_of_here|].
    apply elem_of_cons in Hin as [[= -> ->]|Hin];
      [vm_compute; apply list_elem_of_here|].
    by apply elem_of_nil in Hin.
  - exists w'. split; [exact R|]. rewrite Hi, Hl, Hp. by repeat split.
Defined.

Lemma loaded_plugins_are_defined_witness :
  let actions :=
    [Assign_plugins [(Menu, [Sample.menuPlugin1]);
                     (Editor, [Sample.editorPlugin1])];
     Settle 0 (Some "TestPlugin1"%string);
     Settle 1 (Some "TestPlugin1"%string)] in
  let w := Sample.go actions Sample.page in
  "oscd-pdata:text/javascript,TestPlugin1"%string
    ∈ priv_loadedPluginTagNames w ∧
  ∃ c, customElements_get "oscd-pdata:text/javascript,TestPlugin1"
         (customElements w) = Some c.
Proof.
  intros actions w.
  destruct (loaded_plugins_are_defined EditEngine.apply Sample.hash
              Sample.locate Sample.tree [] actions) as [H _].
  destruct (H Editor Sample.editorPlugin1) as (tag & w' & Htag & Hin & Hdef).
  { vm_compute. apply list_elem_of_here. }
  vm_compute in Htag. injection Htag as <- _.
  split; [exact Hin | exact (Hdef eq_refl)].
Defined.

Lemma rendered_tags_are_defined_witness :
  let actions :=
    [Assign_plugins [(Menu, [Sample.menuPlugin1; Sample.menuPlugin2])];
     Settle 0 (Some "TestPlugin1"%string);
     Settle 1 (Some "TestPlugin2"%string)] in
  let w := Sample.go actions Sample.page in
  ∃ tags w',
    aside_tags Sample.hash w = Normal tags w' ∧
    length tags = 2 ∧
    ∀ tag, tag ∈ tags → is_Some (customElements_get tag (customElements w)).
Proof.
  intros actions w.
  destruct (rendered_tags_are_defined EditEngine.apply Sample.hash
              Sample.locate (λ key text, text) Sample.tree [] actions)
    as (_ & _ & tags & w' & R & _ & Hlen & Hbound).
  exists tags, w'. split; [exact R|]. split; [exact Hlen|].
  intros tag Htag. exact (Hbound tag Htag eq_refl).
Defined.

(** Two locators whose modules export one and the same class.  The
    callback of the second import finds its own tag undefined and the
    class bound to the tag of the first: [customElements.define] refuses
    it, and the callback throws when the descriptor has been recorded.
    The plugin is then loaded and its tag listed, and the tag is no defined
    custom element. *)
Lemma loaded_and_not_defined :
  let actions :=
    [Assign_plugins [(Menu, [Sample.menuPlugin1; Sample.menuPlugin2])];
     Settle 0 (Some "Shared"%string);
     Settle 1 (Some "Shared"%string)] in
  let w := Sample.go actions Sample.page in
  let tag2 := "oscd-pdata:text/javascript,TestPlugin2"%string in
  callbacksReturn EditEngine.apply Sample.hash Sample.locate actions
    Sample.page = false ∧
  menu (loadedPlugins w) = [Sample.menuPlugin1; Sample.menuPlugin2] ∧
  priv_loadedPluginTagNames w =
    ["oscd-pdata:text/javascript,TestPlugin1"%string; tag2] ∧
  customElements w =
    [("oscd-pdata:text/javascript,TestPlugin1"%string, "Shared"%string)] ∧
  customElements_get tag2 (customElements w) = None.
Proof. vm_compute. repeat split. Qed.

Lemma formatXml_idempotent_witness :
  let once := CodeWizard.formatXml "<ab><b/></ab>" (Some "  "%string) in
  CodeWizard.formatXml once (Some "  "%string) = once.
Proof.
  intros once.
  apply (formatXml_idempotent "<ab><b/></ab>" (Some "  "%string)).
  intros t [= <-]. by repeat constructor.
Defined.

Lemma formatXml_without_boundary_witness :
  CodeWizard.formatXml "<ChildElement childAttr='someAttr'/>" None =
  "<ChildElement childAttr='someAttr'/>"%string.
Proof. apply formatXml_without_boundary. reflexivity. Defined.

Lemma onClosed_dispatches_witness :
  ∃ cw',
    CodeWizard.onClosed Demo.parentElement Demo.nextSibling
      Demo.parseFromString "save" Demo.wizardOnChild = Normal tt cw' ∧
    CodeWizard.dispatched cw' =
      [CodeWizard.EditDispatched (Compound [Remove 3; Insert 2 9 None]);
       CodeWizard.CloseWizardDispatched
         (Some (WizardQueue.EditWizardRequest 3 None))].
Proof.
  destruct (onClosed_dispatches Demo.parentElement Demo.nextSibling
              Demo.parseFromString Demo.wizardOnChild "save"
              "<NewChildElement/>" eq_refl)
    as [H _].
  destruct (H (WizardQueue.EditWizardRequest 3 None) 3 eq_refl eq_refl)
    as (cw' & edits & R & _ & _ & Hd & Hs & _).
  exists cw'. split; [exact R|]. rewrite Hd.
  destruct Hs as (parent & [= <-] & ->); [|reflexivity].
  split; [reflexivity|]. split; [discriminate|]. by eexists.
Defined.

Lemma keys_lists (m : gmap string (option nat)) :
  NoDup (Demo.keys m) ∧ ∀ name, name ∈ Demo.keys m ↔ is_Some (m !! name).
Proof.
  unfold Demo.keys. split; [apply NoDup_fst_map_to_list|].
  intros name. rewrite list_elem_of_fmap. split.
  - intros ([k v] & -> & Hin). apply elem_of_map_to_list in Hin. by eexists.
  - intros [v Hv]. exists (name, v). split; [done|].
    by apply elem_of_map_to_list.
Qed.

Lemma closing_the_current_file_witness :
  ∃ w',
    editFile_closed Demo.keys (Some "remove"%string) Demo.threeFiles =
      Normal tt w' ∧
    docName w' = "b.SCD"%string ∧
    doc w' = Some (Some 20).
Proof.
  destruct (closing_the_current_file Demo.keys keys_lists Demo.threeFiles)
    as [(w' & R & _ & _) _].
  exists w'. split; [exact R|].
  vm_compute in R. injection R as <-. split; reflexivity.
Defined.
